(** * Pinocchio: the URDF parser and the Jacobian bindings

    A shallow embedding of

    - [src/multibody/parser/urdf.hpp]: the converters from URDF values, the
      axis classifier [extractCartesianAxis], the two overloads of the
      recursive [parseTree], with what it writes to the URDF tree, and the
      two overloads of [buildModel];
    - [bindings/python/algorithm/expose-jacobian.cpp]: the proxies behind
      [jointJacobian], [getJointJacobian] and
      [getJointJacobianTimeVariation].

    Conventions.

    - [double] is a parameter of the development (class [Scalar]).  Two
      instances are given: [float_Scalar], IEEE binary64 as the machine
      computes it, and [R_Scalar], the real numbers, for the statements that
      only hold without rounding.
    - [throw std::invalid_argument(msg)] and a failed [assert] both end the
      call without a Model; they are the two main constructors of
      [exception], kept apart because the first one can be caught.  The
      assertions are armed: the header is read as compiled without NDEBUG.
    - Output on [std::cout] / [std::cerr] (the [verbose] flag, the "Bad axis"
      trace) does not touch the Model and is left out. *)

From Stdlib Require Import Floats.
From Stdlib Require Import String Ascii List Reals Lra Lia RNsatz.
From stdpp Require Import base option list.
Import ListNotations.

Open Scope string_scope.
Open Scope list_scope.

(** [a +:+ b] is [a + b] on [std::string]. *)
Infix "+:+" := String.append (at level 60, right associativity).

(** ** Scalars *)

Class Scalar := {
  double : Type;
  d0 : double;
  d1 : double;
  d2 : double;
  dadd : double -> double -> double;
  dsub : double -> double -> double;
  dmul : double -> double -> double;
  ddiv : double -> double -> double;
  dsqrt : double -> double;
  (** [a == b] on doubles *)
  deqb : double -> double -> bool
}.

#[export] Instance float_Scalar : Scalar := {|
  double := float;
  d0 := 0%float;
  d1 := 1%float;
  d2 := 2%float;
  dadd := PrimFloat.add;
  dsub := PrimFloat.sub;
  dmul := PrimFloat.mul;
  ddiv := PrimFloat.div;
  dsqrt := PrimFloat.sqrt;
  deqb := PrimFloat.eqb
|}.

Definition Reqb (a b : R) : bool := if Req_dec_T a b then true else false.

Definition R_Scalar : Scalar := {|
  double := R;
  d0 := 0%R;
  d1 := 1%R;
  d2 := 2%R;
  dadd := Rplus;
  dsub := Rminus;
  dmul := Rmult;
  ddiv := Rdiv;
  dsqrt := R_sqrt.sqrt;
  deqb := Reqb
|}.

(** ** Failures *)

Inductive exception : Type :=
| invalid_argument (what : string)    (* throw std::invalid_argument(what) *)
| assertion_failure (expr : string)   (* assert(false && expr), assert(expr) *)
| unknown_joint_name (name : string). (* getJointId on a name the model lacks *)

Inductive result (A : Type) : Type :=
| Ok (a : A)
| Throw (e : exception).

Arguments Ok {A} a.
Arguments Throw {A} e.

Definition bind {A B : Type} (c : result A) (k : A -> result B) : result B :=
  match c with
  | Ok a => k a
  | Throw e => Throw e
  end.

Notation "'let!' x ':=' c 'in' k" := (bind c (fun x => k))
  (at level 10, x pattern, c at level 100, k at level 200).

(** A loop [BOOST_FOREACH(x, xs) body(x, state)] that stops at the first
    failure. *)
Fixpoint foreach {A St : Type} (body : A -> St -> result St) (xs : list A) (st : St)
  : result St :=
  match xs with
  | [] => Ok st
  | x :: xs' => let! st' := body x st in foreach body xs' st'
  end.


(** The call ends without a result. *)
Definition fails {A : Type} (c : result A) : Prop := exists e, c = Throw e.

(** [Model::Index], [Model::JointIndex] *)
Abbreviation Index := nat (only parsing).
Abbreviation JointIndex := nat (only parsing).

Section Parser.
Context {Sc : Scalar}.

(** ** Eigen values: 3-vectors, 3x3 matrices, dynamic vectors *)

Record Vector3d : Type := mkVector3d { vx : double; vy : double; vz : double }.

(** Row-major 3x3 matrix. *)
Record Matrix3d : Type := mkMatrix3d { row0 : Vector3d; row1 : Vector3d; row2 : Vector3d }.

(** [Eigen::VectorXd]: a vector whose size is chosen at run time. *)
Definition VectorXd : Type := list double.

Definition Vector3d_Zero : Vector3d := mkVector3d d0 d0 d0.

Definition vadd (a b : Vector3d) : Vector3d :=
  mkVector3d (dadd (vx a) (vx b)) (dadd (vy a) (vy b)) (dadd (vz a) (vz b)).
Definition vsub (a b : Vector3d) : Vector3d :=
  mkVector3d (dsub (vx a) (vx b)) (dsub (vy a) (vy b)) (dsub (vz a) (vz b)).
Definition vscale (k : double) (a : Vector3d) : Vector3d :=
  mkVector3d (dmul k (vx a)) (dmul k (vy a)) (dmul k (vz a)).
Definition vdivs (a : Vector3d) (k : double) : Vector3d :=
  mkVector3d (ddiv (vx a) k) (ddiv (vy a) k) (ddiv (vz a) k).
Definition vdot (a b : Vector3d) : double :=
  dadd (dadd (dmul (vx a) (vx b)) (dmul (vy a) (vy b))) (dmul (vz a) (vz b)).

(** [v.normalize()]: [v /= v.norm()] with [norm = sqrt(squaredNorm)]. *)
Definition normalize (v : Vector3d) : Vector3d := vdivs v (dsqrt (vdot v v)).

Definition Matrix3d_Identity : Matrix3d :=
  mkMatrix3d (mkVector3d d1 d0 d0) (mkVector3d d0 d1 d0) (mkVector3d d0 d0 d1).
Definition col0 (m : Matrix3d) : Vector3d := mkVector3d (vx (row0 m)) (vx (row1 m)) (vx (row2 m)).
Definition col1 (m : Matrix3d) : Vector3d := mkVector3d (vy (row0 m)) (vy (row1 m)) (vy (row2 m)).
Definition col2 (m : Matrix3d) : Vector3d := mkVector3d (vz (row0 m)) (vz (row1 m)) (vz (row2 m)).
Definition transpose (m : Matrix3d) : Matrix3d := mkMatrix3d (col0 m) (col1 m) (col2 m).
Definition mvec (m : Matrix3d) (v : Vector3d) : Vector3d :=
  mkVector3d (vdot (row0 m) v) (vdot (row1 m) v) (vdot (row2 m) v).
Definition mmul (a b : Matrix3d) : Matrix3d :=
  let r (v : Vector3d) := mkVector3d (vdot v (col0 b)) (vdot v (col1 b)) (vdot v (col2 b)) in
  mkMatrix3d (r (row0 a)) (r (row1 a)) (r (row2 a)).
Definition madd (a b : Matrix3d) : Matrix3d :=
  mkMatrix3d (vadd (row0 a) (row0 b)) (vadd (row1 a) (row1 b)) (vadd (row2 a) (row2 b)).
Definition msub (a b : Matrix3d) : Matrix3d :=
  mkMatrix3d (vsub (row0 a) (row0 b)) (vsub (row1 a) (row1 b)) (vsub (row2 a) (row2 b)).
Definition mscale (k : double) (a : Matrix3d) : Matrix3d :=
  mkMatrix3d (vscale k (row0 a)) (vscale k (row1 a)) (vscale k (row2 a)).
(** The cross-product matrix of [v]. *)
Definition skew (v : Vector3d) : Matrix3d :=
  mkMatrix3d (mkVector3d d0 (dsub d0 (vz v)) (vy v))
             (mkVector3d (vz v) d0 (dsub d0 (vx v)))
             (mkVector3d (dsub d0 (vy v)) (vx v) d0).

(** [Eigen::Quaterniond(w,x,y,z).matrix()]; the quaternion is not
    normalised. *)
Definition Quaterniond_matrix (w x y z : double) : Matrix3d :=
  let tx := dmul d2 x in
  let ty := dmul d2 y in
  let tz := dmul d2 z in
  let twx := dmul tx w in
  let twy := dmul ty w in
  let twz := dmul tz w in
  let txx := dmul tx x in
  let txy := dmul ty x in
  let txz := dmul tz x in
  let tyy := dmul ty y in
  let tyz := dmul tz y in
  let tzz := dmul tz z in
  mkMatrix3d
    (mkVector3d (dsub d1 (dadd tyy tzz)) (dsub txy twz) (dadd txz twy))
    (mkVector3d (dadd txy twz) (dsub d1 (dadd txx tzz)) (dsub tyz twx))
    (mkVector3d (dsub txz twy) (dadd tyz twx) (dsub d1 (dadd txx tyy))).

(** ** Spatial primitives *)

(** Modelled from the spec: [se3::SE3] (spatial/se3.hpp is not part of the
    sources).  "A rotation matrix R and a translation t.  Composition is the
    usual rigid-body product.  Identity is (I, 0)." *)
Record SE3 : Type := mkSE3 { rotation : Matrix3d; translation : Vector3d }.

Definition SE3_Identity : SE3 := mkSE3 Matrix3d_Identity Vector3d_Zero.

(** Modelled from the spec: [SE3::operator*], "the usual rigid-body product". *)
Definition SE3_mul (a b : SE3) : SE3 :=
  mkSE3 (mmul (rotation a) (rotation b))
        (vadd (translation a) (mvec (rotation a) (translation b))).

(** Modelled from the spec: [se3::Inertia] (spatial/inertia.hpp is not part of
    the sources).  "Mass m, center-of-mass offset c expressed in the body
    frame, 3x3 symmetric inertia tensor I expressed about c.  Supports
    transport to a new frame and merge Y1 (+) Y2 yielding the combined spatial
    inertia of two bodies rigidly joined in a shared frame." *)
Record Inertia : Type := mkInertia { mass : double; lever : Vector3d; inertia : Matrix3d }.

(** Modelled from the spec: [Inertia::Identity()], "identity inertia
    (mass = 0)".  The spec fixes the mass only. *)
Definition Inertia_Identity : Inertia := mkInertia d0 Vector3d_Zero Matrix3d_Identity.

(** Modelled from the spec: the inertia of no body at all, the neutral
    element of the merge. *)
Definition Inertia_Zero : Inertia :=
  mkInertia d0 Vector3d_Zero (mkMatrix3d Vector3d_Zero Vector3d_Zero Vector3d_Zero).

(** Modelled from the spec: [M.act(Y)], the "transport of inertia": the mass
    is kept, the lever and the tensor move with the frame. *)
Definition SE3_act (M : SE3) (Y : Inertia) : Inertia :=
  mkInertia (mass Y)
            (vadd (translation M) (mvec (rotation M) (lever Y)))
            (mmul (mmul (rotation M) (inertia Y)) (transpose (rotation M))).

(** Modelled from the spec: [Ya + Yb], the "merge": the masses add up, the
    lever is the common centre of mass, the tensors are taken about it
    (parallel-axis term). *)
Definition Inertia_add (Ya Yb : Inertia) : Inertia :=
  let mm := dadd (mass Ya) (mass Yb) in
  let X := skew (vsub (lever Ya) (lever Yb)) in
  let mmmXX := mscale (ddiv (dmul (mass Ya) (mass Yb)) mm) (mmul X X) in
  mkInertia mm
            (vdivs (vadd (vscale (mass Ya) (lever Ya)) (vscale (mass Yb) (lever Yb))) mm)
            (msub (madd (inertia Ya) (inertia Yb)) mmmXX).

(** ** URDF values, as the parser reads them from [urdf_model] *)

Record Vector3 : Type := mkVector3 { x : double; y : double; z : double }.
Record Rotation : Type := mkRotation { qx : double; qy : double; qz : double; qw : double }.
Record Pose : Type := mkPose { position : Vector3; pose_rotation : Rotation }.

Record Inertial : Type := mkInertial {
  origin : Pose;
  inertial_mass : double;
  ixx : double; ixy : double; ixz : double;
  iyy : double; iyz : double; izz : double
}.

Record JointLimits : Type := mkJointLimits {
  lower : double; upper : double; effort : double; velocity : double
}.

(** [urdf::Joint::type]. *)
Inductive JointType : Type :=
| UNKNOWN | REVOLUTE | CONTINUOUS | PRISMATIC | FLOATING | PLANAR | FIXED.

Record Joint : Type := mkJoint {
  joint_name : string;
  type : JointType;
  axis : Vector3;
  parent_to_joint_origin_transform : Pose;
  joint_limits : option JointLimits     (* joint->limits, may be null *)
}.

(** What [parseTree] reads through the pointer [link->getParent()]: the
    parent's [name] and its [parent_joint]. *)
Record LinkRef : Type := mkLinkRef {
  ref_name : string;
  ref_parent_joint : option Joint
}.

#[local] Unset Elimination Schemes.
(** [urdf::Link].  [visual] records whether the pointer [link->visual] is set;
    [parent_link] is the mutable back pointer read by [getParent()] and
    written by [setParent()]. *)
Inductive Link : Type := mkLink {
  link_name : string;
  inertial : option Inertial;
  visual : bool;
  parent_joint : option Joint;
  parent_link : option LinkRef;
  child_links : list Link
}.
#[local] Set Elimination Schemes.

Definition getParent (link : Link) : option LinkRef := parent_link link.

Definition setParent (parent : option LinkRef) (link : Link) : Link :=
  mkLink (link_name link) (inertial link) (visual link) (parent_joint link)
         parent (child_links link).

(** The pointer to [link], as its children hold it. *)
Definition ref_of (link : Link) : LinkRef := mkLinkRef (link_name link) (parent_joint link).

(** ** URDF value converters (urdf.hpp, lines 54-105) *)

(** [convertFromUrdf(const urdf::Inertial &)], lines 54-66. *)
Definition convertFromUrdf_Inertial (Y : Inertial) : Inertia :=
  let p := position (origin Y) in
  let q := pose_rotation (origin Y) in
  let com := mkVector3d (x p) (y p) (z p) in
  let R := Quaterniond_matrix (qw q) (qx q) (qy q) (qz q) in
  let I := mkMatrix3d (mkVector3d (ixx Y) (ixy Y) (ixz Y))
                      (mkVector3d (ixy Y) (iyy Y) (iyz Y))
                      (mkVector3d (ixz Y) (iyz Y) (izz Y)) in
  mkInertia (inertial_mass Y) com (mmul (mmul R I) (transpose R)).

(** [convertFromUrdf(const urdf::Pose &)], lines 75-80. *)
Definition convertFromUrdf_Pose (M : Pose) : SE3 :=
  let p := position M in
  let q := pose_rotation M in
  mkSE3 (Quaterniond_matrix (qw q) (qx q) (qy q) (qz q)) (mkVector3d (x p) (y p) (z p)).

(** [enum AxisCartesian], line 85. *)
Inductive AxisCartesian : Type := AXIS_X | AXIS_Y | AXIS_Z | AXIS_UNALIGNED.

(** [extractCartesianAxis], lines 95-105. *)
Definition extractCartesianAxis (axis : Vector3) : AxisCartesian :=
  if deqb (x axis) d1 && deqb (y axis) d0 && deqb (z axis) d0 then AXIS_X
  else if deqb (x axis) d0 && deqb (y axis) d1 && deqb (z axis) d0 then AXIS_Y
  else if deqb (x axis) d0 && deqb (y axis) d0 && deqb (z axis) d1 then AXIS_Z
  else AXIS_UNALIGNED.

(** ** The Model builder *)

(** Modelled from the spec: the joint models (multibody/joint/ is not part of
    the sources).  The parser names [JointModelRX], [RY], [RZ],
    [JointModelRevoluteUnaligned], [JointModelPX], [PY], [PZ]; the spec adds
    the free-floating joint, the fixed descriptor that is "never materialized
    in the model", and the "universe" pseudo-joint of index 0. *)
Inductive JointModel : Type :=
| JointModelUniverse
| JointModelFreeFlyer
| JointModelRX | JointModelRY | JointModelRZ
| JointModelRevoluteUnaligned (axis : Vector3d)
| JointModelPX | JointModelPY | JointModelPZ
| JointModelFixed.

(** Modelled from the spec: the dimensions a joint adds to [nq] and [nv].
    One per degree of freedom; the free-floating joint has 6 degrees of
    freedom and, its rotation being a unit quaternion, 7 configuration
    coordinates.  No statement below depends on these numbers. *)
Definition JointModel_nq (j : JointModel) : nat :=
  match j with
  | JointModelUniverse | JointModelFixed => 0
  | JointModelFreeFlyer => 7
  | _ => 1
  end.

Definition JointModel_nv (j : JointModel) : nat :=
  match j with
  | JointModelUniverse | JointModelFixed => 0
  | JointModelFreeFlyer => 6
  | _ => 1
  end.


Record Limits : Type := mkLimits {
  maxEffort : VectorXd;
  maxVelocity : VectorXd;
  lowerPosition : VectorXd;
  upperPosition : VectorXd
}.

Record FixedBody : Type := mkFixedBody {
  fix_parent : Index;
  fix_placement : SE3;
  fix_name : string;
  fix_hasVisual : bool
}.

(** Modelled from the spec: [se3::Model] (multibody/model.hpp is not part of
    the sources), the "append-only structure" of the data model: one entry
    per joint in each of the per-joint lists, index 0 being the universe. *)
Record Model : Type := mkModel {
  joints : list JointModel;
  parents : list Index;
  jointPlacements : list SE3;
  inertias : list Inertia;
  limits : list Limits;
  names : list string;
  bodyNames : list string;
  hasVisual : list bool;
  fixedBodies : list FixedBody;
  nq : nat;
  nv : nat
}.

(** Modelled from the spec: the constructor [Model()].  Index 0 is "reserved
    for the universe pseudo-joint"; [parents[0]] is "undefined" and set to 0
    here; the universe carries no mass of its own. *)
Definition Model_init : Model := {|
  joints := [JointModelUniverse];
  parents := [0];
  jointPlacements := [SE3_Identity];
  inertias := [Inertia_Zero];
  limits := [mkLimits [] [] [] []];
  names := ["universe"];
  bodyNames := ["universe"];
  hasVisual := [false];
  fixedBodies := [];
  nq := 0;
  nv := 0
|}.

Definition njoints (model : Model) : nat := length (joints model).

(** Modelled from the spec: [Model::addBody] with limits.  "Append-only":
    the new joint takes the next index, and [nq], [nv] grow by the joint's
    dimensions.  That the new index exceeds [parent] is not checked here; it
    is proved of the parser below. *)
Definition addBody (model : Model) (parent : Index) (j : JointModel) (placement : SE3)
    (Y : Inertia) (effort velocity lowPos upPos : VectorXd)
    (jointName bodyName : string) (visual : bool) : Model := {|
  joints := joints model ++ [j];
  parents := parents model ++ [parent];
  jointPlacements := jointPlacements model ++ [placement];
  inertias := inertias model ++ [Y];
  limits := limits model ++ [mkLimits effort velocity lowPos upPos];
  names := names model ++ [jointName];
  bodyNames := bodyNames model ++ [bodyName];
  hasVisual := hasVisual model ++ [visual];
  fixedBodies := fixedBodies model;
  nq := nq model + JointModel_nq j;
  nv := nv model + JointModel_nv j
|}.

(** Modelled from the spec: the overload of [Model::addBody] without limits,
    called at line 407: the limit vectors are left empty. *)
Definition addBody_nolimits (model : Model) (parent : Index) (j : JointModel)
    (placement : SE3) (Y : Inertia) (jointName bodyName : string) (visual : bool) : Model :=
  addBody model parent j placement Y [] [] [] [] jointName bodyName visual.

(** Modelled from the spec: [Model::addFixedBody] "appends to fixedBodies
    only". *)
Definition addFixedBody (model : Model) (parent : Index) (placement : SE3)
    (bodyName : string) (visual : bool) : Model := {|
  joints := joints model;
  parents := parents model;
  jointPlacements := jointPlacements model;
  inertias := inertias model;
  limits := limits model;
  names := names model;
  bodyNames := bodyNames model;
  hasVisual := hasVisual model;
  fixedBodies := fixedBodies model ++ [mkFixedBody parent placement bodyName visual];
  nq := nq model;
  nv := nv model
|}.

(** Modelled from the spec: [Model::mergeFixedBody] "transports inertia
    through placement and adds it to inertias[parent]".  An index outside the
    model changes nothing. *)
Definition mergeFixedBody (model : Model) (parent : Index) (placement : SE3) (Y : Inertia)
  : Model := {|
  joints := joints model;
  parents := parents model;
  jointPlacements := jointPlacements model;
  inertias := alter (fun Yp => Inertia_add Yp (SE3_act placement Y)) parent (inertias model);
  limits := limits model;
  names := names model;
  bodyNames := bodyNames model;
  hasVisual := hasVisual model;
  fixedBodies := fixedBodies model;
  nq := nq model;
  nv := nv model
|}.

(** The first position of [name] in [l], counted from [i]. *)
Fixpoint find_name (name : string) (l : list string) (i : nat) : option nat :=
  match l with
  | [] => None
  | n :: l' => if String.eqb n name then Some i else find_name name l' (S i)
  end.

(** Modelled from the spec: [Model::existJointName], which "must not throw". *)
Definition existJointName (model : Model) (name : string) : bool :=
  match find_name name (names model) 0 with Some _ => true | None => false end.

(** Modelled from the spec: [Model::getJointId], the name -> index lookup.
    The spec is silent on a name that is absent; the lookup then fails. *)
Definition getJointId (model : Model) (name : string) : result Index :=
  match find_name name (names model) 0 with
  | Some i => Ok i
  | None => Throw (unknown_joint_name name)
  end.

(** ** The tree compiler (urdf.hpp, lines 115-412) *)

(** The limit vectors of a one-degree-of-freedom joint (lines 163-174,
    225-236, 284-295): declared empty ([VectorXd v;] or [VectorXd(0.)]), and
    when [joint->limits] is set, [v.resize(1); v << field]. *)
Definition limit_vector (jl : option JointLimits) (field : JointLimits -> double)
  : VectorXd :=
  match jl with
  | Some l => [field l]
  | None => []
  end.

(** Lines 143-144: the index of the parent joint in the model, read one step
    up through [link->getParent()]. *)
Definition parent_index (model : Model) (up : LinkRef) : result Index :=
  match ref_parent_joint up with
  | None =>
      if existJointName model "root_joint" then getJointId model "root_joint" else Ok 0
  | Some parent_joint_of_parent => getJointId model (joint_name parent_joint_of_parent)
  end.

(** What the [switch] on [joint->type] leaves behind: the model, the
    [nextPlacementOffset] for the children, and, when the FIXED branch has
    run [child_link->setParent(p)] on every child, that [p]. *)
Definition Emitted : Type := (Model * SE3 * option (option LinkRef))%type.

(** Lines 158-364, the [switch] on [joint->type].  [up] is
    [link->getParent()].  The REVOLUTE branch spells the parent index
    [parent_joint_id] and the visual flag [has_visual]; the function declares
    them as [parent] (line 143) and [visual] (line 152), and those are the
    values passed here.  In the CONTINUOUS branch the statement
    [joint_info += ...] sits inside the argument list of [addBody]; it only
    feeds the verbose trace. *)
Definition emitJoint (model : Model) (up : option LinkRef) (link : Link) (joint : Joint)
    (parent : Index) (placementOffset jointPlacement : SE3) (Y : Inertia) (visual : bool)
  : result Emitted :=
  let maxEffort := limit_vector (joint_limits joint) effort in
  let velocity := limit_vector (joint_limits joint) velocity in
  let lowerPosition := limit_vector (joint_limits joint) lower in
  let upperPosition := limit_vector (joint_limits joint) upper in
  let add (j : JointModel) : result Emitted :=
    Ok (addBody model parent j jointPlacement Y
          maxEffort velocity lowerPosition upperPosition
          (joint_name joint) (link_name link) visual,
        SE3_Identity, None) in
  match type joint with
  | REVOLUTE | CONTINUOUS =>
      match extractCartesianAxis (axis joint) with
      | AXIS_X => add JointModelRX
      | AXIS_Y => add JointModelRY
      | AXIS_Z => add JointModelRZ
      | AXIS_UNALIGNED =>
          let jointAxis :=
            normalize (mkVector3d (x (axis joint)) (y (axis joint)) (z (axis joint))) in
          add (JointModelRevoluteUnaligned jointAxis)
      end
  | PRISMATIC =>
      match extractCartesianAxis (axis joint) with
      | AXIS_X => add JointModelPX
      | AXIS_Y => add JointModelPY
      | AXIS_Z => add JointModelPZ
      | AXIS_UNALIGNED => Throw (assertion_failure "Only X, Y or Z axis are accepted.")
      end
  | FIXED =>
      let model1 :=
        match inertial link with
        | Some _ => mergeFixedBody model parent jointPlacement Y
        | None => model
        end in
      let ptjot_se3 := convertFromUrdf_Pose (parent_to_joint_origin_transform joint) in
      let nextPlacementOffset := SE3_mul placementOffset ptjot_se3 in
      let model2 := addFixedBody model1 parent nextPlacementOffset (link_name link) visual in
      Ok (model2, nextPlacementOffset, Some up)
  | UNKNOWN | FLOATING | PLANAR =>
      Throw (assertion_failure "Only revolute, prismatic and fixed joints are accepted.")
  end.

Definition is_FIXED (t : JointType) : bool :=
  match t with FIXED => true | _ => false end.

(** Lines 119-383: everything [parseTree] does for [link] itself, before it
    turns to the children.  [up] is the value of [link->getParent()] when the
    call is made. *)
Definition visitLink (up : option LinkRef) (link : Link) (model : Model)
    (placementOffset : SE3) : result Emitted :=
  match parent_joint link with
  | Some joint =>
      match up with
      | None => Throw (assertion_failure "link->getParent()!=NULL")
      | Some parent_of_link =>
          if negb (bool_decide (is_Some (inertial link))) && negb (is_FIXED (type joint))
          then Throw (invalid_argument
                        (link_name link +:+ " - spatial inertia information missing."))
          else
            let! parent := parent_index model parent_of_link in
            let jointPlacement :=
              SE3_mul placementOffset
                      (convertFromUrdf_Pose (parent_to_joint_origin_transform joint)) in
            let Y := match inertial link with
                     | Some Yu => convertFromUrdf_Inertial Yu
                     | None => Inertia_Identity
                     end in
            let visual := if visual link then true else false in
            emitJoint model up link joint parent placementOffset jointPlacement Y visual
      end
  | None =>
      match up with
      | Some _ =>
          Throw (invalid_argument (link_name link +:+ " - joint information missing."))
      | None => Ok (model, SE3_Identity, None)
      end
  end.

(** The value of [child->getParent()] when the loop of lines 386-389 reaches
    [child]: the pointer stored in the tree, unless lines 352-355 have just
    overwritten it. *)
Definition getParent_of_child (reparented : option (option LinkRef)) (child : Link)
  : option LinkRef :=
  match reparented with
  | Some p => p
  | None => getParent child
  end.

(** [parseTree(link, model, placementOffset, verbose)], lines 115-390, given
    the current value [up] of [link->getParent()]. *)
Fixpoint parseTree_at (up : option LinkRef) (link : Link) (model : Model)
    (placementOffset : SE3) {struct link} : result Model :=
  let! visited := visitLink up link model placementOffset in
  let '(model1, nextPlacementOffset, reparented) := visited in
  (fix children (cs : list Link) (model : Model) {struct cs} : result Model :=
     match cs with
     | [] => Ok model
     | child :: cs' =>
         let! model' := parseTree_at (getParent_of_child reparented child) child
                                     model nextPlacementOffset in
         children cs' model'
     end) (child_links link) model1.

(** The first overload of [parseTree]: the parent pointer is the one the URDF
    tree holds. *)
Definition parseTree (link : Link) (model : Model) (placementOffset : SE3) : result Model :=
  parseTree_at (getParent link) link model placementOffset.

(** The second overload of [parseTree], lines 401-412, with an explicit root
    joint. *)
Definition parseTree_root (link : Link) (model : Model) (placementOffset : SE3)
    (root_joint : JointModel) : result Model :=
  let Y := match inertial link with
           | Some Yu => convertFromUrdf_Inertial Yu
           | None => Inertia_Identity
           end in
  let model1 := addBody_nolimits model 0 root_joint placementOffset Y
                                 "root_joint" (link_name link) true in
  foreach (fun child model => parseTree child model SE3_Identity) (child_links link) model1.

(** [buildModel(filename, root_joint)], lines 422-437.  [urdfTree] is what
    [urdf::parseURDFFile(filename)] returned: the root link of the parsed
    model, or nothing. *)
Definition buildModel_root (urdfTree : option Link) (filename : string)
    (root_joint : JointModel) : result Model :=
  match urdfTree with
  | Some root => parseTree_root root Model_init SE3_Identity root_joint
  | None =>
      Throw (invalid_argument
               ("The file " +:+ filename +:+ " does not contain a valid URDF model."))
  end.

(** [buildModel(filename)], lines 446-460. *)
Definition buildModel (urdfTree : option Link) (filename : string) : result Model :=
  match urdfTree with
  | Some root => parseTree root Model_init SE3_Identity
  | None =>
      Throw (invalid_argument
               ("The file " +:+ filename +:+ " does not contain a valid URDF model."))
  end.

(** ** The parent resolution as the specification words it

    "Resolve the effective parent joint index p in the model: walk up the
    URDF tree past collapsed fixed joints.  [...] A correct implementation
    walks the URDF tree upward until a non-fixed joint is found", and the
    rewrite "leaves the input immutable".  [ancestors] is the chain of URDF
    ancestors of the link, nearest first, as the input file gives it. *)

(** A tree as [urdf::parseURDFFile] builds it: every child points back to the
    link that lists it. *)
Fixpoint well_formed (up : option LinkRef) (link : Link) {struct link} : Prop :=
  getParent link = up /\
  (fix all (cs : list Link) : Prop :=
     match cs with
     | [] => True
     | c :: cs' => well_formed (Some (ref_of link)) c /\ all cs'
     end) (child_links link).

Definition hung_by_fixed (link : Link) : bool :=
  match parent_joint link with
  | Some j => is_FIXED (type j)
  | None => false
  end.

(** The nearest ancestor that a fixed joint does not collapse: the root, or a
    link hung by a joint that is not fixed. *)
Fixpoint nearest_non_fixed (ancestors : list Link) : option Link :=
  match ancestors with
  | [] => None
  | a :: up => if hung_by_fixed a then nearest_non_fixed up else Some a
  end.

(** The effective parent index p: "if [the ancestor's] parent joint is null, p
    is the explicit root joint if one exists, else 0; otherwise p is the model
    index of the name of [its] parent joint". *)
Definition effective_parent (model : Model) (ancestors : list Link) : result Index :=
  match nearest_non_fixed ancestors with
  | Some a =>
      match parent_joint a with
      | None =>
          if existJointName model "root_joint" then getJointId model "root_joint" else Ok 0
      | Some j => getJointId model (joint_name j)
      end
  | None => Throw (assertion_failure "link->getParent()!=NULL")
  end.

Definition visitLink_walk (ancestors : list Link) (link : Link) (model : Model)
    (placementOffset : SE3) : result (Model * SE3) :=
  match parent_joint link, ancestors with
  | Some joint, [] => Throw (assertion_failure "link->getParent()!=NULL")
  | Some joint, _ :: _ =>
      if negb (bool_decide (is_Some (inertial link))) && negb (is_FIXED (type joint))
      then Throw (invalid_argument
                    (link_name link +:+ " - spatial inertia information missing."))
      else
        let! p := effective_parent model ancestors in
        let jointPlacement :=
          SE3_mul placementOffset
                  (convertFromUrdf_Pose (parent_to_joint_origin_transform joint)) in
        let Y := match inertial link with
                 | Some Yu => convertFromUrdf_Inertial Yu
                 | None => Inertia_Identity
                 end in
        let! emitted :=
          emitJoint model None link joint p placementOffset jointPlacement Y
                    (if visual link then true else false) in
        Ok (emitted.1.1, emitted.1.2)
  | None, _ :: _ =>
      Throw (invalid_argument (link_name link +:+ " - joint information missing."))
  | None, [] => Ok (model, SE3_Identity)
  end.

Fixpoint parseTree_walk (ancestors : list Link) (link : Link) (model : Model)
    (placementOffset : SE3) {struct link} : result Model :=
  let! visited := visitLink_walk ancestors link model placementOffset in
  (fix children (cs : list Link) (model : Model) {struct cs} : result Model :=
     match cs with
     | [] => Ok model
     | child :: cs' =>
         let! model' := parseTree_walk (link :: ancestors) child model visited.2 in
         children cs' model'
     end) (child_links link) visited.1.

Definition parseTree_root_walk (link : Link) (model : Model) (placementOffset : SE3)
    (root_joint : JointModel) : result Model :=
  let Y := match inertial link with
           | Some Yu => convertFromUrdf_Inertial Yu
           | None => Inertia_Identity
           end in
  let model1 := addBody_nolimits model 0 root_joint placementOffset Y
                                 "root_joint" (link_name link) true in
  foreach (fun child model => parseTree_walk [link] child model SE3_Identity)
          (child_links link) model1.

(** ** The parent index carried down the recursion

    The design note of the specification: "a correct rewrite carries the
    current non-fixed ancestor as an additional recursion parameter and
    leaves the input immutable".  [p] is the model index of the joint that
    hangs the nearest ancestor no fixed joint collapses; for a link right
    under the root, or under a chain of fixed joints that starts at the root,
    it is the index of the explicit root joint, or 0 without one.  [is_root]
    tells the first call from the calls on descendants. *)

Definition visitLink_carry (is_root : bool) (p : Index) (link : Link) (model : Model)
    (placementOffset : SE3) : result (Model * SE3 * Index) :=
  match parent_joint link with
  | Some joint =>
      if is_root then Throw (assertion_failure "link->getParent()!=NULL")
      else if negb (bool_decide (is_Some (inertial link))) && negb (is_FIXED (type joint))
      then Throw (invalid_argument
                    (link_name link +:+ " - spatial inertia information missing."))
      else
        let jointPlacement :=
          SE3_mul placementOffset
                  (convertFromUrdf_Pose (parent_to_joint_origin_transform joint)) in
        let Y := match inertial link with
                 | Some Yu => convertFromUrdf_Inertial Yu
                 | None => Inertia_Identity
                 end in
        let! emitted :=
          emitJoint model None link joint p placementOffset jointPlacement Y
                    (if visual link then true else false) in
        (* a fixed joint is collapsed: the children keep [p]; any other joint
           has just received the next index of the model *)
        Ok (emitted.1.1, emitted.1.2, if is_FIXED (type joint) then p else njoints model)
  | None =>
      if is_root then Ok (model, SE3_Identity, p)
      else Throw (invalid_argument (link_name link +:+ " - joint information missing."))
  end.

Fixpoint parseTree_carry (is_root : bool) (p : Index) (link : Link) (model : Model)
    (placementOffset : SE3) {struct link} : result Model :=
  let! visited := visitLink_carry is_root p link model placementOffset in
  (fix children (cs : list Link) (model : Model) {struct cs} : result Model :=
     match cs with
     | [] => Ok model
     | child :: cs' =>
         let! model' := parseTree_carry false visited.2 child model visited.1.2 in
         children cs' model'
     end) (child_links link) visited.1.1.

Definition parseTree_root_carry (link : Link) (model : Model) (placementOffset : SE3)
    (root_joint : JointModel) : result Model :=
  let Y := match inertial link with
           | Some Yu => convertFromUrdf_Inertial Yu
           | None => Inertia_Identity
           end in
  let model1 := addBody_nolimits model 0 root_joint placementOffset Y
                                 "root_joint" (link_name link) true in
  (* the root joint has just received the next index, [njoints model] *)
  foreach (fun child model1 => parseTree_carry false (njoints model) child model1 SE3_Identity)
          (child_links link) model1.

(** The root of a URDF: no parent joint, no parent, and a tree below it. *)
Definition urdf_tree (root : Link) : Prop :=
  parent_joint root = None /\ well_formed None root.

(** The names [addBody] receives while [link] and the links below it are
    compiled: those of the joints that are not fixed, in traversal order. *)
Definition emitted_name (link : Link) : list string :=
  match parent_joint link with
  | Some j => if is_FIXED (type j) then [] else [joint_name j]
  | None => []
  end.

Fixpoint emitted_names (link : Link) : list string :=
  app (emitted_name link)
      ((fix go (cs : list Link) : list string :=
          match cs with
          | [] => []
          | c :: cs' => app (emitted_names c) (go cs')
          end) (child_links link)).

(** ** Quantities the statements are about *)

(** The links below [link], in the order [parseTree] reaches them. *)
Fixpoint descendants (link : Link) : list Link :=
  (fix go (cs : list Link) : list Link :=
     match cs with
     | [] => []
     | c :: cs' => c :: descendants c ++ go cs'
     end) (child_links link).

Definition inertial_mass_of (link : Link) : double :=
  match inertial link with
  | Some Yu => inertial_mass Yu
  | None => d0
  end.

Definition sum (l : list double) : double := foldr dadd d0 l.

(** The total mass a Model carries. *)
Definition total_mass (model : Model) : double := sum (mass <$> inertias model).

(** Every per-joint list of the Model has one entry per joint, the universe
    included. *)
Definition consistent (model : Model) : Prop :=
  0 < length (names model) /\
  length (parents model) = length (names model) /\
  length (inertias model) = length (names model) /\
  length (joints model) = length (names model).

(** I1: [parents[i] < i] for every joint but the universe. *)
Definition parents_before_children (model : Model) : Prop :=
  forall i p, 1 <= i -> parents model !! i = Some p -> p < i.

Definition missing_inertia (link_name : string) : exception :=
  invalid_argument (link_name +:+ " - spatial inertia information missing.").

Definition missing_joint (link_name : string) : exception :=
  invalid_argument (link_name +:+ " - joint information missing.").

Definition unaligned_prismatic : exception :=
  assertion_failure "Only X, Y or Z axis are accepted.".

Definition lacks_inertia (link : Link) : Prop :=
  inertial link = None /\
  exists joint, parent_joint link = Some joint /\ type joint <> FIXED.

(** ** Predicates of the proofs *)

(** The invariant of the builder: the lists are aligned and every parent is an
    older joint. *)
Definition builder_invariant (model : Model) : Prop :=
  consistent model /\ parents_before_children model.

(** [up] points to a link whose joint sits at index [p] of [model]. *)
Definition resolves (model : Model) (up : option LinkRef) (p : Index) : Prop :=
  exists P, up = Some P /\ parent_index model P = Ok p.

(** What the agreement of the two traversals means at one link. *)
Definition carry_agrees_at (link : Link) : Prop :=
  forall up0 up p model off,
    well_formed up0 link -> consistent model -> resolves model up p ->
    NoDup (names model ++ emitted_names link) -> "root_joint" ∉ emitted_names link ->
    parseTree_at up link model off = parseTree_carry false p link model off /\
    forall model', parseTree_at up link model off = Ok model' ->
                   names model' = names model ++ emitted_names link /\ consistent model'.

(** [up] is the pointer the code holds for a link whose URDF ancestors are
    [ancestors]: it points to the nearest of them that no fixed joint
    collapses. *)
Definition points_to_nearest (up : option LinkRef) (ancestors : list Link) : Prop :=
  up = ref_of <$> nearest_non_fixed ancestors /\ (ancestors <> [] -> is_Some up).

(** What the agreement of the code with the walk up the tree means at one
    link. *)
Definition walk_agrees_at (link : Link) : Prop :=
  forall up0 up ancestors model off,
    well_formed up0 link -> points_to_nearest up ancestors ->
    parseTree_at up link model off = parseTree_walk ancestors link model off.


(** A link whose visit cannot succeed. *)
Definition doomed (link : Link) : Prop :=
  forall up model off, fails (visitLink up link model off).

(** A link hung by a prismatic joint whose axis is none of x, y, z. *)
Definition hung_by_unaligned_prismatic (link : Link) : Prop :=
  exists joint, parent_joint link = Some joint /\ type joint = PRISMATIC /\
                extractCartesianAxis (axis joint) = AXIS_UNALIGNED.

(** [v == (a, b, c)], component by component. *)
Definition axis_equals (v : Vector3) (a b c : double) : bool :=
  deqb (x v) a && deqb (y v) b && deqb (z v) c.

(** The four limit vectors [addBody] stores for a joint. *)
Definition stored_limits (joint : Joint) : Limits :=
  match joint_limits joint with
  | Some l => mkLimits [effort l] [velocity l] [lower l] [upper l]
  | None => mkLimits [] [] [] []
  end.

(** ** What a compilation leaves in the Model, link by link *)

(** A link hung by a joint that goes to [addBody]: any joint but a fixed
    one. *)
Definition hung_by_moving (link : Link) : bool :=
  match parent_joint link with
  | Some j => negb (is_FIXED (type j))
  | None => false
  end.

(** The arguments of [addBody] that depend on the link alone: the joint name,
    the body name, the visual flag, the limit vectors and the inertia [Y] of
    lines 149-150. *)
Record Row : Type := mkRow {
  row_joint : string;
  row_body : string;
  row_visual : bool;
  row_limits : Limits;
  row_inertia : Inertia
}.

Definition emitted_row (link : Link) : list Row :=
  match parent_joint link with
  | Some j =>
      if is_FIXED (type j) then []
      else [mkRow (joint_name j) (link_name link) (visual link) (stored_limits j)
                  match inertial link with
                  | Some Yu => convertFromUrdf_Inertial Yu
                  | None => Inertia_Identity
                  end]
  | None => []
  end.

(** The name and the visual flag [addFixedBody] receives for a link hung by a
    fixed joint. *)
Definition collapsed_body (link : Link) : list (string * bool) :=
  if hung_by_fixed link then [(link_name link, visual link)] else [].

(** ** The outcome of a visit, by link *)

Definition unsupported_joint : exception :=
  assertion_failure "Only revolute, prismatic and fixed joints are accepted.".

Definition invalid_file (filename : string) : exception :=
  invalid_argument ("The file " +:+ filename +:+ " does not contain a valid URDF model.").

(** The failure lines 129-141, 158-364 and 379-383 hold for a link that has a
    parent: no parent joint, no inertial block under a joint that is not
    fixed, a prismatic joint off the axes, a joint type the [switch] does not
    know.  It is read off the link alone. *)
Definition visit_error (link : Link) : option exception :=
  match parent_joint link with
  | None => Some (missing_joint (link_name link))
  | Some joint =>
      if negb (bool_decide (is_Some (inertial link))) && negb (is_FIXED (type joint))
      then Some (missing_inertia (link_name link))
      else
        match type joint with
        | REVOLUTE | CONTINUOUS | FIXED => None
        | PRISMATIC =>
            match extractCartesianAxis (axis joint) with
            | AXIS_UNALIGNED => Some unaligned_prismatic
            | _ => None
            end
        | UNKNOWN | FLOATING | PLANAR => Some unsupported_joint
        end
  end.

(** The failure of the first link of [ls] that has one. *)
Fixpoint first_error (ls : list Link) : option exception :=
  match ls with
  | [] => None
  | l :: ls' =>
      match visit_error l with
      | Some e => Some e
      | None => first_error ls'
      end
  end.

(** The lookup of lines 143-144 through [up] finds its name in [model]. *)
Definition known (model : Model) (up : LinkRef) : Prop :=
  forall j, ref_parent_joint up = Some j -> joint_name j ∈ names model.

(** [model'] holds all that [model] held, where [model] held it: the lists
    have grown at their end only.  The inertias are left out: the entry of a
    parent is rewritten by [mergeFixedBody]; their number does not drop. *)
Definition grown_from (model model' : Model) : Prop :=
  joints model `prefix_of` joints model' /\
  parents model `prefix_of` parents model' /\
  jointPlacements model `prefix_of` jointPlacements model' /\
  limits model `prefix_of` limits model' /\
  names model `prefix_of` names model' /\
  bodyNames model `prefix_of` bodyNames model' /\
  hasVisual model `prefix_of` hasVisual model' /\
  fixedBodies model `prefix_of` fixedBodies model' /\
  length (inertias model) <= length (inertias model') /\
  nq model <= nq model' /\ nv model <= nv model'.

(** The mass the body of a joint is to carry: that of its link and of the
    links welded to it by fixed joints, directly or through other welded
    links. *)
Fixpoint rigid_mass (link : Link) : double :=
  dadd (inertial_mass_of link)
       ((fix welded (cs : list Link) : double :=
           match cs with
           | [] => d0
           | c :: cs' => dadd (if hung_by_fixed c then rigid_mass c else d0) (welded cs')
           end) (child_links link)).

(** The mass welded to a link by those of its children [cs] that fixed
    joints hang. *)
Definition welded_mass (cs : list Link) : double :=
  sum ((fun c => if hung_by_fixed c then rigid_mass c else d0) <$> cs).

(** The masses of the bodies of the joints that [link] and the links below it
    receive, in the order of the traversal. *)
Fixpoint joint_masses (link : Link) : list double :=
  app (if hung_by_moving link then [rigid_mass link] else [])
      ((fix go (cs : list Link) : list double :=
          match cs with
          | [] => []
          | c :: cs' => app (joint_masses c) (go cs')
          end) (child_links link)).

(** ** Placements, by the chain of ancestors *)

(** The offset the children of the head of [chain] are placed from: [chain]
    is a link followed by its ancestors, nearest first.  Below a link hung by
    a fixed joint it is the offset of that link followed by the origin of the
    fixed joint; below any other link it is the identity. *)
Fixpoint offset_below (chain : list Link) : SE3 :=
  match chain with
  | [] => SE3_Identity
  | a :: up =>
      match parent_joint a with
      | Some j =>
          if is_FIXED (type j)
          then SE3_mul (offset_below up)
                       (convertFromUrdf_Pose (parent_to_joint_origin_transform j))
          else SE3_Identity
      | None => SE3_Identity
      end
  end.

(** Where a link with a parent joint is placed, under the joint of its
    nearest ancestor that no fixed joint hangs. *)
Definition placed_at (ancestors : list Link) (link : Link) : list SE3 :=
  match parent_joint link with
  | Some j => [SE3_mul (offset_below ancestors)
                       (convertFromUrdf_Pose (parent_to_joint_origin_transform j))]
  | None => []
  end.

(** The placements of the links selected by [sel] among [link] and the links
    below it, in the order of the traversal. *)
Fixpoint placements (sel : Link -> bool) (ancestors : list Link) (link : Link) : list SE3 :=
  app (if sel link then placed_at ancestors link else [])
      ((fix go (cs : list Link) : list SE3 :=
          match cs with
          | [] => []
          | c :: cs' => app (placements sel (link :: ancestors) c) (go cs')
          end) (child_links link)).

(** [model_r] has the tree of [model] one index further: a joint, the
    explicit root joint, sits between the universe and all the others. *)
Definition shifted_by_root (model model_r : Model) : Prop :=
  (exists t, parents model = 0 :: t /\ parents model_r = 0 :: 0 :: (S <$> t)) /\
  njoints model_r = S (njoints model) /\
  fix_parent <$> fixedBodies model_r = S <$> (fix_parent <$> fixedBodies model).

(** What the shift means for the traversal of one link. *)
Definition shift_at (link : Link) : Prop :=
  forall p model model_r off model',
    shifted_by_root model model_r ->
    parseTree_carry false p link model off = Ok model' ->
    exists model_r',
      parseTree_carry false (S p) link model_r off = Ok model_r' /\
      shifted_by_root model' model_r'.

(** ** The tree a traversal leaves behind *)



(** ** The inertia of the body of a joint *)

(** What [mergeFixedBody(parent, placement, Y)] makes of the inertia stored
    for [parent]. *)
Definition merge_welded (Yp : Inertia) (w : SE3 * Inertia) : Inertia :=
  Inertia_add Yp (SE3_act w.1 w.2).

(** The merge a link hung by a fixed joint brings about by itself: its
    inertial block, when it has one, at the place of the link. *)
Definition own_weld (ancestors : list Link) (link : Link) : list (SE3 * Inertia) :=
  match parent_joint link, inertial link with
  | Some j, Some Yu =>
      [(SE3_mul (offset_below ancestors)
                (convertFromUrdf_Pose (parent_to_joint_origin_transform j)),
        convertFromUrdf_Inertial Yu)]
  | _, _ => []
  end.

(** The merges that [link] and the links welded to it bring about, in the
    order of the traversal; none when [link] is not hung by a fixed joint. *)
Fixpoint welds (ancestors : list Link) (link : Link) : list (SE3 * Inertia) :=
  if hung_by_fixed link
  then app (own_weld ancestors link)
           ((fix go (cs : list Link) : list (SE3 * Inertia) :=
               match cs with
               | [] => []
               | c :: cs' => app (welds (link :: ancestors) c) (go cs')
               end) (child_links link))
  else [].

(** The merges that the children [cs] of the head of [chain] bring about. *)
Definition welds_below (chain : list Link) (cs : list Link) : list (SE3 * Inertia) :=
  concat (welds chain <$> cs).

(** The inertias of the bodies of the joints that [link] and the links below
    it receive, in the order of the traversal: the inertia of the link with
    the welded ones merged into it, one after the other. *)
Fixpoint joint_inertias (ancestors : list Link) (link : Link) : list Inertia :=
  app (if hung_by_moving link
       then [foldl merge_welded
                   match inertial link with
                   | Some Yu => convertFromUrdf_Inertial Yu
                   | None => Inertia_Identity
                   end
                   (welds_below (link :: ancestors) (child_links link))]
       else [])
      ((fix go (cs : list Link) : list Inertia :=
          match cs with
          | [] => []
          | c :: cs' => app (joint_inertias (link :: ancestors) c) (go cs')
          end) (child_links link)).

(** What the accounting of the inertias means at one link. *)
Definition inertias_accounted_at (link : Link) : Prop :=
  forall ancestors p model model',
    parseTree_carry false p link model (offset_below ancestors) = Ok model' ->
    length (inertias model) = njoints model -> p < njoints model ->
    length (inertias model') = njoints model' /\
    inertias model' =
      (if hung_by_fixed link
       then alter (fun Yp => foldl merge_welded Yp (welds ancestors link)) p (inertias model)
       else inertias model) ++ joint_inertias ancestors link.

(** ** The parent of a joint, by name *)

(** The name of the joint of the nearest ancestor that no fixed joint hangs;
    [top] stands for the joint above the root link: the universe, or the
    explicit root joint. *)
Definition parent_name (top : string) (ancestors : list Link) : string :=
  match nearest_non_fixed ancestors with
  | Some a =>
      match parent_joint a with
      | Some j => joint_name j
      | None => top
      end
  | None => top
  end.

(** The names of the parents of the links selected by [sel] among [link] and
    the links below it, in the order of the traversal. *)
Fixpoint parent_names (sel : Link -> bool) (top : string) (ancestors : list Link)
    (link : Link) : list string :=
  app (if sel link then [parent_name top ancestors] else [])
      ((fix go (cs : list Link) : list string :=
          match cs with
          | [] => []
          | c :: cs' => app (parent_names sel top (link :: ancestors) c) (go cs')
          end) (child_links link)).

(** The joint above the root link is where the lookup of lines 143-144 finds
    it: the universe at index 0 of a model without joint called root_joint,
    or the explicit root joint at index 1. *)
Definition top_joint (top : string) (model : Model) : Prop :=
  (top = "universe" /\ names model !! 0 = Some "universe" /\ "root_joint" ∉ names model) \/
  (top = "root_joint" /\ exists rest, names model = "universe" :: "root_joint" :: rest).

(** The indices [ps] are those of joints of [model] called [ns]. *)
Definition named (model : Model) (ps : list nat) (ns : list string) : Prop :=
  Forall2 (fun p n => names model !! p = Some n) ps ns.

(** What the naming of the parents means at one link. *)
Definition parents_named_at (top : string) (link : Link) : Prop :=
  forall ancestors model off model',
    parseTree_walk ancestors link model off = Ok model' ->
    top_joint top model -> (top = "universe" -> "root_joint" ∉ emitted_names link) ->
    top_joint top model' /\
    names model' = names model ++ emitted_names link /\
    exists ps fs,
      parents model' = parents model ++ ps /\
      fix_parent <$> fixedBodies model' = (fix_parent <$> fixedBodies model) ++ fs /\
      named model' ps (parent_names hung_by_moving top ancestors link) /\
      named model' fs (parent_names hung_by_fixed top ancestors link).

(** What the outcome of the traversal means at one link. *)
Definition outcome_at (link : Link) : Prop :=
  forall up0 up model off,
    well_formed up0 link -> known model up ->
    match first_error (link :: descendants link) with
    | Some e => parseTree_at (Some up) link model off = Throw e
    | None => exists model', parseTree_at (Some up) link model off = Ok model'
    end.

End Parser.

(** ** The Jacobian bindings (expose-jacobian.cpp, lines 13-53) *)

Section Jacobian.
Context {Sc : Scalar}.


Inductive ReferenceFrame : Type := WORLD | LOCAL.

(** [Data::Matrix6x]: six rows, a column per degree of freedom. *)
Definition Matrix6x : Type := list (list double).

(** [Data::Matrix6x J(6, cols); J.setZero();] *)
Definition Matrix6x_Zero (cols : nat) : Matrix6x := replicate 6 (replicate cols d0).

(** The algorithms of algorithm/jacobian.hpp are not part of the sources and
    stay parameters: each one may fail on a broken precondition, may write to
    [data], and [getJointJacobian] fills the matrix it is handed. *)
Variable Data : Type.
Variable computeJointJacobians : Model -> Data -> VectorXd -> result Data.
Variable getJointJacobian :
  Model -> Data -> JointIndex -> ReferenceFrame -> Matrix6x -> result (Data * Matrix6x).

(** Lines 13-29.  The result is the returned matrix, with [data] as the call
    leaves it. *)
Definition jacobian_proxy (model : Model) (data : Data) (q : VectorXd)
    (jointId : JointIndex) (rf : ReferenceFrame) (update_kinematics : bool)
  : result (Data * Matrix6x) :=
  let J := Matrix6x_Zero (nv model) in
  let! data1 := if update_kinematics then computeJointJacobians model data q else Ok data in
  getJointJacobian model data1 jointId rf J.

(** Lines 31-41. *)
Definition get_jacobian_proxy (model : Model) (data : Data) (jointId : JointIndex)
    (rf : ReferenceFrame) : result (Data * Matrix6x) :=
  let J := Matrix6x_Zero (nv model) in
  getJointJacobian model data jointId rf J.

(** [getJointJacobianTimeVariation] of algorithm/jacobian.hpp, a parameter
    like the other two. *)
Variable getJointJacobianTimeVariation :
  Model -> Data -> JointIndex -> ReferenceFrame -> Matrix6x -> result (Data * Matrix6x).

(** Lines 43-53. *)
Definition get_jacobian_time_variation_proxy (model : Model) (data : Data)
    (jointId : JointIndex) (rf : ReferenceFrame) : result (Data * Matrix6x) :=
  let dJ := Matrix6x_Zero (nv model) in
  getJointJacobianTimeVariation model data jointId rf dJ.

End Jacobian.

(** ** Sample URDF trees *)

Section Samples.
Context {Sc : Scalar}.

Definition d3 : double := dadd d1 d2.

Definition origin_pose : Pose := mkPose (mkVector3 d0 d0 d0) (mkRotation d0 d0 d0 d1).

(** One unit along x, no rotation. *)
Definition shift_x : Pose := mkPose (mkVector3 d1 d0 d0) (mkRotation d0 d0 d0 d1).

Definition inertial_of_mass (m : double) : Inertial :=
  mkInertial origin_pose m d1 d0 d0 d1 d0 d1.

Definition some_limits : JointLimits := mkJointLimits d0 d1 d2 d3.

Definition joint_jf : Joint := mkJoint "jf" FIXED (mkVector3 d0 d0 d0) shift_x None.
Definition joint_jg : Joint := mkJoint "jg" FIXED (mkVector3 d0 d0 d0) shift_x None.
Definition joint_j1 : Joint :=
  mkJoint "j1" REVOLUTE (mkVector3 d0 d0 d1) origin_pose (Some some_limits).

(** base --jf (fixed)--> mid --jg (fixed)--> mid2 --j1 (revolute z)--> l1 *)
Definition chain_l1 : Link :=
  mkLink "l1" (Some (inertial_of_mass d1)) false (Some joint_j1)
         (Some (mkLinkRef "mid2" (Some joint_jg))) [].
Definition chain_mid2 : Link :=
  mkLink "mid2" (Some (inertial_of_mass d2)) true (Some joint_jg)
         (Some (mkLinkRef "mid" (Some joint_jf))) [chain_l1].
Definition chain_mid : Link :=
  mkLink "mid" None true (Some joint_jf) (Some (mkLinkRef "base" None)) [chain_mid2].
Definition chain : Link := mkLink "base" None false None None [chain_mid].

(** base --root_joint (revolute z)--> a, base --j2 (revolute y)--> b: a URDF
    that calls one of its own joints root_joint. *)
Definition arms_a : Link :=
  mkLink "a" (Some (inertial_of_mass d1)) false
         (Some (mkJoint "root_joint" REVOLUTE (mkVector3 d0 d0 d1) origin_pose None))
         (Some (mkLinkRef "base" None)) [].
Definition arms_b : Link :=
  mkLink "b" (Some (inertial_of_mass d1)) false
         (Some (mkJoint "j2" REVOLUTE (mkVector3 d0 d1 d0) origin_pose None))
         (Some (mkLinkRef "base" None)) [].
Definition arms : Link := mkLink "base" None false None None [arms_a; arms_b].

(** A root link with an inertial block of mass 2, and nothing else. *)
Definition lone_base : Link :=
  mkLink "base" (Some (inertial_of_mass d2)) false None None [].

(** base (mass 2) --jf (fixed)--> mid (mass 1 + 2) *)
Definition welded_mid : Link :=
  mkLink "mid" (Some (inertial_of_mass d3)) true (Some joint_jf)
         (Some (mkLinkRef "base" None)) [].
Definition welded : Link :=
  mkLink "base" (Some (inertial_of_mass d2)) false None None [welded_mid].

(** base --> stray (no parent joint), base --j1 (revolute z)--> bare (no
    inertial block) *)
Definition stray : Link :=
  mkLink "stray" (Some (inertial_of_mass d1)) false None (Some (mkLinkRef "base" None)) [].
Definition bare : Link :=
  mkLink "bare" None false (Some joint_j1) (Some (mkLinkRef "base" None)) [].
Definition stray_first : Link := mkLink "base" None false None None [stray; bare].

(** base --jfloat (floating)--> floater, base --j1 (revolute z)--> bare *)
Definition floater : Link :=
  mkLink "floater" (Some (inertial_of_mass d1)) false
         (Some (mkJoint "jfloat" FLOATING (mkVector3 d0 d0 d0) origin_pose None))
         (Some (mkLinkRef "base" None)) [].
Definition floating_first : Link := mkLink "base" None false None None [floater; bare].

(** A prismatic joint about (1, 1, 0); its child link with and without an
    inertial block. *)
Definition joint_js : Joint :=
  mkJoint "js" PRISMATIC (mkVector3 d1 d1 d0) origin_pose (Some some_limits).
Definition heavy_slider : Link :=
  mkLink "slider" (Some (inertial_of_mass d1)) false (Some joint_js)
         (Some (mkLinkRef "base" None)) [].
Definition heavy_sliding : Link := mkLink "base" None false None None [heavy_slider].

Definition bare_tree : Link := mkLink "base" None false None None [bare].

(** A revolute joint about (1, 1, 0). *)
Definition joint_jr : Joint :=
  mkJoint "jr" REVOLUTE (mkVector3 d1 d1 d0) origin_pose None.
Definition swivel : Link :=
  mkLink "swivel" (Some (inertial_of_mass d1)) false (Some joint_jr)
         (Some (mkLinkRef "base" None)) [].

End Samples.

(** ** Masses over the reals *)

Section ExactQuantities.
#[local] Existing Instance R_Scalar.
Open Scope R_scope.

(** The mass the URDF gives to a link and to the links below it. *)
Definition subtree_mass (link : Link) : R :=
  inertial_mass_of link + sum (inertial_mass_of <$> descendants link).

(** What the accounting of the masses means at one link. *)
Definition mass_accounted_at (link : Link) : Prop :=
  forall up0 up model off model',
    well_formed up0 link -> is_Some up -> builder_invariant model ->
    parseTree_at up link model off = Ok model' ->
    total_mass model' = total_mass model + subtree_mass link.

(** What the accounting of the masses, joint by joint, means at one link:
    a link hung by a fixed joint adds its rigid mass to the body of the joint
    of index [p], any other link opens a body of its own. *)
Definition bodies_accounted_at (link : Link) : Prop :=
  forall p model off model',
    parseTree_carry false p link model off = Ok model' ->
    length (inertias model) = njoints model -> (p < njoints model)%nat ->
    length (inertias model') = njoints model' /\
    mass <$> inertias model' =
      (if hung_by_fixed link
       then alter (fun m => m + rigid_mass link) p (mass <$> inertias model)
       else mass <$> inertias model) ++ joint_masses link.

End ExactQuantities.

(** ** Binary64 values *)

(** The two zeros of binary64, which [==] does not tell apart. *)
Definition is_zero (f : float) : Prop := f = 0%float \/ f = (-0)%float.

(** * Properties *)

(** ** The error monad and the loops *)

Lemma bind_Ok_inv {A B : Type} (c : result A) (k : A -> result B) (b : B) :
  bind c k = Ok b -> exists a, c = Ok a /\ k a = Ok b.
Proof. destruct c as [a|e]; simpl; [eauto | discriminate]. Qed.

Lemma bind_Throw_inv {A B : Type} (c : result A) (k : A -> result B) (e : exception) :
  bind c k = Throw e -> c = Throw e \/ exists a, c = Ok a /\ k a = Throw e.
Proof. destruct c as [a|e']; simpl; [eauto | intros [= ->]; auto]. Qed.

Lemma foreach_ext {A St : Type} (f g : A -> St -> result St) (xs : list A) (st : St) :
  Forall (fun a => forall st, f a st = g a st) xs -> foreach f xs st = foreach g xs st.
Proof.
  intros H. revert st. induction H as [|a xs Ha _ IH]; intros st; simpl; [reflexivity|].
  rewrite Ha. destruct (g a st); simpl; auto.
Qed.

(** A property that every turn of the loop carries over holds when the loop
    is through. *)
Lemma foreach_preserves {A St : Type} (Inv : St -> Prop) (body : A -> St -> result St)
    (xs : list A) :
  Forall (fun a => forall st st', Inv st -> body a st = Ok st' -> Inv st') xs ->
  forall st st', Inv st -> foreach body xs st = Ok st' -> Inv st'.
Proof.
  induction 1 as [|a xs Ha _ IH]; intros st st' Hst; simpl.
  - intros [= <-]. exact Hst.
  - intros Hrun. apply bind_Ok_inv in Hrun as (st1 & H1 & H2). eauto.
Qed.

(** ** Messages *)

Lemma list_ascii_of_append (a b : string) :
  list_ascii_of_string (a +:+ b) = list_ascii_of_string a ++ list_ascii_of_string b.
Proof. induction a as [|c a IH]; simpl; [reflexivity | rewrite IH; reflexivity]. Qed.

Lemma list_ascii_of_string_inj (a b : string) :
  list_ascii_of_string a = list_ascii_of_string b -> a = b.
Proof.
  intros H. rewrite <- (string_of_list_ascii_of_string a), H.
  apply string_of_list_ascii_of_string.
Qed.

(** The name in front of a message is determined by the message. *)
Lemma append_inj_suffix (a b s : string) : a +:+ s = b +:+ s -> a = b.
Proof.
  intros H. apply list_ascii_of_string_inj.
  apply (f_equal list_ascii_of_string) in H. rewrite !list_ascii_of_append in H.
  exact (app_inv_tail _ _ _ H).
Qed.

(** Two messages whose last [n] characters differ are different. *)
Lemma append_neq_suffix (n : nat) (a b s t : string) :
  n <= length (list_ascii_of_string s) -> n <= length (list_ascii_of_string t) ->
  take n (reverse (list_ascii_of_string s)) <> take n (reverse (list_ascii_of_string t)) ->
  a +:+ s <> b +:+ t.
Proof.
  intros Hs Ht Hne H. apply Hne.
  apply (f_equal (fun m => take n (reverse (list_ascii_of_string m)))) in H.
  rewrite !list_ascii_of_append, !reverse_app in H.
  rewrite !take_app_le in H by (rewrite length_reverse; assumption).
  exact H.
Qed.

Lemma missing_inertia_inj (a b : string) : missing_inertia a = missing_inertia b -> a = b.
Proof. intros [= H]. exact (append_inj_suffix _ _ _ H). Qed.

Lemma missing_joint_not_missing_inertia (a b : string) : missing_joint a <> missing_inertia b.
Proof.
  intros [= H]. revert H. apply (append_neq_suffix 22); simpl; [lia | lia | discriminate].
Qed.

Lemma invalid_file_not_missing_inertia (filename b : string) :
  invalid_argument ("The file " +:+ filename +:+ " does not contain a valid URDF model.")
  <> missing_inertia b.
Proof.
  intros [= H]. revert H.
  apply (append_neq_suffix 2 ("The file " +:+ filename) b
           " does not contain a valid URDF model."); simpl; [lia | lia | discriminate].
Qed.


Section ParserFacts.
Context {Sc : Scalar}.

(** ** Induction on URDF trees *)

Lemma Link_ind (P : Link -> Prop) :
  (forall name inertial visual parent_joint parent_link child_links,
      Forall P child_links ->
      P (mkLink name inertial visual parent_joint parent_link child_links)) ->
  forall link, P link.
Proof.
  intros step.
  fix IH 1.
  intros [name inertial visual parent_joint parent_link children].
  apply step.
  induction children as [|c cs IHcs]; constructor; [apply IH | exact IHcs].
Qed.

(** [parseTree_at] is the visit of the link followed by the loop over its
    children. *)
Lemma parseTree_at_unfold (up : option LinkRef) (link : Link) (model : Model) (off : SE3) :
  parseTree_at up link model off =
  let! visited := visitLink up link model off in
  foreach (fun child model =>
             parseTree_at (getParent_of_child visited.2 child) child model visited.1.2)
          (child_links link) visited.1.1.
Proof.
  destruct link as [name inertial visual pj pl children]; simpl.
  destruct (visitLink up _ model off) as [[[model1 next] rep]|e]; simpl; [|reflexivity].
  revert model1. induction children as [|c cs IH]; intros model1; simpl; [reflexivity|].
  destruct (parseTree_at _ c model1 next); simpl; [apply IH | reflexivity].
Qed.

(** The parent pointer of a link is not read while the link itself is
    visited; overwriting it and calling [parseTree] is calling [parseTree_at]
    with the new pointer. *)
Lemma parseTree_setParent (p : option LinkRef) (link : Link) (model : Model) (off : SE3) :
  parseTree (setParent p link) model off = parseTree_at p link model off.
Proof. unfold parseTree. rewrite !parseTree_at_unfold. reflexivity. Qed.

(** Lines 352-355 and 386-389 as they are written: the FIXED branch runs
    [setParent] on every child, and the loop calls [parseTree] on the
    children as it finds them. *)
Lemma parseTree_at_reparents (up : option LinkRef) (link : Link) (model : Model) (off : SE3) :
  parseTree_at up link model off =
  let! visited := visitLink up link model off in
  foreach (fun child model =>
             parseTree match visited.2 with
                       | Some p => setParent p child
                       | None => child
                       end model visited.1.2)
          (child_links link) visited.1.1.
Proof.
  rewrite parseTree_at_unfold.
  destruct (visitLink up link model off) as [[[model1 next] rep]|e]; simpl; [|reflexivity].
  apply foreach_ext. apply Forall_forall. intros c _ m.
  destruct rep as [p|]; [symmetry; apply parseTree_setParent | reflexivity].
Qed.


Lemma parseTree_walk_unfold (ancestors : list Link) (link : Link) (model : Model) (off : SE3) :
  parseTree_walk ancestors link model off =
  let! visited := visitLink_walk ancestors link model off in
  foreach (fun child model => parseTree_walk (link :: ancestors) child model visited.2)
          (child_links link) visited.1.
Proof.
  destruct link as [name inertial visual pj pl children]; simpl.
  destruct (visitLink_walk ancestors _ model off) as [[model1 next]|e]; simpl; [|reflexivity].
  generalize (mkLink name inertial visual pj pl children :: ancestors) as chain.
  intros chain. revert model1.
  induction children as [|c cs IH]; intros model1; simpl; [reflexivity|].
  destruct (parseTree_walk chain c model1 next); simpl; [apply IH | reflexivity].
Qed.

Lemma descendants_unfold (link : Link) :
  descendants link = concat ((fun c => c :: descendants c) <$> child_links link).
Proof.
  destruct link as [name inertial visual pj pl children]; simpl.
  induction children as [|c cs IH]; simpl; [reflexivity|]. f_equal. f_equal. exact IH.
Qed.

(** What the visits carry over, the whole traversal carries over. *)
Lemma parseTree_at_preserves (Inv : Model -> Prop) :
  (forall up link model off e,
      Inv model -> visitLink up link model off = Ok e -> Inv e.1.1) ->
  forall link up model off model',
    Inv model -> parseTree_at up link model off = Ok model' -> Inv model'.
Proof.
  intros Hvisit. induction link as [name i v pj pl cs IH] using Link_ind.
  intros up model off model' Hinv Hrun.
  rewrite parseTree_at_unfold in Hrun.
  apply bind_Ok_inv in Hrun as (e & Hv & Hloop).
  eapply foreach_preserves; [ | eapply Hvisit; eassumption | exact Hloop].
  simpl. eapply Forall_impl; [exact IH|].
  intros c Hc st st' Hst Hrun. eapply Hc; eassumption.
Qed.

(** ** C1: parents come before their children *)

Lemma find_name_range (name : string) (l : list string) (i k : nat) :
  find_name name l i = Some k -> i <= k < i + length l.
Proof.
  revert i. induction l as [|n l IH]; intros i; simpl; [discriminate|].
  destruct (String.eqb n name).
  - intros [= <-]. lia.
  - intros H. apply IH in H. lia.
Qed.

Lemma getJointId_lt (model : Model) (name : string) (i : Index) :
  getJointId model name = Ok i -> i < length (names model).
Proof.
  unfold getJointId. destruct (find_name name (names model) 0) as [k|] eqn:E; [|discriminate].
  intros [= <-]. apply find_name_range in E. lia.
Qed.

Lemma parent_index_lt (model : Model) (up : LinkRef) (p : Index) :
  0 < length (names model) ->
  parent_index model up = Ok p -> p < length (names model).
Proof.
  intros Hpos. unfold parent_index.
  destruct (ref_parent_joint up) as [j|].
  - apply getJointId_lt.
  - destruct (existJointName model "root_joint").
    + apply getJointId_lt.
    + intros [= <-]. exact Hpos.
Qed.

Lemma Model_init_invariant : builder_invariant Model_init.
Proof.
  split.
  - unfold consistent; simpl. lia.
  - intros i p Hi Hl. simpl in Hl. destruct i as [|i]; [lia|]. discriminate.
Qed.

Lemma addBody_invariant (model : Model) (parent : Index) (j : JointModel) (placement : SE3)
    (Y : Inertia) (effort velocity lowPos upPos : VectorXd) (jointName bodyName : string)
    (visual : bool) :
  builder_invariant model -> parent < length (names model) ->
  builder_invariant
    (addBody model parent j placement Y effort velocity lowPos upPos jointName bodyName visual).
Proof.
  intros [(Hpos & Hpar & Hin & Hjo) Hord] Hlt. split.
  - unfold consistent; simpl. rewrite !length_app; simpl. lia.
  - intros i p Hi Hl. simpl in Hl.
    destruct (decide (i < length (parents model))) as [Hin'|Hout].
    + rewrite lookup_app_l in Hl by exact Hin'. eauto.
    + rewrite lookup_app_r in Hl by lia.
      destruct (i - length (parents model)) as [|k] eqn:E; simpl in Hl; [|discriminate].
      injection Hl as <-. lia.
Qed.

Lemma mergeFixedBody_invariant (model : Model) (parent : Index) (placement : SE3)
    (Y : Inertia) :
  builder_invariant model -> builder_invariant (mergeFixedBody model parent placement Y).
Proof.
  intros [(Hpos & Hpar & Hin & Hjo) Hord]. split; [|exact Hord].
  unfold consistent; simpl. rewrite length_alter. auto.
Qed.

Lemma addFixedBody_invariant (model : Model) (parent : Index) (placement : SE3)
    (bodyName : string) (visual : bool) :
  builder_invariant model -> builder_invariant (addFixedBody model parent placement bodyName visual).
Proof. intros H. exact H. Qed.

Lemma emitJoint_invariant (model : Model) (up : option LinkRef) (link : Link) (joint : Joint)
    (parent : Index) (off jointPlacement : SE3) (Y : Inertia) (visual : bool) (e : Emitted) :
  builder_invariant model -> parent < length (names model) ->
  emitJoint model up link joint parent off jointPlacement Y visual = Ok e ->
  builder_invariant e.1.1.
Proof.
  intros Hinv Hlt. unfold emitJoint.
  destruct (type joint); try discriminate;
    try (destruct (extractCartesianAxis (axis joint)); try discriminate;
         intros [= <-]; simpl; apply addBody_invariant; assumption).
  intros [= <-]; simpl. apply addFixedBody_invariant.
  destruct (inertial link); [apply mergeFixedBody_invariant|]; assumption.
Qed.

Lemma visitLink_invariant (up : option LinkRef) (link : Link) (model : Model) (off : SE3)
    (e : Emitted) :
  builder_invariant model -> visitLink up link model off = Ok e -> builder_invariant e.1.1.
Proof.
  intros Hinv. unfold visitLink.
  destruct (parent_joint link) as [joint|].
  - destruct up as [parent_of_link|]; [|discriminate].
    destruct (_ && _); [discriminate|].
    intros Hrun. apply bind_Ok_inv in Hrun as (p & Hp & Hemit).
    assert (Hlt : p < length (names model)).
    { eapply parent_index_lt; [|exact Hp]. destruct Hinv as [[Hpos _] _]. exact Hpos. }
    exact (emitJoint_invariant _ _ _ _ _ _ _ _ _ _ Hinv Hlt Hemit).
  - destruct up; [discriminate|]. intros [= <-]. exact Hinv.
Qed.

Lemma parseTree_at_invariant (link : Link) (up : option LinkRef) (model : Model) (off : SE3)
    (model' : Model) :
  builder_invariant model -> parseTree_at up link model off = Ok model' ->
  builder_invariant model'.
Proof.
  apply parseTree_at_preserves. intros up' link' m off' e. apply visitLink_invariant.
Qed.

Lemma parseTree_root_invariant (link : Link) (model : Model) (off : SE3)
    (root_joint : JointModel) (model' : Model) :
  builder_invariant model -> parseTree_root link model off root_joint = Ok model' ->
  builder_invariant model'.
Proof.
  intros Hinv. unfold parseTree_root.
  apply foreach_preserves.
  - apply Forall_forall. intros c _ st st' Hst. apply parseTree_at_invariant. exact Hst.
  - apply addBody_invariant; [exact Hinv | destruct Hinv as [[Hpos _] _]; exact Hpos].
Qed.

(** C1.  Whenever [buildModel] returns a Model, with the fixed root or with
    an explicit root joint, and whatever fixed joints the URDF has, every
    joint index [i >= 1] of that Model has [parents[i] < i]. *)
Theorem C1_parents_before_children (urdfTree : option Link) (filename : string)
    (root_joint : JointModel) (model : Model) :
  buildModel urdfTree filename = Ok model \/
  buildModel_root urdfTree filename root_joint = Ok model ->
  forall i p, 1 <= i -> parents model !! i = Some p -> p < i.
Proof.
  intros Hbuilt.
  assert (Hinv : builder_invariant model).
  { destruct urdfTree as [root|]; simpl in Hbuilt.
    - destruct Hbuilt as [H|H].
      + eapply parseTree_at_invariant; [apply Model_init_invariant | exact H].
      + eapply parseTree_root_invariant; [apply Model_init_invariant | exact H].
    - destruct Hbuilt; discriminate. }
  apply Hinv.
Qed.

(** ** C2: the effective parent index, and where the lookup by name finds it *)

Lemma parseTree_carry_unfold (is_root : bool) (p : Index) (link : Link) (model : Model)
    (off : SE3) :
  parseTree_carry is_root p link model off =
  let! visited := visitLink_carry is_root p link model off in
  foreach (fun child model => parseTree_carry false visited.2 child model visited.1.2)
          (child_links link) visited.1.1.
Proof.
  destruct link as [name inertial visual pj pl children]; simpl.
  destruct (visitLink_carry is_root p _ model off) as [[[model1 next] p']|e]; simpl;
    [|reflexivity].
  revert model1. induction children as [|c cs IH]; intros model1; simpl; [reflexivity|].
  destruct (parseTree_carry false p' c model1 next); simpl; [apply IH | reflexivity].
Qed.

Lemma emitted_names_unfold (link : Link) :
  emitted_names link = emitted_name link ++ concat (emitted_names <$> child_links link).
Proof.
  destruct link as [name inertial visual pj pl children]; simpl.
  unfold emitted_name at 1; simpl. f_equal.
  induction children as [|c cs IH]; simpl; [reflexivity|]. f_equal. exact IH.
Qed.

Lemma well_formed_unfold (up : option LinkRef) (link : Link) :
  well_formed up link <->
  getParent link = up /\ Forall (well_formed (Some (ref_of link))) (child_links link).
Proof.
  destruct link as [name inertial visual pj pl children]; simpl.
  generalize (Some (ref_of (mkLink name inertial visual pj pl children))) as r. intros r.
  apply and_iff_compat_l.
  induction children as [|c cs IH]; simpl.
  - split; [constructor | trivial].
  - rewrite Forall_cons, IH. reflexivity.
Qed.

Lemma find_name_app (name : string) (l l' : list string) (i k : nat) :
  find_name name l i = Some k -> find_name name (l ++ l') i = Some k.
Proof.
  revert i. induction l as [|n l IH]; intros i; simpl; [discriminate|].
  destruct (String.eqb n name); [trivial | apply IH].
Qed.

Lemma find_name_None (name : string) (l : list string) (i : nat) :
  find_name name l i = None <-> name ∉ l.
Proof.
  revert i. induction l as [|n l IH]; intros i; simpl.
  - split; [intros _; apply not_elem_of_nil | reflexivity].
  - destruct (String.eqb_spec n name) as [->|Hne].
    + split; [discriminate | intros H; exfalso; apply H; left].
    + rewrite IH, not_elem_of_cons. split; [intros H; split; [congruence | exact H] | tauto].
Qed.

Lemma find_name_fresh (name : string) (l l' : list string) (i : nat) :
  name ∉ l -> find_name name (l ++ name :: l') i = Some (i + length l).
Proof.
  revert i. induction l as [|n l IH]; intros i Hfresh; simpl.
  - rewrite String.eqb_refl. f_equal. lia.
  - apply not_elem_of_cons in Hfresh as [Hne Hfresh].
    destruct (String.eqb_spec n name) as [->|_]; [congruence|].
    rewrite IH by exact Hfresh. f_equal. lia.
Qed.

Lemma find_name_app_None (name : string) (l l' : list string) (i : nat) :
  name ∉ l' -> find_name name l i = None -> find_name name (l ++ l') i = None.
Proof.
  intros Hl' Hl. apply find_name_None. apply find_name_None in Hl.
  rewrite elem_of_app. tauto.
Qed.

(** A parent index, once resolved, stays the same while the model grows,
    as long as no joint called root_joint is added behind the parser's back. *)
Lemma parent_index_stable (model model' : Model) (added : list string) (up : LinkRef)
    (p : Index) :
  names model' = names model ++ added -> "root_joint" ∉ added ->
  parent_index model up = Ok p -> parent_index model' up = Ok p.
Proof.
  intros Hnames Hroot. unfold parent_index, existJointName, getJointId. rewrite Hnames.
  destruct (ref_parent_joint up) as [j|].
  - destruct (find_name (joint_name j) (names model) 0) as [k|] eqn:E; [|discriminate].
    rewrite (find_name_app _ _ _ _ _ E). trivial.
  - destruct (find_name "root_joint" (names model) 0) as [k|] eqn:E.
    + rewrite (find_name_app _ _ _ _ _ E). trivial.
    + rewrite (find_name_app_None _ _ _ _ Hroot E). trivial.
Qed.


Lemma resolves_stable (model model' : Model) (added : list string) (up : option LinkRef)
    (p : Index) :
  names model' = names model ++ added -> "root_joint" ∉ added ->
  resolves model up p -> resolves model' up p.
Proof.
  intros Hnames Hroot (P & -> & HP). exists P. split; [reflexivity|].
  eapply parent_index_stable; eassumption.
Qed.

Lemma getJointId_fresh (model model' : Model) (name : string) :
  names model' = names model ++ [name] -> name ∉ names model ->
  getJointId model' name = Ok (length (names model)).
Proof.
  intros Hnames Hfresh. unfold getJointId. rewrite Hnames.
  rewrite find_name_fresh by exact Hfresh. reflexivity.
Qed.

(** One visit: the lookup of lines 143-144 and the carried index agree, and
    they still agree for the children. *)
Lemma visit_carry_agree (link : Link) (up : option LinkRef) (p : Index) (model : Model)
    (off : SE3) :
  consistent model -> resolves model up p ->
  (forall n, n ∈ emitted_name link -> n ∉ names model) ->
  match visitLink up link model off with
  | Throw ex => visitLink_carry false p link model off = Throw ex
  | Ok (model1, next, rep) =>
      exists p',
        visitLink_carry false p link model off = Ok (model1, next, p') /\
        names model1 = names model ++ emitted_name link /\
        consistent model1 /\
        forall c, getParent c = Some (ref_of link) ->
                  resolves model1 (getParent_of_child rep c) p'
  end.
Proof.
  intros Hcons (P & -> & HP) Hfresh.
  unfold visitLink, visitLink_carry, emitted_name in *.
  destruct (parent_joint link) as [joint|] eqn:Hpj; [|reflexivity].
  destruct (_ && _); [reflexivity|].
  rewrite HP; simpl.
  assert (Hadd : forall jm lims,
    type joint <> FIXED ->
    let model1 := addBody model p jm
                    (SE3_mul off (convertFromUrdf_Pose (parent_to_joint_origin_transform joint)))
                    match inertial link with
                    | Some Yu => convertFromUrdf_Inertial Yu
                    | None => Inertia_Identity
                    end
                    (maxEffort lims) (maxVelocity lims) (lowerPosition lims) (upperPosition lims)
                    (joint_name joint) (link_name link)
                    (if visual link then true else false) in
    names model1 = names model ++ (if is_FIXED (type joint) then [] else [joint_name joint]) /\
    consistent model1 /\
    forall c, getParent c = Some (ref_of link) ->
              resolves model1 (getParent_of_child None c)
                       (if is_FIXED (type joint) then p else njoints model)).
  { intros jm lims Hnf model1.
    assert (Hname : names model1 = names model ++ [joint_name joint]) by reflexivity.
    assert (His : is_FIXED (type joint) = false) by (destruct (type joint); simpl; congruence).
    rewrite His in *. split; [exact Hname|]. split.
    - destruct Hcons as (H0 & H1 & H2 & H3). unfold consistent; simpl.
      rewrite !length_app; simpl. lia.
    - intros c Hc. simpl. rewrite Hc. exists (ref_of link). split; [reflexivity|].
      unfold parent_index; simpl. rewrite Hpj.
      erewrite getJointId_fresh; [ | exact Hname | apply Hfresh; left ].
      destruct Hcons as (_ & _ & _ & Hj). unfold njoints. rewrite Hj. reflexivity. }
  unfold emitJoint.
  destruct (type joint) eqn:Hty; simpl; try reflexivity;
    try (destruct (extractCartesianAxis (axis joint)); simpl; try reflexivity;
         eexists; (split; [reflexivity|]);
         match goal with |- context [addBody model p ?jm _ _ ?a ?b ?c ?d _ _ _] =>
           apply (Hadd jm (mkLimits a b c d)); discriminate end).
  (* FIXED *)
  eexists. split; [reflexivity|]. rewrite app_nil_r.
  split; [destruct (inertial link); reflexivity|]. split.
  - destruct Hcons as (H0 & H1 & H2 & H3). unfold consistent; simpl.
    destruct (inertial link); simpl; rewrite ?length_alter; auto.
  - intros c _. simpl. exists P. split; [reflexivity|].
    eapply (parent_index_stable model _ []); [ | apply not_elem_of_nil | exact HP ].
    rewrite app_nil_r. destruct (inertial link); reflexivity.
Qed.


Lemma children_carry_agree (cs : list Link) :
  Forall carry_agrees_at cs ->
  forall (upf : Link -> option LinkRef) (up1 : option LinkRef) (p : Index) (next : SE3)
         (model : Model),
    Forall (well_formed up1) cs -> consistent model ->
    (forall c, c ∈ cs -> resolves model (upf c) p) ->
    NoDup (names model ++ concat (emitted_names <$> cs)) ->
    "root_joint" ∉ concat (emitted_names <$> cs) ->
    foreach (fun c m => parseTree_at (upf c) c m next) cs model =
    foreach (fun c m => parseTree_carry false p c m next) cs model /\
    forall model', foreach (fun c m => parseTree_at (upf c) c m next) cs model = Ok model' ->
                   names model' = names model ++ concat (emitted_names <$> cs) /\
                   consistent model'.
Proof.
  induction 1 as [|c cs Hc _ IH]; intros upf up1 p next model Hwf Hcons Hres Hnd Hroot; simpl.
  - split; [reflexivity|]. intros model' [= <-]. rewrite app_nil_r. auto.
  - simpl in Hnd, Hroot. apply Forall_cons in Hwf as [Hwfc Hwf].
    rewrite elem_of_app in Hroot. rewrite app_assoc in Hnd.
    destruct (Hc up1 (upf c) p model next) as [Heq Hnames]; auto.
    { apply Hres. left. }
    { apply NoDup_app in Hnd as (Hnd & _ & _). exact Hnd. }
    rewrite <- Heq.
    destruct (parseTree_at (upf c) c model next) as [model1|ex]; simpl;
      [|split; [reflexivity | discriminate]].
    destruct (Hnames model1 eq_refl) as [Hn1 Hcons1].
    destruct (IH upf up1 p next model1) as [Heq' Hnames']; auto.
    { intros c' Hc'. eapply resolves_stable; [exact Hn1 | tauto | ]. apply Hres. right. exact Hc'. }
    { rewrite Hn1. exact Hnd. }
    split; [exact Heq'|].
    intros model' Hrun. destruct (Hnames' model' Hrun) as [Hn' Hcons'].
    split; [|exact Hcons']. rewrite Hn', Hn1, app_assoc. reflexivity.
Qed.

Lemma parseTree_carry_agree (link : Link) : carry_agrees_at link.
Proof.
  induction link as [name i v pj pl cs IH] using Link_ind.
  intros up0 up p model off Hwf Hcons Hres Hnd Hroot.
  set (link := mkLink name i v pj pl cs) in *.
  rewrite emitted_names_unfold in Hnd, Hroot.
  rewrite elem_of_app in Hroot. rewrite app_assoc in Hnd.
  apply well_formed_unfold in Hwf as [_ Hwf].
  rewrite parseTree_at_unfold, parseTree_carry_unfold, emitted_names_unfold.
  assert (Hfresh : forall n, n ∈ emitted_name link -> n ∉ names model).
  { intros n Hn Hin. apply NoDup_app in Hnd as (Hnd & _ & _).
    apply NoDup_app in Hnd as (_ & Hnd & _). exact (Hnd n Hin Hn). }
  pose proof (visit_carry_agree link up p model off Hcons Hres Hfresh) as Hvisit.
  destruct (visitLink up link model off) as [[[model1 next] rep]|ex]; simpl.
  - destruct Hvisit as (p' & -> & Hn1 & Hcons1 & Hch). simpl.
    destruct (children_carry_agree cs IH (getParent_of_child rep) (Some (ref_of link))
                p' next model1) as [Heq Hnames]; auto.
    { intros c Hc. apply Hch. rewrite Forall_forall in Hwf.
      specialize (Hwf c Hc). apply well_formed_unfold in Hwf as [Hwf _]. exact Hwf. }
    { rewrite Hn1. exact Hnd. }
    split; [exact Heq|].
    intros model' Hrun. destruct (Hnames model' Hrun) as [Hn' Hcons'].
    split; [|exact Hcons']. rewrite Hn', Hn1, app_assoc. reflexivity.
  - rewrite Hvisit. simpl. split; [reflexivity | discriminate].
Qed.



(** *** The lookup one step up the re-parented tree walks up the URDF tree *)

Lemma emitJoint_up (model : Model) (up : option LinkRef) (link : Link) (joint : Joint)
    (parent : Index) (off jointPlacement : SE3) (Y : Inertia) (visual : bool) :
  emitJoint model up link joint parent off jointPlacement Y visual =
  let! emitted := emitJoint model None link joint parent off jointPlacement Y visual in
  Ok (emitted.1.1, emitted.1.2, if is_FIXED (type joint) then Some up else None).
Proof.
  unfold emitJoint.
  destruct (type joint); try reflexivity;
    destruct (extractCartesianAxis (axis joint)); reflexivity.
Qed.

Lemma visit_walk_agree (link : Link) (up : option LinkRef) (ancestors : list Link)
    (model : Model) (off : SE3) :
  points_to_nearest up ancestors ->
  match visitLink up link model off with
  | Throw ex => visitLink_walk ancestors link model off = Throw ex
  | Ok (model1, next, rep) =>
      visitLink_walk ancestors link model off = Ok (model1, next) /\
      forall c, getParent c = Some (ref_of link) ->
                points_to_nearest (getParent_of_child rep c) (link :: ancestors)
  end.
Proof.
  intros [Hup Hsome]. unfold visitLink, visitLink_walk.
  assert (Hchild : forall c, getParent c = Some (ref_of link) -> hung_by_fixed link = false ->
                   points_to_nearest (getParent_of_child None c) (link :: ancestors)).
  { intros c Hc Hnf. unfold getParent_of_child. rewrite Hc.
    split; [|intros _; eexists; reflexivity].
    cbn [nearest_non_fixed]. destruct (hung_by_fixed link); [discriminate | reflexivity]. }
  unfold hung_by_fixed in Hchild.
  destruct (parent_joint link) as [joint|] eqn:Hpj.
  - destruct ancestors as [|a rest].
    + simpl in Hup. subst up. reflexivity.
    + destruct (Hsome ltac:(discriminate)) as [P HP]. rewrite HP in Hup |- *. clear HP.
      destruct (_ && _); [reflexivity|].
      assert (Hp : parent_index model P = effective_parent model (a :: rest)).
      { unfold effective_parent, parent_index.
        destruct (nearest_non_fixed (a :: rest)) as [n|]; [|discriminate].
        injection Hup as ->. reflexivity. }
      rewrite Hp. destruct (effective_parent model (a :: rest)) as [p|ex]; simpl; [|reflexivity].
      rewrite emitJoint_up.
      destruct (emitJoint model None link joint p off _ _ _) as [[[model1 next] rep]|ex];
        simpl; [|reflexivity].
      split; [reflexivity|]. intros c Hc.
      destruct (is_FIXED (type joint)) eqn:Hfixed; [|apply Hchild; auto].
      split; [|intros _; eexists; reflexivity].
      cbn [nearest_non_fixed getParent_of_child]. unfold hung_by_fixed at 1.
      rewrite Hpj, Hfixed. exact Hup.
  - destruct ancestors as [|a rest].
    + simpl in Hup. subst up. split; [reflexivity|]. intros c Hc. apply Hchild; auto.
    + destruct (Hsome ltac:(discriminate)) as [P ->]. reflexivity.
Qed.

Lemma children_walk_agree (cs : list Link) :
  Forall walk_agrees_at cs ->
  forall (upf : Link -> option LinkRef) (up1 : option LinkRef) (chain : list Link)
         (next : SE3) (model : Model),
    Forall (well_formed up1) cs -> (forall c, c ∈ cs -> points_to_nearest (upf c) chain) ->
    foreach (fun c m => parseTree_at (upf c) c m next) cs model =
    foreach (fun c m => parseTree_walk chain c m next) cs model.
Proof.
  intros IH upf up1 chain next model Hwf Hup. apply foreach_ext.
  apply Forall_forall. intros c Hc m.
  rewrite Forall_forall in IH, Hwf. apply (IH c Hc up1); [apply Hwf | apply Hup]; exact Hc.
Qed.

Lemma parseTree_walk_agree (link : Link) : walk_agrees_at link.
Proof.
  induction link as [name i v pj pl cs IH] using Link_ind.
  intros up0 up ancestors model off Hwf Hup.
  set (link := mkLink name i v pj pl cs) in *.
  apply well_formed_unfold in Hwf as [_ Hwf].
  rewrite parseTree_at_unfold, parseTree_walk_unfold.
  pose proof (visit_walk_agree link up ancestors model off Hup) as Hvisit.
  destruct (visitLink up link model off) as [[[model1 next] rep]|ex]; simpl.
  - destruct Hvisit as [-> Hch]. simpl.
    apply (children_walk_agree cs IH _ (Some (ref_of link))); [exact Hwf|].
    intros c Hc. apply Hch. rewrite Forall_forall in Hwf.
    specialize (Hwf c Hc). apply well_formed_unfold in Hwf as [Hwf _]. exact Hwf.
  - rewrite Hvisit. reflexivity.
Qed.

(** On a URDF tree, [parseTree] resolves every parent index from the nearest
    ancestor that is not hung by a fixed joint, with either root. *)
Lemma parseTree_walks_up (root : Link) (model : Model) (off : SE3) (root_joint : JointModel) :
  urdf_tree root ->
  parseTree root model off = parseTree_walk [] root model off /\
  parseTree_root root model off root_joint = parseTree_root_walk root model off root_joint.
Proof.
  intros [Hpj Hwf]. split.
  - unfold parseTree. apply (parseTree_walk_agree root None); [exact Hwf|].
    apply well_formed_unfold in Hwf as [-> _]. split; [reflexivity | congruence].
  - unfold parseTree_root, parseTree_root_walk, parseTree.
    apply well_formed_unfold in Hwf as [_ Hwf].
    apply foreach_ext. apply Forall_forall. intros c Hc m.
    rewrite Forall_forall in Hwf. specialize (Hwf c Hc).
    apply (parseTree_walk_agree c (Some (ref_of root))); [exact Hwf|].
    apply well_formed_unfold in Hwf as [-> _].
    split; [|intros _; eexists; reflexivity].
    cbn [nearest_non_fixed]. unfold hung_by_fixed. rewrite Hpj. reflexivity.
Qed.

Lemma parseTree_root_link_agree (root : Link) (model : Model) (off : SE3) (p : Index) :
  urdf_tree root -> consistent model ->
  resolves model (Some (ref_of root)) p ->
  NoDup (names model ++ emitted_names root) -> "root_joint" ∉ emitted_names root ->
  parseTree root model off = parseTree_carry true p root model off.
Proof.
  intros [Hpj Hwf] Hcons Hres Hnd Hroot.
  apply well_formed_unfold in Hwf as [Hup Hwf].
  unfold parseTree. rewrite Hup, parseTree_at_unfold, parseTree_carry_unfold.
  rewrite emitted_names_unfold in Hnd, Hroot.
  unfold visitLink, visitLink_carry, emitted_name in *. rewrite Hpj in *. simpl in *.
  apply (children_carry_agree (child_links root)) with (up1 := Some (ref_of root)); auto.
  - apply Forall_forall. intros c _. apply parseTree_carry_agree.
  - intros c Hc. unfold getParent_of_child. rewrite Forall_forall in Hwf.
    specialize (Hwf c Hc). apply well_formed_unfold in Hwf as [-> _]. exact Hres.
Qed.

Lemma parseTree_root_agree (root : Link) (model : Model) (off : SE3)
    (root_joint : JointModel) :
  urdf_tree root -> consistent model ->
  NoDup (names model ++ "root_joint" :: emitted_names root) ->
  parseTree_root root model off root_joint = parseTree_root_carry root model off root_joint.
Proof.
  intros [Hpj Hwf] Hcons Hnd.
  apply well_formed_unfold in Hwf as [_ Hwf].
  unfold parseTree_root, parseTree_root_carry.
  set (model1 := addBody_nolimits model 0 root_joint off _ "root_joint" (link_name root) true).
  assert (Hn1 : names model1 = names model ++ ["root_joint"]) by reflexivity.
  assert (Hnd' : NoDup (names model1 ++ emitted_names root)).
  { rewrite Hn1, <- app_assoc. exact Hnd. }
  assert (Hroot : "root_joint" ∉ emitted_names root).
  { apply NoDup_app in Hnd as (_ & _ & Hnd). apply NoDup_cons in Hnd as [Hnd _]. exact Hnd. }
  assert (Hcons1 : consistent model1).
  { destruct Hcons as (H0 & H1 & H2 & H3). unfold consistent, model1; simpl.
    rewrite !length_app; simpl. lia. }
  assert (Hres : resolves model1 (Some (ref_of root)) (njoints model)).
  { exists (ref_of root). split; [reflexivity|].
    unfold parent_index; simpl. rewrite Hpj.
    assert (Hid : getJointId model1 "root_joint" = Ok (length (names model))).
    { apply getJointId_fresh; [exact Hn1|].
      apply NoDup_app in Hnd as (_ & Hnd & _). intros Hin. apply (Hnd _ Hin). left. }
    unfold existJointName, getJointId in *.
    destruct (find_name "root_joint" (names model1) 0) as [k|]; [|discriminate].
    injection Hid as ->. f_equal.
    destruct Hcons as (_ & _ & _ & Hj). unfold njoints. lia. }
  rewrite emitted_names_unfold in Hnd', Hroot.
  unfold emitted_name in *. rewrite Hpj in *. simpl in *.
  apply (children_carry_agree (child_links root)) with (up1 := Some (ref_of root)); auto.
  - apply Forall_forall. intros c _. apply parseTree_carry_agree.
  - intros c Hc. rewrite Forall_forall in Hwf.
    specialize (Hwf c Hc). apply well_formed_unfold in Hwf as [-> _]. exact Hres.
Qed.

(** X24.  On a URDF tree, with either root, the parent index that lines
    143-144 look up by name, one step up the tree that lines 352-355
    re-parent, is the one resolved from the nearest ancestor that is not hung
    by a fixed joint, however long the chain of fixed joints in between: the
    lookup of root_joint when the model has a joint of that name, 0
    otherwise, when that ancestor is the root link, and the lookup of the
    name of the ancestor's joint otherwise.  When the non-fixed joints of the
    URDF carry pairwise distinct names, none of them universe or root_joint,
    these lookups give the index of the explicit root joint, or 0 without
    one, and the index of the joint that hangs the ancestor: [buildModel]
    computes what the traversal carrying that index computes. *)
Theorem X24_parent_resolution (root : Link) (filename : string) (root_joint : JointModel) :
  urdf_tree root ->
  (buildModel (Some root) filename = parseTree_walk [] root Model_init SE3_Identity /\
   buildModel_root (Some root) filename root_joint =
     parseTree_root_walk root Model_init SE3_Identity root_joint) /\
  (NoDup ("universe" :: "root_joint" :: emitted_names root) ->
   buildModel (Some root) filename = parseTree_carry true 0 root Model_init SE3_Identity /\
   buildModel_root (Some root) filename root_joint =
     parseTree_root_carry root Model_init SE3_Identity root_joint).
Proof.
  intros Htree. split; [exact (parseTree_walks_up root _ _ root_joint Htree)|].
  intros Hnd. split; simpl.
  - apply parseTree_root_link_agree; auto.
    + apply Model_init_invariant.
    + exists (ref_of root). split; [reflexivity|].
      destruct Htree as [Hpj _]. unfold parent_index; simpl. rewrite Hpj. reflexivity.
    + simpl. apply NoDup_cons in Hnd as [Hu Hnd]. apply NoDup_cons in Hnd as [_ Hnd].
      apply NoDup_cons. split; [|exact Hnd]. intros Hin. apply Hu. right. exact Hin.
    + apply NoDup_cons in Hnd as [_ Hnd]. apply NoDup_cons in Hnd as [Hr _]. exact Hr.
  - apply parseTree_root_agree; auto.
    apply Model_init_invariant.
Qed.


(** ** C3: links hung by a fixed joint *)







(** ** C5, C6, C10: failures *)

Lemma foreach_Throw_inv {A St : Type} (body : A -> St -> result St) (xs : list A) (st : St)
    (e : exception) :
  foreach body xs st = Throw e -> exists x st', x ∈ xs /\ body x st' = Throw e.
Proof.
  revert st. induction xs as [|x xs IH]; intros st; simpl; [discriminate|].
  intros H. apply bind_Throw_inv in H as [H | (st1 & _ & H)].
  - exists x, st. split; [left | exact H].
  - destruct (IH _ H) as (x' & st' & Hin & Hx'). exists x', st'. split; [right|]; assumption.
Qed.

(** A loop fails as soon as one of its turns fails whatever the state. *)
Lemma foreach_fails {A St : Type} (body : A -> St -> result St) (xs : list A) (x : A) :
  x ∈ xs -> (forall st, fails (body x st)) -> forall st, fails (foreach body xs st).
Proof.
  intros Hin Hx. induction xs as [|y xs IH]; intros st; simpl.
  - apply elem_of_nil in Hin. destruct Hin.
  - apply elem_of_cons in Hin as [<- | Hin].
    + destruct (Hx st) as [e ->]. exists e. reflexivity.
    + destruct (body y st) as [st'|e]; simpl; [apply IH; exact Hin | exists e; reflexivity].
Qed.

Lemma elem_of_concat {A : Type} (x : A) (ls : list (list A)) :
  x ∈ concat ls <-> exists l, x ∈ l /\ l ∈ ls.
Proof.
  induction ls as [|l ls IH]; simpl.
  - split; [intros H; apply elem_of_nil in H; destruct H|].
    intros (l & _ & H). apply elem_of_nil in H. destruct H.
  - rewrite elem_of_app, IH. split.
    + intros [H | (l' & H & Hl')]; [exists l; split; [exact H | left] |].
      exists l'. split; [exact H | right; exact Hl'].
    + intros (l' & H & Hl'). apply elem_of_cons in Hl' as [-> | Hl']; [left; exact H|].
      right. exists l'. split; assumption.
Qed.

Lemma elem_of_descendants (l link : Link) :
  l ∈ descendants link <-> exists c, c ∈ child_links link /\ l ∈ c :: descendants c.
Proof.
  rewrite descendants_unfold, elem_of_concat. split.
  - intros (ls & Hl & Hls). apply list_elem_of_fmap in Hls as (c & -> & Hc). eauto.
  - intros (c & Hc & Hl). exists (c :: descendants c). split; [exact Hl|].
    apply list_elem_of_fmap. eauto.
Qed.

(** Where a failure of [visitLink] comes from. *)
Lemma visitLink_Throw_inv (up : option LinkRef) (link : Link) (model : Model) (off : SE3)
    (e : exception) :
  visitLink up link model off = Throw e ->
  (e = missing_inertia (link_name link) /\ lacks_inertia link) \/
  (e = missing_joint (link_name link) /\ parent_joint link = None) \/
  (exists s, e = assertion_failure s) \/
  (exists s, e = unknown_joint_name s).
Proof.
  unfold visitLink, lacks_inertia.
  destruct (parent_joint link) as [joint|] eqn:Hpj.
  - destruct up as [parent_of_link|]; [|intros [= <-]; right; right; left; eauto].
    destruct (inertial link) as [Yu|] eqn:HY; simpl.
    + intros H. apply bind_Throw_inv in H as [H | (p & _ & H)].
      * right. right. right. revert H. unfold parent_index, getJointId.
        destruct (ref_parent_joint parent_of_link).
        -- destruct (find_name _ _ _); [discriminate | intros [= <-]; eauto].
        -- destruct (existJointName model "root_joint"); [|discriminate].
           destruct (find_name _ _ _); [discriminate | intros [= <-]; eauto].
      * right. right. left. revert H. unfold emitJoint.
        destruct (type joint); try discriminate;
          try (destruct (extractCartesianAxis (axis joint)); try discriminate);
          intros [= <-]; eauto.
    + destruct (type joint) eqn:Hty; simpl;
        try (intros [= <-]; left; split; [reflexivity|];
             split; [reflexivity|]; exists joint; split; [reflexivity | congruence]).
      intros H. apply bind_Throw_inv in H as [H | (p & _ & H)].
      * right. right. right. revert H. unfold parent_index, getJointId.
        destruct (ref_parent_joint parent_of_link).
        -- destruct (find_name _ _ _); [discriminate | intros [= <-]; eauto].
        -- destruct (existJointName model "root_joint"); [|discriminate].
           destruct (find_name _ _ _); [discriminate | intros [= <-]; eauto].
      * revert H. unfold emitJoint. rewrite Hty. discriminate.
  - destruct up; [|discriminate]. intros [= <-]. right. left. auto.
Qed.

(** A failure of the traversal is the failure of the visit of one link. *)
Lemma parseTree_at_Throw_inv (link : Link) (up : option LinkRef) (model : Model) (off : SE3)
    (e : exception) :
  parseTree_at up link model off = Throw e ->
  exists l up' model' off',
    l ∈ link :: descendants link /\ visitLink up' l model' off' = Throw e.
Proof.
  revert up model off. induction link as [name i v pj pl cs IH] using Link_ind.
  intros up model off Hrun. set (link := mkLink name i v pj pl cs) in *.
  rewrite parseTree_at_unfold in Hrun.
  apply bind_Throw_inv in Hrun as [Hvisit | (visited & _ & Hloop)].
  - exists link, up, model, off. split; [left | exact Hvisit].
  - apply foreach_Throw_inv in Hloop as (c & model1 & Hc & Hrun).
    rewrite Forall_forall in IH.
    destruct (IH c Hc _ _ _ Hrun) as (l & up' & model' & off' & Hl & Hvisit).
    exists l, up', model', off'. split; [|exact Hvisit].
    right. apply elem_of_descendants. exists c. split; assumption.
Qed.

Lemma parseTree_at_doomed (l : Link) :
  doomed l ->
  forall link, l ∈ link :: descendants link ->
  forall up model off, fails (parseTree_at up link model off).
Proof.
  intros Hl. induction link as [name i v pj pl cs IH] using Link_ind.
  set (link := mkLink name i v pj pl cs) in *.
  intros Hin up model off. rewrite parseTree_at_unfold.
  apply elem_of_cons in Hin as [-> | Hin].
  - destruct (Hl up model off) as [e ->]. exists e. reflexivity.
  - destruct (visitLink up link model off) as [visited|e]; simpl; [|exists e; reflexivity].
    apply elem_of_descendants in Hin as (c & Hc & Hin).
    apply (foreach_fails _ _ c Hc). intros st.
    rewrite Forall_forall in IH. apply (IH c Hc Hin).
Qed.

Lemma lacks_inertia_throws (up : LinkRef) (link : Link) (model : Model) (off : SE3) :
  lacks_inertia link ->
  visitLink (Some up) link model off = Throw (missing_inertia (link_name link)).
Proof.
  intros (HY & joint & Hpj & Hty). unfold visitLink. rewrite Hpj, HY. simpl.
  destruct (type joint); try reflexivity. congruence.
Qed.

Lemma lacks_inertia_doomed (link : Link) : lacks_inertia link -> doomed link.
Proof.
  intros Hl [up|] model off.
  - rewrite lacks_inertia_throws by exact Hl. eexists; reflexivity.
  - destruct Hl as (_ & joint & Hpj & _). unfold visitLink. rewrite Hpj.
    eexists; reflexivity.
Qed.

Lemma parseTree_root_Throw_inv (root : Link) (model : Model) (off : SE3)
    (root_joint : JointModel) (e : exception) :
  parseTree_root root model off root_joint = Throw e ->
  exists l up' model' off', l ∈ descendants root /\ visitLink up' l model' off' = Throw e.
Proof.
  unfold parseTree_root. intros Hrun.
  apply foreach_Throw_inv in Hrun as (c & model1 & Hc & Hrun).
  apply parseTree_at_Throw_inv in Hrun as (l & up' & model' & off' & Hl & Hvisit).
  exists l, up', model', off'. split; [|exact Hvisit].
  apply elem_of_descendants. exists c. split; assumption.
Qed.

Lemma parseTree_root_doomed (l root : Link) (model : Model) (off : SE3)
    (root_joint : JointModel) :
  doomed l -> l ∈ descendants root -> fails (parseTree_root root model off root_joint).
Proof.
  intros Hl Hin. unfold parseTree_root.
  apply elem_of_descendants in Hin as (c & Hc & Hin).
  apply (foreach_fails _ _ c Hc). intros st. apply (parseTree_at_doomed l Hl c Hin).
Qed.

Lemma thrown_missing_inertia (up : option LinkRef) (l : Link) (model : Model) (off : SE3)
    (name : string) :
  visitLink up l model off = Throw (missing_inertia name) ->
  link_name l = name /\ lacks_inertia l.
Proof.
  intros H. apply visitLink_Throw_inv in H as [[H Hl] | [[H _] | [[s H] | [s H]]]].
  - split; [symmetry; apply missing_inertia_inj; exact H | exact Hl].
  - symmetry in H. destruct (missing_joint_not_missing_inertia _ _ H).
  - discriminate.
  - discriminate.
Qed.




(** ** C7: the axis classifier and the unaligned revolute joint *)

Lemma extractCartesianAxis_spec (v : Vector3) :
  (extractCartesianAxis v = AXIS_X -> axis_equals v d1 d0 d0 = true) /\
  (extractCartesianAxis v = AXIS_Y -> axis_equals v d0 d1 d0 = true) /\
  (extractCartesianAxis v = AXIS_Z -> axis_equals v d0 d0 d1 = true) /\
  (extractCartesianAxis v = AXIS_UNALIGNED <->
   axis_equals v d1 d0 d0 = false /\ axis_equals v d0 d1 d0 = false /\
   axis_equals v d0 d0 d1 = false).
Proof.
  unfold extractCartesianAxis.
  change (deqb (x v) d1 && deqb (y v) d0 && deqb (z v) d0) with (axis_equals v d1 d0 d0).
  change (deqb (x v) d0 && deqb (y v) d1 && deqb (z v) d0) with (axis_equals v d0 d1 d0).
  change (deqb (x v) d0 && deqb (y v) d0 && deqb (z v) d1) with (axis_equals v d0 d0 d1).
  destruct (axis_equals v d1 d0 d0), (axis_equals v d0 d1 d0), (axis_equals v d0 d0 d1);
    repeat split; intros; try discriminate; try reflexivity;
    repeat match goal with H : _ /\ _ |- _ => destruct H end; try discriminate.
Qed.

Lemma revolute_unaligned_emitted (model : Model) (up : option LinkRef) (link : Link)
    (joint : Joint) (parent : Index) (placementOffset jointPlacement : SE3) (Y : Inertia)
    (visual : bool) :
  type joint = REVOLUTE \/ type joint = CONTINUOUS ->
  extractCartesianAxis (axis joint) = AXIS_UNALIGNED ->
  emitJoint model up link joint parent placementOffset jointPlacement Y visual =
    Ok (addBody model parent
          (JointModelRevoluteUnaligned
             (normalize (mkVector3d (x (axis joint)) (y (axis joint)) (z (axis joint)))))
          jointPlacement Y
          (limit_vector (joint_limits joint) effort)
          (limit_vector (joint_limits joint) velocity)
          (limit_vector (joint_limits joint) lower)
          (limit_vector (joint_limits joint) upper)
          (joint_name joint) (link_name link) visual,
        SE3_Identity, None).
Proof.
  intros Hty Hax. unfold emitJoint. destruct Hty as [-> | ->]; rewrite Hax; reflexivity.
Qed.

(** ** C8: joint limits *)

(** C8.  A REVOLUTE, CONTINUOUS or PRISMATIC joint that is emitted goes to
    [addBody] with four vectors of length one holding the effort, velocity,
    lower and upper limit when the URDF joint has a limit block, and with
    four empty vectors when it has none; these are the vectors the Model
    stores for the new joint. *)
Theorem C8_limits (model : Model) (up : option LinkRef) (link : Link) (joint : Joint)
    (parent : Index) (placementOffset jointPlacement : SE3) (Y : Inertia) (visual : bool)
    (e : Emitted) :
  type joint = REVOLUTE \/ type joint = CONTINUOUS \/ type joint = PRISMATIC ->
  emitJoint model up link joint parent placementOffset jointPlacement Y visual = Ok e ->
  (exists j,
      e = (addBody model parent j jointPlacement Y
             (maxEffort (stored_limits joint)) (maxVelocity (stored_limits joint))
             (lowerPosition (stored_limits joint)) (upperPosition (stored_limits joint))
             (joint_name joint) (link_name link) visual,
           SE3_Identity, None)) /\
  limits e.1.1 = limits model ++ [stored_limits joint] /\
  (forall l, joint_limits joint = Some l ->
             stored_limits joint = mkLimits [effort l] [velocity l] [lower l] [upper l]) /\
  (joint_limits joint = None -> stored_limits joint = mkLimits [] [] [] []).
Proof.
  intros Hty Hemit.
  assert (Hj : exists j,
             e = (addBody model parent j jointPlacement Y
                    (maxEffort (stored_limits joint)) (maxVelocity (stored_limits joint))
                    (lowerPosition (stored_limits joint)) (upperPosition (stored_limits joint))
                    (joint_name joint) (link_name link) visual,
                  SE3_Identity, None)).
  { revert Hemit. unfold emitJoint, stored_limits, limit_vector.
    destruct Hty as [-> | [-> | ->]];
      destruct (extractCartesianAxis (axis joint)); try discriminate;
      intros [= <-]; eexists; destruct (joint_limits joint); reflexivity. }
  split; [exact Hj|]. split; [|split].
  - destruct Hj as [j ->]. simpl. destruct (stored_limits joint); reflexivity.
  - intros l Hl. unfold stored_limits. rewrite Hl. reflexivity.
  - intros Hl. unfold stored_limits. rewrite Hl. reflexivity.
Qed.

(** ** C10: a root link without inertial block *)

(** C10.  With an explicit root joint, a root link without inertial block is
    handed to [addBody] with the identity inertia and the compilation goes
    on with its children: it succeeds when there are none, and when it fails
    with a missing-inertia error the link at fault is below the root.  A link
    hung by a joint other than FIXED that has no inertial block stops the
    compilation with that error. *)
Theorem C10_root_without_inertial (root : Link) (model : Model) (placementOffset : SE3)
    (root_joint : JointModel) :
  inertial root = None ->
  let model1 := addBody_nolimits model 0 root_joint placementOffset Inertia_Identity
                                 "root_joint" (link_name root) true in
  parseTree_root root model placementOffset root_joint =
    foreach (fun child m => parseTree child m SE3_Identity) (child_links root) model1 /\
  (child_links root = [] ->
   parseTree_root root model placementOffset root_joint = Ok model1) /\
  (forall name,
      parseTree_root root model placementOffset root_joint = Throw (missing_inertia name) ->
      exists l, l ∈ descendants root /\ link_name l = name /\ lacks_inertia l) /\
  (forall up l model' off,
      lacks_inertia l ->
      visitLink (Some up) l model' off = Throw (missing_inertia (link_name l))).
Proof.
  intros HY model1.
  assert (Hrun : parseTree_root root model placementOffset root_joint =
                 foreach (fun child m => parseTree child m SE3_Identity)
                         (child_links root) model1).
  { unfold parseTree_root, model1. rewrite HY. reflexivity. }
  split; [exact Hrun|]. split; [|split].
  - intros Hnone. rewrite Hrun, Hnone. reflexivity.
  - intros name Hthrow.
    apply parseTree_root_Throw_inv in Hthrow as (l & up' & model' & off' & Hl & Hvisit).
    exists l. split; [exact Hl|]. eapply thrown_missing_inertia. exact Hvisit.
  - intros up l model' off. apply lacks_inertia_throws.
Qed.

End ParserFacts.

(** ** C4: the mass of the Model, in exact arithmetic *)

Section ExactArithmetic.
#[local] Existing Instance R_Scalar.
Open Scope R_scope.

(** Read the operations of [double] as those of [R]. *)
Ltac real_arith :=
  cbv [dadd dsub dmul ddiv d0 d1 d2 d3 double R_Scalar] in *; try lra.

Lemma sum_cons (a : R) (l : list R) : sum (a :: l) = a + sum l.
Proof. reflexivity. Qed.

Lemma sum_app (l k : list R) : sum (l ++ k) = sum l + sum k.
Proof.
  unfold sum. cbv [dadd d0 double R_Scalar].
  induction l as [|a l IH]; simpl; [lra|]. rewrite IH. lra.
Qed.

Lemma total_mass_addBody (model : Model) (parent : Index) (j : JointModel) (placement : SE3)
    (Y : Inertia) (effort velocity lowPos upPos : VectorXd) (jointName bodyName : string)
    (visual : bool) :
  total_mass
    (addBody model parent j placement Y effort velocity lowPos upPos jointName bodyName visual)
  = total_mass model + mass Y.
Proof.
  unfold total_mass; simpl. rewrite fmap_app, sum_app. unfold sum; simpl. real_arith.
Qed.

Lemma sum_mass_alter (f : Inertia -> Inertia) (extra : R) (l : list Inertia) (p : nat) :
  (forall Yp, mass (f Yp) = mass Yp + extra) -> (p < length l)%nat ->
  sum (mass <$> alter f p l) = sum (mass <$> l) + extra.
Proof.
  intros Hf. revert p. induction l as [|Ya l IH]; intros p Hp; simpl in Hp; [lia|].
  destruct p as [|p].
  - change (sum (mass (f Ya) :: (mass <$> l)) = sum (mass Ya :: (mass <$> l)) + extra).
    unfold sum; simpl. rewrite Hf. real_arith.
  - change (mass Ya + sum (mass <$> alter f p l) = mass Ya + sum (mass <$> l) + extra).
    rewrite IH by lia. lra.
Qed.

Lemma total_mass_mergeFixedBody (model : Model) (parent : Index) (placement : SE3)
    (Y : Inertia) :
  (parent < length (inertias model))%nat ->
  total_mass (mergeFixedBody model parent placement Y) = total_mass model + mass Y.
Proof.
  intros Hp. unfold total_mass; simpl. apply sum_mass_alter; [|exact Hp].
  intros Yp. reflexivity.
Qed.

(** A visit adds the mass of the link's inertial block, once; a link without
    a parent joint is passed over. *)
Lemma total_mass_visitLink (up : option LinkRef) (link : Link) (model : Model) (off : SE3)
    (e : Emitted) :
  consistent model -> visitLink up link model off = Ok e ->
  total_mass e.1.1 =
    total_mass model + match parent_joint link with
                       | Some _ => inertial_mass_of link
                       | None => 0
                       end.
Proof.
  intros Hcons. unfold visitLink, inertial_mass_of.
  destruct (parent_joint link) as [joint|].
  - destruct up as [parent_of_link|]; [|discriminate].
    destruct (inertial link) as [Yu|] eqn:HY; simpl.
    + intros Hrun. apply bind_Ok_inv in Hrun as (p & Hp & Hemit). revert Hemit.
      assert (Hlt : (p < length (inertias model))%nat).
      { destruct Hcons as (H0 & _ & H2 & _). rewrite H2.
        eapply parent_index_lt; [exact H0 | exact Hp]. }
      unfold emitJoint. rewrite HY.
      destruct (type joint); try discriminate;
        try (destruct (extractCartesianAxis (axis joint)); try discriminate;
             intros [= <-]; simpl; apply total_mass_addBody).
      intros [= <-]; simpl.
      change (total_mass (addFixedBody ?m _ _ _ _)) with (total_mass m).
      apply total_mass_mergeFixedBody. exact Hlt.
    + destruct (type joint) eqn:Hty; simpl; try discriminate.
      intros Hrun. apply bind_Ok_inv in Hrun as (p & Hp & Hemit). revert Hemit.
      unfold emitJoint. rewrite Hty, HY. intros [= <-]; simpl.
      change (total_mass (addFixedBody ?m _ _ _ _)) with (total_mass m). real_arith.
  - destruct up; [discriminate|]. intros [= <-]. simpl. real_arith.
Qed.


Lemma visitLink_reparented (up : option LinkRef) (link : Link) (model : Model) (off : SE3)
    (e : Emitted) :
  visitLink up link model off = Ok e -> e.2 = None \/ (e.2 = Some up /\ is_Some up).
Proof.
  unfold visitLink.
  destruct (parent_joint link) as [joint|].
  - destruct up as [parent_of_link|]; [|discriminate].
    destruct (_ && _); [discriminate|].
    intros Hrun. apply bind_Ok_inv in Hrun as (p & _ & Hemit). revert Hemit.
    unfold emitJoint.
    destruct (type joint); try discriminate;
      try (destruct (extractCartesianAxis (axis joint)); try discriminate;
           intros [= <-]; left; reflexivity).
    intros [= <-]. right. split; [reflexivity | eexists; reflexivity].
  - destruct up; [discriminate|]. intros [= <-]. left. reflexivity.
Qed.

Lemma visitLink_hung (up : LinkRef) (link : Link) (model : Model) (off : SE3) (e : Emitted) :
  visitLink (Some up) link model off = Ok e -> is_Some (parent_joint link).
Proof.
  unfold visitLink. destruct (parent_joint link); [eexists; reflexivity | discriminate].
Qed.

Lemma descendants_mass (link : Link) :
  sum (inertial_mass_of <$> descendants link) = sum (subtree_mass <$> child_links link).
Proof.
  rewrite descendants_unfold.
  induction (child_links link) as [|c cs IH]; [reflexivity|].
  rewrite !fmap_cons, sum_cons. simpl concat.
  rewrite fmap_cons, sum_cons, fmap_app, sum_app, IH. unfold subtree_mass. lra.
Qed.

Lemma children_mass_accounted (cs : list Link) :
  Forall mass_accounted_at cs ->
  forall (upf : Link -> option LinkRef) (up1 : option LinkRef) (next : SE3)
         (model model' : Model),
    Forall (well_formed up1) cs -> (forall c, c ∈ cs -> is_Some (upf c)) ->
    builder_invariant model ->
    foreach (fun c m => parseTree_at (upf c) c m next) cs model = Ok model' ->
    total_mass model' = total_mass model + sum (subtree_mass <$> cs).
Proof.
  induction 1 as [|c cs Hc _ IH]; intros upf up1 next model model' Hwf Hup Hinv;
    cbn [foreach].
  - intros [= <-]. unfold sum; simpl. real_arith.
  - intros Hrun. apply bind_Ok_inv in Hrun as (model1 & Hfirst & Hrest).
    apply Forall_cons in Hwf as [Hwfc Hwf].
    assert (H1 : total_mass model1 = total_mass model + subtree_mass c).
    { apply (Hc up1 (upf c) model next model1 Hwfc); [apply Hup; left | exact Hinv | exact Hfirst]. }
    assert (Hinv1 : builder_invariant model1).
    { eapply parseTree_at_invariant; eassumption. }
    assert (H2 : total_mass model' = total_mass model1 + sum (subtree_mass <$> cs)).
    { apply (IH upf up1 next model1 model' Hwf); [ | exact Hinv1 | exact Hrest].
      intros c' Hc'. apply Hup. right. exact Hc'. }
    rewrite H2, H1, fmap_cons, sum_cons. lra.
Qed.

Lemma parseTree_at_mass (link : Link) : mass_accounted_at link.
Proof.
  induction link as [name i v pj pl cs IH] using Link_ind.
  intros up0 up model off model' Hwf [P ->] Hinv Hrun.
  set (link := mkLink name i v pj pl cs) in *.
  apply well_formed_unfold in Hwf as [_ Hwf].
  rewrite parseTree_at_unfold in Hrun.
  apply bind_Ok_inv in Hrun as (e & Hvisit & Hloop).
  pose proof (total_mass_visitLink _ _ _ _ _ (proj1 Hinv) Hvisit) as Hmass.
  destruct (visitLink_hung _ _ _ _ _ Hvisit) as [joint Hpj]. rewrite Hpj in Hmass.
  unfold subtree_mass. rewrite descendants_mass.
  assert (Hup : forall c, c ∈ cs -> is_Some (getParent_of_child e.2 c)).
  { intros c Hc. unfold getParent_of_child.
    destruct (visitLink_reparented _ _ _ _ _ Hvisit) as [-> | [-> Hsome]]; [|exact Hsome].
    rewrite Forall_forall in Hwf. specialize (Hwf c Hc).
    apply well_formed_unfold in Hwf as [-> _]. eexists; reflexivity. }
  assert (Hinv1 : builder_invariant e.1.1).
  { eapply visitLink_invariant; eassumption. }
  rewrite (children_mass_accounted cs IH _ (Some (ref_of link)) _ _ _ Hwf Hup Hinv1 Hloop).
  rewrite Hmass. change (child_links link) with cs. lra.
Qed.


Lemma children_of_root_mass (root : Link) (model model' : Model) (off : SE3) :
  well_formed None root -> builder_invariant model ->
  foreach (fun c m => parseTree c m off) (child_links root) model = Ok model' ->
  total_mass model' = total_mass model + sum (inertial_mass_of <$> descendants root).
Proof.
  intros Hwf Hinv Hrun. apply well_formed_unfold in Hwf as [_ Hwf].
  rewrite descendants_mass.
  apply (children_mass_accounted (child_links root)) with (5 := Hrun) (up1 := Some (ref_of root)).
  - apply Forall_forall. intros c _. apply parseTree_at_mass.
  - exact Hwf.
  - intros c Hc. rewrite Forall_forall in Hwf. specialize (Hwf c Hc).
    apply well_formed_unfold in Hwf as [-> _]. eexists; reflexivity.
  - exact Hinv.
Qed.

(** C4, as the code has it.  In exact arithmetic, the total mass of the
    Model built from a URDF tree is the sum of the masses of the inertial
    blocks of the links that are counted, each one once: all the links below
    the root and, with an explicit root joint only, the root link.  With the
    fixed root the inertial block of the root link is never read. *)
Theorem C4_total_mass (root : Link) (filename : string) (root_joint : JointModel)
    (model : Model) (counted : list Link) :
  urdf_tree root ->
  (buildModel (Some root) filename = Ok model /\ counted = descendants root) \/
  (buildModel_root (Some root) filename root_joint = Ok model /\
   counted = root :: descendants root) ->
  total_mass model = sum (inertial_mass_of <$> counted).
Proof.
  intros [Hpj Hwf] [[Hrun ->] | [Hrun ->]]; simpl in Hrun.
  - unfold parseTree in Hrun. rewrite parseTree_at_unfold in Hrun.
    pose proof Hwf as Hwf'. apply well_formed_unfold in Hwf' as [Hup _].
    rewrite Hup in Hrun. unfold visitLink in Hrun. rewrite Hpj in Hrun. simpl in Hrun.
    rewrite (children_of_root_mass root Model_init model SE3_Identity Hwf
               Model_init_invariant Hrun).
    unfold total_mass, sum; simpl. real_arith.
  - unfold parseTree_root in Hrun.
    rewrite (children_of_root_mass root _ model SE3_Identity Hwf) with (2 := Hrun).
    + unfold addBody_nolimits. rewrite total_mass_addBody, fmap_cons, sum_cons.
      unfold inertial_mass_of. destruct (inertial root); unfold total_mass, sum; simpl; real_arith.
    + apply addBody_invariant; [apply Model_init_invariant | simpl; lia].
Qed.

(** C4 fails as stated: with the fixed root, a root link with an inertial
    block of mass 2 leaves the Model with mass 0. *)
Lemma C4_counterexample :
  urdf_tree lone_base /\
  exists model,
    buildModel (Some lone_base) "base.urdf" = Ok model /\
    total_mass model = 0 /\
    sum (inertial_mass_of <$> lone_base :: descendants lone_base) = 2 /\
    total_mass model <> sum (inertial_mass_of <$> lone_base :: descendants lone_base).
Proof.
  split; [split; [reflexivity | split; [reflexivity | exact I]]|].
  exists Model_init. split; [reflexivity|].
  assert (H0 : total_mass Model_init = 0).
  { unfold total_mass, sum; simpl. real_arith. }
  assert (H2 : sum (inertial_mass_of <$> lone_base :: descendants lone_base) = 2).
  { unfold sum, inertial_mass_of; simpl. real_arith. }
  split; [exact H0|]. split; [exact H2|]. rewrite H0, H2. lra.
Qed.

Lemma C4_witness :
  urdf_tree welded /\
  exists model,
    buildModel (Some welded) "welded.urdf" = Ok model /\
    total_mass model = sum (inertial_mass_of <$> descendants welded).
Proof.
  assert (Htree : urdf_tree welded).
  { split; [reflexivity|]. simpl. auto. }
  split; [exact Htree|].
  eexists. split; [reflexivity|].
  apply (C4_total_mass welded "welded.urdf" JointModelFreeFlyer _ _ Htree).
  left. split; reflexivity.
Defined.

End ExactArithmetic.

(** ** C7: the classifier and the unaligned revolute joint, with the example *)

Lemma Reqb_true (a : R) : Reqb a a = true.
Proof. unfold Reqb. destruct (Req_dec_T a a); [reflexivity | congruence]. Qed.

Lemma Reqb_false (a b : R) : a <> b -> Reqb a b = false.
Proof. intros H. unfold Reqb. destruct (Req_dec_T a b); [contradiction | reflexivity]. Qed.

Lemma Reqb_eq (a b : R) : Reqb a b = true <-> a = b.
Proof.
  unfold Reqb. destruct (Req_dec_T a b) as [H|H]; split; intros H'.
  - exact H.
  - reflexivity.
  - discriminate.
  - contradiction.
Qed.

(** Over the reals [==] is equality. *)
Lemma axis_equals_eq (v : @Vector3 R_Scalar) (a b c : R) :
  @axis_equals R_Scalar v a b c = true <-> v = @mkVector3 R_Scalar a b c.
Proof.
  destruct v as [vx vy vz]. unfold axis_equals; simpl.
  rewrite !andb_true_iff, !Reqb_eq. split.
  - intros [[-> ->] ->]. reflexivity.
  - intros [= -> -> ->]. auto.
Qed.

Lemma inv_sqrt_2 : (1 / sqrt 2 = sqrt (1 / 2))%R.
Proof. rewrite sqrt_div_alt by lra. rewrite sqrt_1. reflexivity. Qed.

(** Read the operations of [double] as those of [R]. *)
Ltac over_reals :=
  cbv [dadd dsub dmul ddiv dsqrt d0 d1 d2 double R_Scalar] in *.

Section ExactAxis.
#[local] Existing Instance R_Scalar.
Open Scope R_scope.

Lemma squared_norm_pos (a b c : R) : (a, b, c) <> (0, 0, 0) -> 0 < a * a + b * b + c * c.
Proof.
  intros Hne.
  destruct (Req_dec a 0) as [-> | Ha]; [|nra].
  destruct (Req_dec b 0) as [-> | Hb]; [|nra].
  destruct (Req_dec c 0) as [-> | Hc]; [|nra].
  congruence.
Qed.

(** In exact arithmetic, normalising a vector other than zero gives a vector
    of unit length. *)
Lemma normalize_unit (v : Vector3d) :
  v <> Vector3d_Zero -> vdot (normalize v) (normalize v) = 1.
Proof.
  destruct v as [a b c]. intros Hne.
  assert (Hpos : 0 < a * a + b * b + c * c).
  { apply squared_norm_pos. intros [= -> -> ->]. apply Hne. reflexivity. }
  unfold normalize, vdivs, vdot; simpl. over_reals.
  set (s := a * a + b * b + c * c) in *.
  assert (Hs : sqrt s * sqrt s = s) by (apply sqrt_sqrt; lra).
  assert (Hn : sqrt s <> 0) by (intros H0; rewrite H0 in Hs; lra).
  replace (a / sqrt s * (a / sqrt s) + b / sqrt s * (b / sqrt s) + c / sqrt s * (c / sqrt s))
    with (s / (sqrt s * sqrt s)) by (unfold s; field; exact Hn).
  rewrite Hs. field. lra.
Qed.

(** In exact arithmetic, a vector other than zero is its norm, which is
    positive, times the vector it is normalised to. *)
Lemma normalize_scaled (v : Vector3d) :
  v <> Vector3d_Zero ->
  0 < sqrt (vdot v v) /\
  vx v = sqrt (vdot v v) * vx (normalize v) /\
  vy v = sqrt (vdot v v) * vy (normalize v) /\
  vz v = sqrt (vdot v v) * vz (normalize v).
Proof.
  destruct v as [a b c]. intros Hne.
  assert (Hpos : 0 < a * a + b * b + c * c).
  { apply squared_norm_pos. intros [= -> -> ->]. apply Hne. reflexivity. }
  unfold normalize, vdivs, vdot; simpl. over_reals.
  assert (Hn : 0 < sqrt (a * a + b * b + c * c)) by (apply sqrt_lt_R0; exact Hpos).
  split; [exact Hn|]. repeat split; field; lra.
Qed.

End ExactAxis.

(** C7.  [extractCartesianAxis] answers X, Y or Z only when the axis equals
    (1,0,0), (0,1,0) or (0,0,1) under [==], and unaligned exactly when it
    equals none of them.  A REVOLUTE (or CONTINUOUS) joint with an unaligned
    axis goes to [addBody] as [JointModelRevoluteUnaligned] of the normalised
    axis.  Over the reals, where [==] is equality, the answer is X, Y or Z
    exactly for the three unit vectors, and the axis (1,1,0) is unaligned and
    is stored as (sqrt(1/2), sqrt(1/2), 0); and the normalised axis of every
    axis other than zero has length 1 and the direction of the axis: the
    axis is its norm, which is positive, times the normalised axis. *)
Theorem C7_axis_classifier :
  (forall (Sc : Scalar) (v : @Vector3 Sc),
      (extractCartesianAxis v = AXIS_X -> axis_equals v d1 d0 d0 = true) /\
      (extractCartesianAxis v = AXIS_Y -> axis_equals v d0 d1 d0 = true) /\
      (extractCartesianAxis v = AXIS_Z -> axis_equals v d0 d0 d1 = true) /\
      (extractCartesianAxis v = AXIS_UNALIGNED <->
       axis_equals v d1 d0 d0 = false /\ axis_equals v d0 d1 d0 = false /\
       axis_equals v d0 d0 d1 = false)) /\
  (forall (Sc : Scalar) (model : @Model Sc) (up : option (@LinkRef Sc)) (link : @Link Sc)
          (joint : @Joint Sc) (parent : Index) (placementOffset jointPlacement : @SE3 Sc)
          (Y : @Inertia Sc) (visual : bool),
      type joint = REVOLUTE \/ type joint = CONTINUOUS ->
      extractCartesianAxis (axis joint) = AXIS_UNALIGNED ->
      emitJoint model up link joint parent placementOffset jointPlacement Y visual =
        Ok (addBody model parent
              (JointModelRevoluteUnaligned
                 (normalize (mkVector3d (x (axis joint)) (y (axis joint)) (z (axis joint)))))
              jointPlacement Y
              (limit_vector (joint_limits joint) effort)
              (limit_vector (joint_limits joint) velocity)
              (limit_vector (joint_limits joint) lower)
              (limit_vector (joint_limits joint) upper)
              (joint_name joint) (link_name link) visual,
            SE3_Identity, None)) /\
  (forall v : @Vector3 R_Scalar,
      (extractCartesianAxis v = AXIS_X <-> v = @mkVector3 R_Scalar 1 0 0) /\
      (extractCartesianAxis v = AXIS_Y <-> v = @mkVector3 R_Scalar 0 1 0) /\
      (extractCartesianAxis v = AXIS_Z <-> v = @mkVector3 R_Scalar 0 0 1))%R /\
  (@extractCartesianAxis R_Scalar (@mkVector3 R_Scalar 1 1 0) = AXIS_UNALIGNED /\
   @normalize R_Scalar (@mkVector3d R_Scalar 1 1 0)
   = @mkVector3d R_Scalar (sqrt (1 / 2)) (sqrt (1 / 2)) 0)%R /\
  (forall v : @Vector3d R_Scalar,
      v <> @Vector3d_Zero R_Scalar ->
      let u := @normalize R_Scalar v in
      let n := sqrt (@vdot R_Scalar v v) in
      @vdot R_Scalar u u = 1 /\ 0 < n /\
      vx v = n * vx u /\ vy v = n * vy u /\ vz v = n * vz u)%R.
Proof.
  split; [|split; [|split; [|split; [split|]]]].
  - intros Sc v. apply extractCartesianAxis_spec.
  - intros Sc model up link joint parent off jp Y visual.
    apply revolute_unaligned_emitted.
  - intros v.
    destruct (@extractCartesianAxis_spec R_Scalar v) as (HX & HY & HZ & _).
    rewrite !axis_equals_eq in HX, HY, HZ.
    repeat split; auto; intros ->; unfold extractCartesianAxis; simpl;
      rewrite ?(Reqb_true 1), ?(Reqb_true 0), ?(Reqb_false 1 0), ?(Reqb_false 0 1) by lra;
      reflexivity.
  - unfold extractCartesianAxis; simpl.
    rewrite (Reqb_true 1), !(Reqb_false 1 0) by lra. reflexivity.
  - unfold normalize, vdivs, vdot; simpl.
    replace (1 * 1 + 1 * 1 + 0 * 0)%R with 2%R by ring.
    rewrite inv_sqrt_2. f_equal. unfold Rdiv. apply Rmult_0_l.
  - intros v Hne u n. split; [exact (normalize_unit v Hne)|].
    exact (normalize_scaled v Hne).
Qed.

(** ** C9: the Jacobian proxies *)

Section JacobianFacts.
Context {Sc : Scalar}.
Variable Data : Type.
Variable computeJointJacobians : Model -> Data -> VectorXd -> result Data.
Variable getJointJacobian :
  Model -> Data -> JointIndex -> ReferenceFrame -> Matrix6x -> result (Data * Matrix6x).

(** C9.  [jointJacobian] called with [update_kinematics = true] returns what
    [computeJointJacobians(model, data, q)] followed by
    [getJointJacobian(model, data, jointId, rf)] returns: the same matrix,
    and [data] in the same state. *)
Theorem C9_jacobian_proxy (model : Model) (data : Data) (q : VectorXd) (jointId : JointIndex)
    (rf : ReferenceFrame) :
  jacobian_proxy Data computeJointJacobians getJointJacobian model data q jointId rf true =
  let! data1 := computeJointJacobians model data q in
  get_jacobian_proxy Data getJointJacobian model data1 jointId rf.
Proof.
  unfold jacobian_proxy, get_jacobian_proxy.
  destruct (computeJointJacobians model data q) as [data1|e]; reflexivity.
Qed.

End JacobianFacts.

(** * Further properties of the parser *)

Section CompilationFacts.
Context {Sc : Scalar}.

(** ** The lists of the Model, in traversal order *)

Lemma flat_map_concat {A B : Type} (f : A -> list B) (ls : list (list A)) :
  flat_map f (concat ls) = concat (flat_map f <$> ls).
Proof.
  induction ls as [|l ls IH]; simpl; [reflexivity|].
  rewrite flat_map_app, IH. reflexivity.
Qed.

Lemma fmap_flat_map {A B C : Type} (f : B -> C) (g : A -> list B) (l : list A) :
  f <$> flat_map g l = flat_map (fun a => f <$> g a) l.
Proof.
  induction l as [|a l IH]; simpl; [reflexivity|].
  rewrite fmap_app, IH. reflexivity.
Qed.


(** What a loop over the children appends to a list of the Model, when every
    traversal of a child appends the contributions of the links it visits. *)
Lemma children_column {A : Type} (col : Model -> list A) (contrib : Link -> list A)
    (Q : Link -> Prop) (cs : list Link) :
  Forall (fun c => forall up model off model',
            Forall Q (c :: descendants c) ->
            parseTree_at up c model off = Ok model' ->
            col model' = col model ++ flat_map contrib (c :: descendants c)) cs ->
  forall (upf : Link -> option LinkRef) (next : SE3) (model model' : Model),
    Forall Q (concat ((fun c => c :: descendants c) <$> cs)) ->
    foreach (fun c m => parseTree_at (upf c) c m next) cs model = Ok model' ->
    col model' = col model ++ flat_map contrib (concat ((fun c => c :: descendants c) <$> cs)).
Proof.
  induction 1 as [|c cs Hc _ IH]; intros upf next model model' HQ; cbn [foreach].
  - intros [= <-]. simpl. rewrite app_nil_r. reflexivity.
  - intros Hloop. apply bind_Ok_inv in Hloop as (model1 & Hfirst & Hrest).
    rewrite fmap_cons in HQ |- *. cbn [concat] in HQ |- *.
    apply Forall_app in HQ as [HQc HQ].
    rewrite flat_map_app, app_assoc, <- (Hc _ _ _ _ HQc Hfirst).
    exact (IH _ _ _ _ HQ Hrest).
Qed.

(** A list of the Model to which every visit of a link in [Q] appends what
    the link contributes holds, after the traversal, the contributions of the
    links in the order of the visits. *)
Lemma parseTree_at_column {A : Type} (col : Model -> list A) (contrib : Link -> list A)
    (Q : Link -> Prop) :
  (forall up link model off e,
      Q link -> visitLink up link model off = Ok e -> col e.1.1 = col model ++ contrib link) ->
  forall link up model off model',
    Forall Q (link :: descendants link) ->
    parseTree_at up link model off = Ok model' ->
    col model' = col model ++ flat_map contrib (link :: descendants link).
Proof.
  intros Hvisit. induction link as [name i v pj pl cs IH] using Link_ind.
  intros up model off model' HQ Hrun. set (link := mkLink name i v pj pl cs) in *.
  apply Forall_cons in HQ as [HQl HQd].
  rewrite parseTree_at_unfold in Hrun. apply bind_Ok_inv in Hrun as (e & Hv & Hloop).
  cbn [flat_map]. rewrite app_assoc, <- (Hvisit _ _ _ _ _ HQl Hv).
  rewrite descendants_unfold in HQd |- *.
  exact (children_column col contrib Q cs IH _ _ _ _ HQd Hloop).
Qed.

(** The cases of a visit that returns. *)
Ltac visit_cases H :=
  unfold visitLink in H;
  match type of H with
  | context [parent_joint ?link] =>
      let joint := fresh "joint" in
      let Hpj := fresh "Hpj" in
      destruct (parent_joint link) as [joint|] eqn:Hpj; cbv beta iota in H;
      [ try match type of H with
            | context [match ?up with Some _ => _ | None => _ end] =>
                is_var up; let P := fresh "P" in destruct up as [P|]; [|discriminate H]
            end;
        let Hin := fresh "Hin" in
        destruct (negb (bool_decide (is_Some (inertial link))) && negb (is_FIXED (type joint)))
          eqn:Hin; [discriminate H|];
        let p := fresh "p" in
        let Hp := fresh "Hp" in
        apply bind_Ok_inv in H as (p & Hp & H);
        unfold emitJoint in H;
        let Hty := fresh "Hty" in
        destruct (type joint) eqn:Hty; try discriminate H;
        try match type of H with
            | context [extractCartesianAxis _] =>
                let Hax := fresh "Hax" in
                destruct (extractCartesianAxis (axis joint)) eqn:Hax; try discriminate H
            end;
        injection H as <-
      | first [ discriminate H
              | match type of H with
                | context [match ?up with Some _ => _ | None => _ end] =>
                    is_var up; destruct up; [discriminate H|]
                end;
                injection H as <- ] ]
  end.

(** What one visit appends to the lists of the Model. *)
Lemma visitLink_rows (up : option LinkRef) (link : Link) (model : Model) (off : SE3)
    (e : Emitted) :
  visitLink up link model off = Ok e ->
  names e.1.1 = names model ++ (row_joint <$> emitted_row link) /\
  bodyNames e.1.1 = bodyNames model ++ (row_body <$> emitted_row link) /\
  hasVisual e.1.1 = hasVisual model ++ (row_visual <$> emitted_row link) /\
  limits e.1.1 = limits model ++ (row_limits <$> emitted_row link) /\
  length (joints e.1.1) = length (joints model) + length (emitted_row link) /\
  (fun b => (fix_name b, fix_hasVisual b)) <$> fixedBodies e.1.1 =
    ((fun b => (fix_name b, fix_hasVisual b)) <$> fixedBodies model) ++ collapsed_body link.
Proof.
  intros H. visit_cases H; unfold emitted_row, collapsed_body, hung_by_fixed, stored_limits,
    limit_vector; rewrite Hpj, ?Hty; simpl; rewrite ?app_nil_r, ?length_app, ?fmap_app; simpl;
    destruct (visual link), (inertial link);
    try match goal with |- context [joint_limits ?j] => destruct (joint_limits j) end;
    simpl; repeat split; first [reflexivity | lia].
Qed.


(** ** Which URDF trees are compiled, and the failure of the others *)

Lemma first_error_app (l k : list Link) :
  first_error (l ++ k) = match first_error l with
                         | Some e => Some e
                         | None => first_error k
                         end.
Proof.
  induction l as [|a l IH]; simpl; [reflexivity|].
  destruct (visit_error a); [reflexivity | exact IH].
Qed.

Lemma first_error_None (ls : list Link) :
  first_error ls = None <-> Forall (fun l => visit_error l = None) ls.
Proof.
  induction ls as [|a ls IH]; simpl.
  - split; [constructor | reflexivity].
  - rewrite Forall_cons, <- IH. destruct (visit_error a); split.
    + discriminate.
    + intros [H _]. discriminate.
    + auto.
    + intros [_ H]. exact H.
Qed.

Lemma first_error_Some (ls : list Link) (e : exception) :
  first_error ls = Some e <->
  exists before l after,
    ls = before ++ l :: after /\
    Forall (fun l => visit_error l = None) before /\ visit_error l = Some e.
Proof.
  induction ls as [|a ls IH]; simpl.
  - split; [discriminate|]. intros (before & l & after & H & _).
    destruct before; discriminate.
  - destruct (visit_error a) as [ea|] eqn:Ha; split.
    + intros [= <-]. exists [], a, ls. repeat split; [constructor | exact Ha].
    + intros (before & l & after & H & Hb & Hl). destruct before as [|b before].
      * injection H as <- <-. congruence.
      * injection H as <- _. apply Forall_cons in Hb as [Hb _]. congruence.
    + intros H. apply IH in H as (before & l & after & -> & Hb & Hl).
      exists (a :: before), l, after. repeat split; [constructor; assumption | exact Hl].
    + intros (before & l & after & H & Hb & Hl). apply IH. destruct before as [|b before].
      * injection H as <- <-. congruence.
      * injection H as <- ->. apply Forall_cons in Hb as [_ Hb].
        exists before, l, after. auto.
Qed.

Lemma known_stable (model model' : Model) (added : list string) (up : LinkRef) :
  names model' = names model ++ added -> known model up -> known model' up.
Proof.
  intros Hnames Hk j Hj. rewrite Hnames, elem_of_app. left. exact (Hk j Hj).
Qed.

(** A name the model holds is found. *)
Lemma parent_index_known (model : Model) (up : LinkRef) :
  known model up -> exists p, parent_index model up = Ok p.
Proof.
  intros Hk. unfold parent_index, existJointName, getJointId.
  destruct (ref_parent_joint up) as [j|] eqn:Hj.
  - destruct (find_name (joint_name j) (names model) 0) as [k|] eqn:E; [eauto|].
    apply find_name_None in E. destruct (E (Hk j Hj)).
  - destruct (find_name "root_joint" (names model) 0) as [k|]; eauto.
Qed.

(** The visit of a link whose parent is known fails with the link's own
    failure, and succeeds when it has none. *)
Lemma visitLink_outcome (up : LinkRef) (link : Link) (model : Model) (off : SE3) :
  known model up ->
  match visit_error link with
  | Some e => visitLink (Some up) link model off = Throw e
  | None => exists e, visitLink (Some up) link model off = Ok e
  end.
Proof.
  intros Hk. destruct (parent_index_known model up Hk) as [p Hp].
  unfold visit_error, visitLink.
  destruct (parent_joint link) as [joint|]; [|reflexivity].
  destruct (_ && _); [reflexivity|]. rewrite Hp. simpl. unfold emitJoint.
  destruct (type joint); try reflexivity;
    try (destruct (extractCartesianAxis (axis joint)); try reflexivity); eexists; reflexivity.
Qed.

(** After a visit, the children find the name they look up. *)
Lemma visitLink_known (P : LinkRef) (link : Link) (model : Model) (off : SE3) (e : Emitted) :
  known model P -> visitLink (Some P) link model off = Ok e ->
  forall c, getParent c = Some (ref_of link) ->
            exists P', getParent_of_child e.2 c = Some P' /\ known e.1.1 P'.
Proof.
  intros Hk H c Hc.
  destruct (visitLink_rows _ _ _ _ _ H) as (Hnames & _).
  assert (Hk1 : known e.1.1 P) by (eapply known_stable; eassumption).
  clear Hnames. revert Hk1.
  visit_cases H; simpl; intros Hk1;
    try (exists P; split; [reflexivity | exact Hk1]);
    (exists (ref_of link); split; [exact Hc|]; intros j Hj; simpl in Hj;
     rewrite Hpj in Hj; injection Hj as <-; simpl; rewrite elem_of_app; right; left).
Qed.

(** The names of the model after a traversal: those it had, then those of
    the joints of the links it has visited. *)
Lemma parseTree_at_names (link : Link) (up : option LinkRef) (model : Model) (off : SE3)
    (model' : Model) :
  parseTree_at up link model off = Ok model' ->
  names model' = names model ++ flat_map (fun l => row_joint <$> emitted_row l)
                                         (link :: descendants link).
Proof.
  apply (parseTree_at_column names _ (fun _ => True)).
  - intros up' l m o e _ H. exact (proj1 (visitLink_rows _ _ _ _ _ H)).
  - apply Forall_forall. intros l _. exact I.
Qed.

Lemma children_outcome (cs : list Link) :
  Forall outcome_at cs ->
  forall (upf : Link -> option LinkRef) (up1 : option LinkRef) (next : SE3) (model : Model),
    Forall (well_formed up1) cs ->
    (forall c, c ∈ cs -> exists P, upf c = Some P /\ known model P) ->
    match first_error (concat ((fun c => c :: descendants c) <$> cs)) with
    | Some e => foreach (fun c m => parseTree_at (upf c) c m next) cs model = Throw e
    | None => exists model', foreach (fun c m => parseTree_at (upf c) c m next) cs model = Ok model'
    end.
Proof.
  induction 1 as [|c cs Hc _ IH]; intros upf up1 next model Hwf Hup; cbn [foreach].
  - simpl. eauto.
  - apply Forall_cons in Hwf as [Hwfc Hwf].
    destruct (Hup c ltac:(left)) as (P & HP & Hk).
    rewrite fmap_cons. cbn [concat]. rewrite first_error_app.
    specialize (Hc up1 P model next Hwfc Hk). rewrite HP.
    destruct (first_error (c :: descendants c)) as [e|].
    + rewrite Hc. reflexivity.
    + destruct Hc as [model1 Hrun]. rewrite Hrun. cbn [bind].
      apply (IH upf up1 next model1 Hwf).
      intros c' Hc'. destruct (Hup c' ltac:(right; exact Hc')) as (P' & HP' & Hk').
      exists P'. split; [exact HP'|].
      eapply known_stable; [apply (parseTree_at_names _ _ _ _ _ Hrun) | exact Hk'].
Qed.

Lemma parseTree_at_outcome (link : Link) : outcome_at link.
Proof.
  induction link as [name i v pj pl cs IH] using Link_ind.
  intros up0 up model off Hwf Hk. set (link := mkLink name i v pj pl cs) in *.
  apply well_formed_unfold in Hwf as [_ Hwf].
  rewrite parseTree_at_unfold. cbn [first_error].
  pose proof (visitLink_outcome up link model off Hk) as Hvisit.
  destruct (visit_error link) as [e|]; [rewrite Hvisit; reflexivity|].
  destruct Hvisit as [e Hvisit]. rewrite Hvisit. cbn [bind].
  rewrite descendants_unfold.
  apply (children_outcome cs IH _ (Some (ref_of link)) _ _ Hwf).
  intros c Hc. apply (visitLink_known up link model off e Hk Hvisit).
  rewrite Forall_forall in Hwf. specialize (Hwf c Hc).
  apply well_formed_unfold in Hwf as [Hwf _]. exact Hwf.
Qed.

(** The children of the root of a URDF tree, compiled one after the other
    as both overloads do. *)
Lemma children_of_root_outcome (root : Link) (model : Model) (off : SE3) :
  urdf_tree root ->
  match first_error (descendants root) with
  | Some e => foreach (fun c m => parseTree c m off) (child_links root) model = Throw e
  | None => exists model', foreach (fun c m => parseTree c m off) (child_links root) model
                           = Ok model'
  end.
Proof.
  intros [Hpj Hwf]. apply well_formed_unfold in Hwf as [_ Hwf].
  rewrite descendants_unfold. unfold parseTree.
  apply (children_outcome (child_links root)) with (up1 := Some (ref_of root)).
  - apply Forall_forall. intros c _. apply parseTree_at_outcome.
  - exact Hwf.
  - intros c Hc. rewrite Forall_forall in Hwf. specialize (Hwf c Hc).
    apply well_formed_unfold in Hwf as [-> _]. exists (ref_of root). split; [reflexivity|].
    intros j Hj. simpl in Hj. congruence.
Qed.

(** With the fixed root, the root link of a URDF tree is passed over and the
    compilation is that of its children. *)
Lemma buildModel_children (root : Link) (filename : string) :
  urdf_tree root ->
  buildModel (Some root) filename =
  foreach (fun c m => parseTree c m SE3_Identity) (child_links root) Model_init.
Proof.
  intros [Hpj Hwf]. apply well_formed_unfold in Hwf as [Hup _].
  simpl. unfold parseTree at 1. rewrite parseTree_at_unfold, Hup.
  unfold visitLink. rewrite Hpj. reflexivity.
Qed.

Lemma buildModel_outcome (root : Link) (filename : string) (root_joint : JointModel) :
  urdf_tree root ->
  match first_error (descendants root) with
  | Some e => buildModel (Some root) filename = Throw e /\
              buildModel_root (Some root) filename root_joint = Throw e
  | None => (exists model, buildModel (Some root) filename = Ok model) /\
            (exists model, buildModel_root (Some root) filename root_joint = Ok model)
  end.
Proof.
  intros Htree. rewrite (buildModel_children root filename Htree).
  pose proof (children_of_root_outcome root Model_init SE3_Identity Htree) as H1.
  pose proof (children_of_root_outcome root
                (addBody_nolimits Model_init 0 root_joint SE3_Identity
                   match inertial root with
                   | Some Yu => convertFromUrdf_Inertial Yu
                   | None => Inertia_Identity
                   end "root_joint" (link_name root) true) SE3_Identity Htree) as H2.
  destruct (first_error (descendants root)); split; assumption.
Qed.

(** What it takes for a link to have no failure of its own. *)
Lemma visit_error_None (l : Link) :
  visit_error l = None <->
  exists joint,
    parent_joint l = Some joint /\
    (type joint = FIXED \/
     (is_Some (inertial l) /\
      (type joint = REVOLUTE \/ type joint = CONTINUOUS \/
       (type joint = PRISMATIC /\ extractCartesianAxis (axis joint) <> AXIS_UNALIGNED)))).
Proof.
  unfold visit_error. destruct (parent_joint l) as [joint|].
  - split.
    + intros H. exists joint. split; [reflexivity|].
      destruct (inertial l) as [Yu|]; simpl in H.
      * destruct (type joint); try discriminate; auto;
          right; (split; [eexists; reflexivity|]); auto.
        right. right. split; [reflexivity|].
        destruct (extractCartesianAxis (axis joint)); discriminate.
      * destruct (type joint); try discriminate. auto.
    + intros (j & [= <-] & [Hty | ([Yu HY] & Hty)]).
      * rewrite Hty. simpl. rewrite andb_false_r. reflexivity.
      * rewrite HY. simpl.
        destruct Hty as [-> | [-> | [-> Hax]]]; try reflexivity.
        destruct (extractCartesianAxis (axis joint)); congruence.
  - split; [discriminate | intros (j & [=] & _)].
Qed.

(** The failures a link can have of its own, and what each one says of the
    link. *)
Lemma visit_error_Some (l : Link) (e : exception) :
  visit_error l = Some e ->
  (e = missing_joint (link_name l) /\ parent_joint l = None) \/
  (e = missing_inertia (link_name l) /\ lacks_inertia l) \/
  (e = unaligned_prismatic /\ hung_by_unaligned_prismatic l /\ is_Some (inertial l)) \/
  (e = unsupported_joint /\ is_Some (inertial l) /\
   exists joint, parent_joint l = Some joint /\
                 (type joint = UNKNOWN \/ type joint = FLOATING \/ type joint = PLANAR)).
Proof.
  unfold visit_error, lacks_inertia, hung_by_unaligned_prismatic.
  destruct (parent_joint l) as [joint|]; [|intros [= <-]; auto].
  destruct (inertial l) as [Yu|]; simpl.
  - destruct (type joint) eqn:Hty; try discriminate;
      try (intros [= <-]; right; right; right; split; [reflexivity|];
           split; [eexists; reflexivity|]; exists joint; auto).
    destruct (extractCartesianAxis (axis joint)) eqn:Hax; try discriminate.
    intros [= <-]. right. right. left. split; [reflexivity|].
    split; [exists joint; auto | eexists; reflexivity].
  - destruct (type joint) eqn:Hty; simpl; try discriminate;
      intros [= <-]; right; left; (split; [reflexivity|]); (split; [reflexivity|]);
      exists joint; (split; [reflexivity|]); congruence.
Qed.

(** ** C5: the missing-inertia error *)

(** The missing-inertia failure is that of the links hung by a joint that is
    not fixed and without inertial block, under their own name. *)
Lemma visit_error_missing_inertia (l : Link) (name : string) :
  visit_error l = Some (missing_inertia name) <-> lacks_inertia l /\ link_name l = name.
Proof.
  split.
  - intros H. apply visit_error_Some in H as [[H _] | [[H Hl] | [[H _] | [H _]]]].
    + symmetry in H. destruct (missing_joint_not_missing_inertia _ _ H).
    + split; [exact Hl|]. symmetry. apply missing_inertia_inj. exact H.
    + discriminate H.
    + discriminate H.
  - intros [(Hi & joint & Hpj & Hty) <-]. unfold visit_error. rewrite Hpj, Hi. simpl.
    destruct (type joint); try reflexivity. congruence.
Qed.

(** C5, as the code has it.  With either root, a compilation that fails with
    "<name> - spatial inertia information missing." has a link called <name>
    that is hung by a joint other than FIXED and has no inertial block; no
    link hung by a FIXED joint raises it.  The other way round, a URDF with
    such a link below its root is never compiled to a Model.  On a URDF tree
    the traversal stops at the first link, in its order, that has a failure
    of its own, with that link's error: the compilation fails with the
    missing-inertia error of <name> exactly when that first link is called
    <name>, is hung by a joint other than FIXED and has no inertial block;
    and whenever some link below the root lacks its inertia, both overloads
    fail with the error of that first link. *)
Theorem C5_missing_inertia (urdfTree : option Link) (filename : string)
    (root_joint : JointModel) :
  (forall name,
      buildModel urdfTree filename = Throw (missing_inertia name) ->
      exists root l, urdfTree = Some root /\ l ∈ root :: descendants root /\
                     link_name l = name /\ lacks_inertia l) /\
  (forall name,
      buildModel_root urdfTree filename root_joint = Throw (missing_inertia name) ->
      exists root l, urdfTree = Some root /\ l ∈ descendants root /\
                     link_name l = name /\ lacks_inertia l) /\
  (forall root l,
      urdfTree = Some root -> l ∈ descendants root -> lacks_inertia l ->
      fails (buildModel urdfTree filename) /\
      fails (buildModel_root urdfTree filename root_joint)) /\
  (forall up l model off name,
      hung_by_fixed l = true -> visitLink up l model off <> Throw (missing_inertia name)) /\
  (forall root,
      urdfTree = Some root -> urdf_tree root ->
      (forall name,
          let first_lacks_inertia :=
            exists before l after,
              descendants root = before ++ l :: after /\
              Forall (fun l' => visit_error l' = None) before /\
              lacks_inertia l /\ link_name l = name in
          (buildModel urdfTree filename = Throw (missing_inertia name)
           <-> first_lacks_inertia) /\
          (buildModel_root urdfTree filename root_joint = Throw (missing_inertia name)
           <-> first_lacks_inertia)) /\
      (forall l,
          l ∈ descendants root -> lacks_inertia l ->
          exists before l' after e,
            descendants root = before ++ l' :: after /\
            Forall (fun l'' => visit_error l'' = None) before /\
            visit_error l' = Some e /\
            buildModel urdfTree filename = Throw e /\
            buildModel_root urdfTree filename root_joint = Throw e)) /\
  (forall l name,
      visit_error l = Some (missing_inertia name) <-> lacks_inertia l /\ link_name l = name).
Proof.
  split; [|split; [|split; [|split; [|split]]]].
  - intros name Hrun. destruct urdfTree as [root|]; simpl in Hrun.
    + apply parseTree_at_Throw_inv in Hrun as (l & up' & model' & off' & Hl & Hvisit).
      exists root, l. split; [reflexivity|]. split; [exact Hl|].
      eapply thrown_missing_inertia. exact Hvisit.
    + destruct (invalid_file_not_missing_inertia filename name).
      unfold missing_inertia. f_equal. injection Hrun as Hrun. exact Hrun.
  - intros name Hrun. destruct urdfTree as [root|]; simpl in Hrun.
    + apply parseTree_root_Throw_inv in Hrun as (l & up' & model' & off' & Hl & Hvisit).
      exists root, l. split; [reflexivity|]. split; [exact Hl|].
      eapply thrown_missing_inertia. exact Hvisit.
    + destruct (invalid_file_not_missing_inertia filename name).
      unfold missing_inertia. f_equal. injection Hrun as Hrun. exact Hrun.
  - intros root l -> Hin Hl. split; simpl.
    + apply (parseTree_at_doomed l); [apply lacks_inertia_doomed; assumption|].
      right. assumption.
    + apply (parseTree_root_doomed l); [apply lacks_inertia_doomed|]; assumption.
  - intros up l model off name Hfixed Hrun.
    apply thrown_missing_inertia in Hrun as [_ (_ & joint & Hpj & Hty)].
    unfold hung_by_fixed in Hfixed. rewrite Hpj in Hfixed.
    destruct (type joint); simpl in Hfixed; congruence.
  - intros root -> Htree.
    pose proof (buildModel_outcome root filename root_joint Htree) as H.
    split.
    + intros name first_lacks_inertia.
      assert (Hfirst : first_lacks_inertia <->
                       first_error (descendants root) = Some (missing_inertia name)).
      { unfold first_lacks_inertia. rewrite first_error_Some.
        split; intros (before & l & after & Hd & Hb & Hl); exists before, l, after;
          (split; [exact Hd|]); (split; [exact Hb|]).
        - apply visit_error_missing_inertia. exact Hl.
        - apply visit_error_missing_inertia in Hl. exact Hl. }
      rewrite Hfirst.
      destruct (first_error (descendants root)) as [e0|].
      * destruct H as [-> ->]. split; split; intros [= ->]; reflexivity.
      * destruct H as [[m ->] [m' ->]]. split; split; discriminate.
    + intros l Hin Hl.
      destruct (first_error (descendants root)) as [e0|] eqn:He.
      * destruct H as [H1 H2]. apply first_error_Some in He as (before & l' & after & Hd & Hb & Hl').
        exists before, l', after, e0. auto.
      * apply first_error_None in He. rewrite Forall_forall in He.
        specialize (He l Hin).
        assert (Hv : visit_error l = Some (missing_inertia (link_name l))).
        { apply visit_error_missing_inertia. split; [exact Hl | reflexivity]. }
        congruence.
  - exact visit_error_missing_inertia.
Qed.


(** X1.  On a URDF tree, and with either root, [buildModel] returns a Model
    exactly when no link below the root has a failure of its own: every one
    of them has a parent joint, which is FIXED, or is REVOLUTE, CONTINUOUS
    or PRISMATIC along x, y or z under a link with an inertial block.  On
    such a tree no name lookup of lines 143-144 fails and no pointer
    [getParent()] is null. *)
Theorem X1_accepted_trees (root : Link) (filename : string) (root_joint : JointModel) :
  urdf_tree root ->
  ((exists model, buildModel (Some root) filename = Ok model) <->
   Forall (fun l => visit_error l = None) (descendants root)) /\
  ((exists model, buildModel_root (Some root) filename root_joint = Ok model) <->
   Forall (fun l => visit_error l = None) (descendants root)) /\
  (forall l,
      visit_error l = None <->
      exists joint,
        parent_joint l = Some joint /\
        (type joint = FIXED \/
         (is_Some (inertial l) /\
          (type joint = REVOLUTE \/ type joint = CONTINUOUS \/
           (type joint = PRISMATIC /\ extractCartesianAxis (axis joint) <> AXIS_UNALIGNED))))).
Proof.
  intros Htree. pose proof (buildModel_outcome root filename root_joint Htree) as H.
  rewrite <- first_error_None.
  split; [|split; [|exact visit_error_None]].
  - destruct (first_error (descendants root)) as [e|].
    + destruct H as [-> _]. split; [intros [m Hm]|]; discriminate.
    + destruct H as [H _]. split; auto.
  - destruct (first_error (descendants root)) as [e|].
    + destruct H as [_ ->]. split; [intros [m Hm]|]; discriminate.
    + destruct H as [_ H]. split; auto.
Qed.

(** X2.  On a URDF tree, and with either root, [buildModel] fails with the
    exception [e] exactly when [e] is the failure of the first link, in the
    order of the traversal, that has one of its own: the missing-joint or
    missing-inertia message with that link's name, or one of the two
    assertions of the [switch].  The two overloads fail on the same trees
    with the same exception. *)
Theorem X2_first_failure (root : Link) (filename : string) (root_joint : JointModel)
    (e : exception) :
  urdf_tree root ->
  let first_to_fail :=
    exists before l after,
      descendants root = before ++ l :: after /\
      Forall (fun l => visit_error l = None) before /\ visit_error l = Some e in
  (buildModel (Some root) filename = Throw e <-> first_to_fail) /\
  (buildModel_root (Some root) filename root_joint = Throw e <-> first_to_fail) /\
  (forall l e',
      visit_error l = Some e' ->
      (e' = missing_joint (link_name l) /\ parent_joint l = None) \/
      (e' = missing_inertia (link_name l) /\ lacks_inertia l) \/
      (e' = unaligned_prismatic /\ hung_by_unaligned_prismatic l /\ is_Some (inertial l)) \/
      (e' = unsupported_joint /\ is_Some (inertial l) /\
       exists joint, parent_joint l = Some joint /\
                     (type joint = UNKNOWN \/ type joint = FLOATING \/ type joint = PLANAR))).
Proof.
  intros Htree first_to_fail.
  pose proof (buildModel_outcome root filename root_joint Htree) as H.
  unfold first_to_fail. rewrite <- first_error_Some.
  split; [|split; [|exact visit_error_Some]].
  - destruct (first_error (descendants root)) as [e0|].
    + destruct H as [-> _]. split; intros [= ->]; reflexivity.
    + destruct H as [[m ->] _]. split; discriminate.
  - destruct (first_error (descendants root)) as [e0|].
    + destruct H as [_ ->]. split; intros [= ->]; reflexivity.
    + destruct H as [_ [m ->]]. split; discriminate.
Qed.


(** ** The message for a file that holds no URDF model *)

Lemma invalid_file_not_missing_joint (filename b : string) :
  invalid_file filename <> missing_joint b.
Proof.
  intros [= H]. revert H.
  apply (append_neq_suffix 2 ("The file " +:+ filename) b
           " does not contain a valid URDF model."); simpl; [lia | lia | discriminate].
Qed.

Lemma invalid_file_inj (a b : string) : invalid_file a = invalid_file b -> a = b.
Proof.
  intros [= H]. apply (append_inj_suffix _ _ " does not contain a valid URDF model.").
  exact H.
Qed.

(** No visit fails with the message of [buildModel]. *)
Lemma visitLink_not_invalid_file (up : option LinkRef) (l : Link) (model : Model) (off : SE3)
    (filename : string) :
  visitLink up l model off <> Throw (invalid_file filename).
Proof.
  intros H. apply visitLink_Throw_inv in H as [[H _] | [[H _] | [[s H] | [s H]]]].
  - exact (invalid_file_not_missing_inertia filename _ H).
  - exact (invalid_file_not_missing_joint filename _ H).
  - discriminate.
  - discriminate.
Qed.

(** X3.  With either root, [buildModel] fails with "The file <name> does not
    contain a valid URDF model." exactly when [urdf::parseURDFFile] has
    returned no model, and <name> is then the file name it was given: no
    URDF tree, whatever the names of its links, makes the traversal raise
    that message. *)
Theorem X3_invalid_file (urdfTree : option Link) (filename reported : string)
    (root_joint : JointModel) :
  (buildModel urdfTree filename = Throw (invalid_file reported) <->
   urdfTree = None /\ reported = filename) /\
  (buildModel_root urdfTree filename root_joint = Throw (invalid_file reported) <->
   urdfTree = None /\ reported = filename).
Proof.
  split; (split; [|intros [-> ->]; reflexivity]);
    destruct urdfTree as [root|]; simpl; intros H.
  - apply parseTree_at_Throw_inv in H as (l & up' & model' & off' & _ & H).
    destruct (visitLink_not_invalid_file _ _ _ _ _ H).
  - split; [reflexivity|]. symmetry. apply invalid_file_inj.
    exact (f_equal (fun r => match r with Throw e => e | Ok _ => invalid_file filename end) H).
  - apply parseTree_root_Throw_inv in H as (l & up' & model' & off' & _ & H).
    destruct (visitLink_not_invalid_file _ _ _ _ _ H).
  - split; [reflexivity|]. symmetry. apply invalid_file_inj.
    exact (f_equal (fun r => match r with Throw e => e | Ok _ => invalid_file filename end) H).
Qed.


(** ** The lists of the Model after [buildModel] *)

Lemma buildModel_column {A : Type} (col : Model -> list A) (contrib : Link -> list A)
    (Q : Link -> Prop) :
  (forall up link model off e,
      Q link -> visitLink up link model off = Ok e -> col e.1.1 = col model ++ contrib link) ->
  forall root filename model,
    contrib root = [] -> Q root -> Forall Q (descendants root) ->
    buildModel (Some root) filename = Ok model ->
    col model = col Model_init ++ flat_map contrib (descendants root).
Proof.
  intros Hvisit root filename model Hroot HQr HQ Hrun. simpl in Hrun.
  rewrite (parseTree_at_column col contrib Q Hvisit _ _ _ _ _ (Forall_cons_2 _ _ _ HQr HQ) Hrun).
  cbn [flat_map]. rewrite Hroot. reflexivity.
Qed.

Lemma buildModel_root_column {A : Type} (col : Model -> list A) (contrib : Link -> list A)
    (Q : Link -> Prop) :
  (forall up link model off e,
      Q link -> visitLink up link model off = Ok e -> col e.1.1 = col model ++ contrib link) ->
  forall root filename root_joint model,
    Forall Q (descendants root) ->
    buildModel_root (Some root) filename root_joint = Ok model ->
    col model =
    col (addBody_nolimits Model_init 0 root_joint SE3_Identity
           match inertial root with
           | Some Yu => convertFromUrdf_Inertial Yu
           | None => Inertia_Identity
           end "root_joint" (link_name root) true)
    ++ flat_map contrib (descendants root).
Proof.
  intros Hvisit root filename root_joint model HQ Hrun. simpl in Hrun.
  unfold parseTree_root, parseTree in Hrun. rewrite descendants_unfold in HQ |- *.
  apply (children_column col contrib Q (child_links root)) with (3 := Hrun); [|exact HQ].
  apply Forall_forall. intros c _. apply parseTree_at_column. exact Hvisit.
Qed.

Lemma emitted_row_root (root : Link) : parent_joint root = None -> emitted_row root = [].
Proof. unfold emitted_row. intros ->. reflexivity. Qed.

Lemma Forall_True {A : Type} (l : list A) : Forall (fun _ => True) l.
Proof. apply Forall_forall. intros a _. exact I. Qed.

(** X4.  The per-joint lists of the Model that [buildModel] returns for a
    root link without parent joint hold, after the entry of the universe
    (and, with an explicit root joint, the entry of that joint: the name
    root_joint, the name of the root link as body, the visual flag true and
    no limits), one entry for every link below the root that is hung by a
    joint other than FIXED, in the order of the traversal: the joint's name,
    the link's name, whether the link has a visual, and the joint's limits.
    The links hung by fixed joints leave no entry there. *)
Theorem X4_model_rows (root : Link) (filename : string) (root_joint : JointModel)
    (model : Model) :
  parent_joint root = None ->
  let rows := flat_map emitted_row (descendants root) in
  (buildModel (Some root) filename = Ok model ->
   names model = "universe" :: (row_joint <$> rows) /\
   bodyNames model = "universe" :: (row_body <$> rows) /\
   hasVisual model = false :: (row_visual <$> rows) /\
   limits model = mkLimits [] [] [] [] :: (row_limits <$> rows) /\
   njoints model = 1 + length rows) /\
  (buildModel_root (Some root) filename root_joint = Ok model ->
   names model = "universe" :: "root_joint" :: (row_joint <$> rows) /\
   bodyNames model = "universe" :: link_name root :: (row_body <$> rows) /\
   hasVisual model = false :: true :: (row_visual <$> rows) /\
   limits model = mkLimits [] [] [] [] :: mkLimits [] [] [] [] :: (row_limits <$> rows) /\
   njoints model = 2 + length rows).
Proof.
  intros Hpj rows.
  assert (Hrow : forall {B : Type} (f : Row -> B), f <$> emitted_row root = []).
  { intros B f. rewrite (emitted_row_root root Hpj). reflexivity. }
  split; intros Hrun.
  - assert (Hnames : names model = "universe" :: (row_joint <$> rows)).
    { unfold rows. rewrite fmap_flat_map.
      apply (buildModel_column names _ (fun _ => True)) with (5 := Hrun);
        [|apply Hrow | exact I | apply Forall_True].
      intros up l m o e _ H. apply (visitLink_rows _ _ _ _ _ H). }
    split; [exact Hnames|].
    split; [|split; [|split]]; unfold rows; rewrite ?fmap_flat_map.
    + apply (buildModel_column bodyNames _ (fun _ => True)) with (5 := Hrun);
        [|apply Hrow | exact I | apply Forall_True].
      intros up l m o e _ H. apply (visitLink_rows _ _ _ _ _ H).
    + apply (buildModel_column hasVisual _ (fun _ => True)) with (5 := Hrun);
        [|apply Hrow | exact I | apply Forall_True].
      intros up l m o e _ H. apply (visitLink_rows _ _ _ _ _ H).
    + apply (buildModel_column limits _ (fun _ => True)) with (5 := Hrun);
        [|apply Hrow | exact I | apply Forall_True].
      intros up l m o e _ H. apply (visitLink_rows _ _ _ _ _ H).
    + simpl in Hrun.
      destruct (parseTree_at_invariant _ _ _ _ _ Model_init_invariant Hrun)
        as [(_ & _ & _ & Hj) _].
      unfold njoints. rewrite Hj, Hnames. simpl. rewrite length_fmap. reflexivity.
  - assert (Hnames : names model = "universe" :: "root_joint" :: (row_joint <$> rows)).
    { unfold rows. rewrite fmap_flat_map.
      apply (buildModel_root_column names _ (fun _ => True)) with (3 := Hrun);
        [|apply Forall_True].
      intros up l m o e _ H. apply (visitLink_rows _ _ _ _ _ H). }
    split; [exact Hnames|].
    split; [|split; [|split]]; unfold rows; rewrite ?fmap_flat_map.
    + apply (buildModel_root_column bodyNames _ (fun _ => True)) with (3 := Hrun);
        [|apply Forall_True].
      intros up l m o e _ H. apply (visitLink_rows _ _ _ _ _ H).
    + apply (buildModel_root_column hasVisual _ (fun _ => True)) with (3 := Hrun);
        [|apply Forall_True].
      intros up l m o e _ H. apply (visitLink_rows _ _ _ _ _ H).
    + apply (buildModel_root_column limits _ (fun _ => True)) with (3 := Hrun);
        [|apply Forall_True].
      intros up l m o e _ H. apply (visitLink_rows _ _ _ _ _ H).
    + simpl in Hrun.
      destruct (parseTree_root_invariant _ _ _ _ _ Model_init_invariant Hrun)
        as [(_ & _ & _ & Hj) _].
      unfold njoints. rewrite Hj, Hnames. simpl. rewrite length_fmap. reflexivity.
Qed.


(** ** The fixed bodies *)

Lemma visitLink_fixed_parents (up : option LinkRef) (link : Link) (model : Model) (off : SE3)
    (e : Emitted) :
  builder_invariant model /\ Forall (fun b => fix_parent b < njoints model) (fixedBodies model) ->
  visitLink up link model off = Ok e ->
  builder_invariant e.1.1 /\ Forall (fun b => fix_parent b < njoints e.1.1) (fixedBodies e.1.1).
Proof.
  intros [Hinv Hfix] H. split; [exact (visitLink_invariant _ _ _ _ _ Hinv H)|].
  destruct Hinv as [(Hpos & _ & _ & Hj) _].
  visit_cases H; simpl; try exact Hfix;
    try (eapply Forall_impl; [exact Hfix|]; intros b Hb; simpl in *;
         unfold njoints in *; simpl; rewrite length_app; lia).
  apply Forall_app. split.
  - destruct (inertial link); exact Hfix.
  - repeat constructor. simpl. apply (parent_index_lt _ _ _ Hpos) in Hp.
    unfold njoints. destruct (inertial link); simpl; lia.
Qed.

Lemma collapsed_body_root (root : Link) : parent_joint root = None -> collapsed_body root = [].
Proof. unfold collapsed_body, hung_by_fixed. intros ->. reflexivity. Qed.

(** X5.  The fixed bodies of the Model that [buildModel] returns for a root
    link without parent joint are, in the order of the traversal, the links
    below the root that are hung by a FIXED joint, each under its own name
    and with its own visual flag; and the parent index recorded with each of
    them is the index of a joint of the Model. *)
Theorem X5_fixed_bodies (root : Link) (filename : string) (root_joint : JointModel)
    (model : Model) :
  parent_joint root = None ->
  buildModel (Some root) filename = Ok model \/
  buildModel_root (Some root) filename root_joint = Ok model ->
  (fun b => (fix_name b, fix_hasVisual b)) <$> fixedBodies model
    = flat_map collapsed_body (descendants root) /\
  Forall (fun b => fix_parent b < njoints model) (fixedBodies model).
Proof.
  intros Hpj Hrun.
  assert (Hvisit : forall up l m o e,
             True -> visitLink up l m o = Ok e ->
             (fun b => (fix_name b, fix_hasVisual b)) <$> fixedBodies e.1.1 =
             ((fun b => (fix_name b, fix_hasVisual b)) <$> fixedBodies m) ++ collapsed_body l).
  { intros up l m o e _ H. apply (visitLink_rows _ _ _ _ _ H). }
  assert (Hinit : builder_invariant Model_init /\
                  Forall (fun b => fix_parent b < njoints Model_init) (fixedBodies Model_init)).
  { split; [apply Model_init_invariant | constructor]. }
  destruct Hrun as [Hrun|Hrun]; split.
  - apply (buildModel_column (fun m => (fun b => (fix_name b, fix_hasVisual b)) <$> fixedBodies m)
             collapsed_body (fun _ => True) Hvisit) with (4 := Hrun);
      [apply collapsed_body_root; exact Hpj | exact I | apply Forall_True].
  - simpl in Hrun.
    apply (parseTree_at_preserves _ visitLink_fixed_parents _ _ _ _ _ Hinit Hrun).
  - apply (buildModel_root_column
             (fun m => (fun b => (fix_name b, fix_hasVisual b)) <$> fixedBodies m)
             collapsed_body (fun _ => True) Hvisit) with (2 := Hrun).
    apply Forall_True.
  - simpl in Hrun. unfold parseTree_root in Hrun.
    apply (foreach_preserves
             (fun m => builder_invariant m /\
                       Forall (fun b => fix_parent b < njoints m) (fixedBodies m)))
      with (3 := Hrun).
    + apply Forall_forall. intros c _ st st' Hst.
      apply (parseTree_at_preserves _ visitLink_fixed_parents). exact Hst.
    + split; [|constructor].
      apply addBody_invariant; [apply Model_init_invariant | simpl; lia].
Qed.


(** The numbers of joints and of fixed bodies. *)
Lemma buildModel_counts (root : Link) (filename : string) (root_joint : JointModel)
    (model : Model) :
  parent_joint root = None ->
  (buildModel (Some root) filename = Ok model ->
   njoints model = 1 + length (flat_map emitted_row (descendants root)) /\
   length (fixedBodies model) = length (flat_map collapsed_body (descendants root))) /\
  (buildModel_root (Some root) filename root_joint = Ok model ->
   njoints model = 2 + length (flat_map emitted_row (descendants root)) /\
   length (fixedBodies model) = length (flat_map collapsed_body (descendants root))).
Proof.
  intros Hpj.
  assert (Hnames : forall up l m o e,
             True -> visitLink up l m o = Ok e ->
             names e.1.1 = names m ++ (row_joint <$> emitted_row l)).
  { intros up l m o e _ H. apply (visitLink_rows _ _ _ _ _ H). }
  assert (Hfixed : forall up l m o e,
             True -> visitLink up l m o = Ok e ->
             (fun b => (fix_name b, fix_hasVisual b)) <$> fixedBodies e.1.1 =
             ((fun b => (fix_name b, fix_hasVisual b)) <$> fixedBodies m) ++ collapsed_body l).
  { intros up l m o e _ H. apply (visitLink_rows _ _ _ _ _ H). }
  split; intros Hrun; split.
  - assert (Hr : row_joint <$> emitted_row root = []).
    { rewrite (emitted_row_root root Hpj). reflexivity. }
    pose proof (buildModel_column names _ (fun _ => True) Hnames root filename model
                  Hr I (Forall_True _) Hrun) as Hn.
    simpl in Hrun.
    destruct (parseTree_at_invariant _ _ _ _ _ Model_init_invariant Hrun)
      as [(_ & _ & _ & Hj) _].
    unfold njoints. rewrite Hj, Hn, <- fmap_flat_map. simpl. rewrite length_fmap. reflexivity.
  - pose proof (buildModel_column _ _ (fun _ => True) Hfixed root filename model
                  (collapsed_body_root root Hpj) I (Forall_True _) Hrun) as Hf.
    apply (f_equal length) in Hf. rewrite length_fmap in Hf. exact Hf.
  - pose proof (buildModel_root_column names _ (fun _ => True) Hnames root filename
                  root_joint model (Forall_True _) Hrun) as Hn.
    simpl in Hrun.
    destruct (parseTree_root_invariant _ _ _ _ _ Model_init_invariant Hrun)
      as [(_ & _ & _ & Hj) _].
    unfold njoints. rewrite Hj, Hn, <- fmap_flat_map. simpl. rewrite length_fmap. reflexivity.
  - pose proof (buildModel_root_column _ _ (fun _ => True) Hfixed root filename
                  root_joint model (Forall_True _) Hrun) as Hf.
    apply (f_equal length) in Hf. rewrite length_fmap in Hf. exact Hf.
Qed.

(** A link without failure of its own goes to [addBody] or to
    [addFixedBody], not to both. *)
Lemma one_entry_per_link (ls : list Link) :
  Forall (fun l => visit_error l = None) ls ->
  length (flat_map emitted_row ls) + length (flat_map collapsed_body ls) = length ls.
Proof.
  induction 1 as [|l ls Hl _ IH]; simpl; [reflexivity|].
  rewrite !length_app.
  assert (H1 : length (emitted_row l) + length (collapsed_body l) = 1).
  { apply visit_error_None in Hl as (joint & Hpj & _).
    unfold emitted_row, collapsed_body, hung_by_fixed. rewrite Hpj.
    destruct (is_FIXED (type joint)); reflexivity. }
  lia.
Qed.

(** X6.  On a URDF tree that [buildModel] compiles, every link below the
    root has become one joint of the Model or one fixed body, never both:
    the joints and the fixed bodies of the Model are, together, as many as
    the links below the root, plus the universe and, with an explicit root
    joint, the root joint. *)
Theorem X6_one_entry_per_link (root : Link) (filename : string) (root_joint : JointModel)
    (model : Model) :
  urdf_tree root ->
  (buildModel (Some root) filename = Ok model ->
   njoints model + length (fixedBodies model) = 1 + length (descendants root)) /\
  (buildModel_root (Some root) filename root_joint = Ok model ->
   njoints model + length (fixedBodies model) = 2 + length (descendants root)).
Proof.
  intros Htree.
  pose proof (buildModel_outcome root filename root_joint Htree) as Hout.
  destruct (buildModel_counts root filename root_joint model (proj1 Htree)) as [H1 H2].
  assert (Hall : (exists m, buildModel (Some root) filename = Ok m) \/
                 (exists m, buildModel_root (Some root) filename root_joint = Ok m) ->
                 Forall (fun l => visit_error l = None) (descendants root)).
  { intros Hrun. apply first_error_None.
    destruct (first_error (descendants root)) as [e|]; [|reflexivity].
    destruct Hout as [Ha Hb]. rewrite Ha, Hb in Hrun.
    destruct Hrun as [[m Hm] | [m Hm]]; discriminate. }
  split; intros Hrun.
  - destruct (H1 Hrun) as [-> ->].
    pose proof (one_entry_per_link _ (Hall (or_introl (ex_intro _ model Hrun)))). lia.
  - destruct (H2 Hrun) as [-> ->].
    pose proof (one_entry_per_link _ (Hall (or_intror (ex_intro _ model Hrun)))). lia.
Qed.


(** ** Nothing stored is rewritten *)

Lemma grown_from_refl (model : Model) : grown_from model model.
Proof. unfold grown_from. repeat split; reflexivity. Qed.

Lemma visitLink_grown (model0 : Model) (up : option LinkRef) (link : Link) (model : Model)
    (off : SE3) (e : Emitted) :
  grown_from model0 model -> visitLink up link model off = Ok e -> grown_from model0 e.1.1.
Proof.
  unfold grown_from.
  intros (H1 & H2 & H3 & H4 & H5 & H6 & H7 & H8 & H9 & H10 & H11) H.
  visit_cases H; simpl; rewrite ?length_app; simpl;
    repeat split; try (apply prefix_app_r); try assumption; try lia;
    destruct (inertial link); simpl; rewrite ?length_alter; assumption.
Qed.

(** X7.  [parseTree] only appends to the Model it is handed: when it
    returns, the joints, parents, placements, limits, names, body names,
    visual flags and fixed bodies the Model held are still there, at the
    same indices, and nq, nv and the number of inertias have not dropped.
    The only entries it rewrites are inertias, through [mergeFixedBody]. *)
Theorem X7_append_only (link : Link) (model : Model) (placementOffset : SE3)
    (model' : Model) :
  parseTree link model placementOffset = Ok model' ->
  grown_from model model' /\
  (forall i j, joints model !! i = Some j -> joints model' !! i = Some j) /\
  (forall i p, parents model !! i = Some p -> parents model' !! i = Some p) /\
  (forall i M, jointPlacements model !! i = Some M -> jointPlacements model' !! i = Some M) /\
  (forall i n, names model !! i = Some n -> names model' !! i = Some n) /\
  (forall i b, fixedBodies model !! i = Some b -> fixedBodies model' !! i = Some b).
Proof.
  intros Hrun.
  assert (Hg : grown_from model model').
  { apply (parseTree_at_preserves (grown_from model) (visitLink_grown model)
             link (getParent link) model placementOffset model' (grown_from_refl model) Hrun). }
  split; [exact Hg|].
  destruct Hg as (H1 & H2 & H3 & H4 & H5 & H6 & H7 & H8 & _).
  repeat split; intros i y Hy; eapply prefix_lookup_Some; eassumption.
Qed.


(** X8.  With an explicit root joint, the Model that [buildModel] returns
    holds the universe at index 0 and the root joint at index 1: under the
    universe, at the identity placement, named root_joint, with the name of
    the root link as body name, without limits, and with the visual flag
    true whether the root link has a visual or not.  Nothing the traversal
    of the links does afterwards changes these two entries. *)
Theorem X8_root_joint_entry (root : Link) (filename : string) (root_joint : JointModel)
    (model : Model) :
  buildModel_root (Some root) filename root_joint = Ok model ->
  joints model !! 0 = Some JointModelUniverse /\
  names model !! 0 = Some "universe" /\
  joints model !! 1 = Some root_joint /\
  parents model !! 1 = Some 0 /\
  jointPlacements model !! 1 = Some SE3_Identity /\
  names model !! 1 = Some "root_joint" /\
  bodyNames model !! 1 = Some (link_name root) /\
  hasVisual model !! 1 = Some true /\
  limits model !! 1 = Some (mkLimits [] [] [] []).
Proof.
  intros Hrun. simpl in Hrun. unfold parseTree_root in Hrun.
  set (model1 := addBody_nolimits Model_init 0 root_joint SE3_Identity _ "root_joint"
                                  (link_name root) true) in Hrun.
  assert (Hg : grown_from model1 model).
  { apply (foreach_preserves (grown_from model1)) with (3 := Hrun);
      [|apply grown_from_refl].
    apply Forall_forall. intros c _ st st' Hst.
    apply (parseTree_at_preserves (grown_from model1) (visitLink_grown model1)). exact Hst. }
  destruct Hg as (H1 & H2 & H3 & H4 & H5 & H6 & H7 & _).
  repeat split; (eapply prefix_lookup_Some; [|eassumption]; reflexivity).
Qed.


(** ** The inertias when no joint is fixed *)

Lemma visitLink_inertias (up : option LinkRef) (link : Link) (model : Model) (off : SE3)
    (e : Emitted) :
  hung_by_fixed link = false -> visitLink up link model off = Ok e ->
  inertias e.1.1 = inertias model ++ (row_inertia <$> emitted_row link).
Proof.
  intros Hnf H. revert Hnf. unfold hung_by_fixed, emitted_row.
  visit_cases H; simpl; intros Hnf; try discriminate; rewrite ?app_nil_r; reflexivity.
Qed.

(** X9.  When no link below the root is hung by a FIXED joint, the inertias
    of the Model that [buildModel] returns are, after the entry of the
    universe (and, with an explicit root joint, the converted inertial block
    of the root link, or the identity inertia when it has none), the
    converted inertial blocks of the links below the root, one per joint, in
    the order of the traversal: no stored inertia is altered unless a fixed
    joint is collapsed. *)
Theorem X9_inertias_without_fixed (root : Link) (filename : string)
    (root_joint : JointModel) (model : Model) :
  parent_joint root = None ->
  Forall (fun l => hung_by_fixed l = false) (descendants root) ->
  let rows := flat_map emitted_row (descendants root) in
  (buildModel (Some root) filename = Ok model ->
   inertias model = Inertia_Zero :: (row_inertia <$> rows)) /\
  (buildModel_root (Some root) filename root_joint = Ok model ->
   inertias model =
     Inertia_Zero
     :: match inertial root with
        | Some Yu => convertFromUrdf_Inertial Yu
        | None => Inertia_Identity
        end
     :: (row_inertia <$> rows)).
Proof.
  intros Hpj Hnf rows. unfold rows. rewrite fmap_flat_map. split; intros Hrun.
  - apply (buildModel_column inertias _ (fun l => hung_by_fixed l = false) visitLink_inertias)
      with (4 := Hrun); [|unfold hung_by_fixed; rewrite Hpj; reflexivity | exact Hnf].
    rewrite (emitted_row_root root Hpj). reflexivity.
  - apply (buildModel_root_column inertias _ (fun l => hung_by_fixed l = false)
             visitLink_inertias) with (2 := Hrun). exact Hnf.
Qed.


(** ** Every failure, on any tree *)

(** Where a failure of a visit comes from, case by case. *)
Lemma visitLink_Throw_cases (up : option LinkRef) (l : Link) (model : Model) (off : SE3)
    (e : exception) :
  visitLink up l model off = Throw e ->
  visit_error l = Some e \/
  (e = assertion_failure "link->getParent()!=NULL" /\ up = None /\ is_Some (parent_joint l)) \/
  (exists n, e = unknown_joint_name n /\ n ∉ names model).
Proof.
  unfold visitLink, visit_error.
  destruct (parent_joint l) as [joint|].
  - destruct up as [P|]; [|intros [= <-]; right; left; repeat split; eexists; reflexivity].
    destruct (_ && _); [intros [= <-]; left; reflexivity|].
    intros H. apply bind_Throw_inv in H as [H | (p & _ & H)].
    + right. right. revert H. unfold parent_index, existJointName, getJointId.
      destruct (ref_parent_joint P) as [j|].
      * destruct (find_name (joint_name j) (names model) 0) eqn:E; [discriminate|].
        intros [= <-]. eexists. split; [reflexivity|]. apply find_name_None in E. exact E.
      * destruct (find_name "root_joint" (names model) 0) eqn:E; discriminate.
    + left. revert H. unfold emitJoint.
      destruct (type joint); try discriminate;
        try (destruct (extractCartesianAxis (axis joint)); try discriminate);
        intros [= <-]; reflexivity.
  - destruct up; [intros [= <-]; left; reflexivity | discriminate].
Qed.

(** X10.  Whatever the tree, well formed or not, a failure of [buildModel]
    is one of these: the message for a file without URDF model, when
    [urdf::parseURDFFile] returned none; the failure of its own of a link of
    the tree (missing joint, missing inertia, prismatic axis, joint type);
    the assertion on [getParent()] for a link that has a parent joint and a
    null parent pointer; or a lookup of a joint name the Model does not
    hold.  With an explicit root joint the link is below the root. *)
Theorem X10_failures (urdfTree : option Link) (filename : string) (root_joint : JointModel)
    (e : exception) :
  let at_link (l : Link) :=
    visit_error l = Some e \/
    (e = assertion_failure "link->getParent()!=NULL" /\ is_Some (parent_joint l)) \/
    (exists n, e = unknown_joint_name n) in
  (buildModel urdfTree filename = Throw e ->
   (urdfTree = None /\ e = invalid_file filename) \/
   (exists root l, urdfTree = Some root /\ l ∈ root :: descendants root /\ at_link l)) /\
  (buildModel_root urdfTree filename root_joint = Throw e ->
   (urdfTree = None /\ e = invalid_file filename) \/
   (exists root l, urdfTree = Some root /\ l ∈ descendants root /\ at_link l)).
Proof.
  intros at_link.
  assert (Hat : forall up l model off, visitLink up l model off = Throw e -> at_link l).
  { intros up l model off H. unfold at_link.
    apply visitLink_Throw_cases in H as [H | [(H & _ & Hpj) | (n & H & _)]]; eauto. }
  split; destruct urdfTree as [root|]; simpl; intros H.
  - right. apply parseTree_at_Throw_inv in H as (l & up' & model' & off' & Hl & H).
    exists root, l. eauto.
  - left. split; [reflexivity|]. injection H as <-. reflexivity.
  - right. apply parseTree_root_Throw_inv in H as (l & up' & model' & off' & Hl & H).
    exists root, l. eauto.
  - left. split; [reflexivity|]. injection H as <-. reflexivity.
Qed.


(** ** Looking up the names of the Model *)

Lemma emitted_name_row (link : Link) : emitted_name link = row_joint <$> emitted_row link.
Proof.
  unfold emitted_name, emitted_row. destruct (parent_joint link) as [j|]; [|reflexivity].
  destruct (is_FIXED (type j)); reflexivity.
Qed.

Lemma emitted_names_rows (link : Link) :
  emitted_names link = flat_map (fun l => row_joint <$> emitted_row l) (link :: descendants link).
Proof.
  induction link as [name i v pj pl cs IH] using Link_ind.
  rewrite emitted_names_unfold, descendants_unfold. cbn [flat_map].
  rewrite emitted_name_row. f_equal. simpl child_links.
  induction IH as [|c cs Hc _ IHcs]; [reflexivity|].
  rewrite !fmap_cons. cbn [concat]. rewrite flat_map_app, <- Hc, IHcs. reflexivity.
Qed.

(** In a list without repetition, a name is found where it stands. *)
Lemma find_name_NoDup (l : list string) (i k : nat) (n : string) :
  NoDup l -> l !! i = Some n -> find_name n l k = Some (k + i).
Proof.
  intros Hnd. revert i k. induction Hnd as [|a l Ha _ IH]; intros i k Hi; [discriminate|].
  simpl. destruct i as [|i]; simpl in Hi.
  - injection Hi as ->. rewrite String.eqb_refl. f_equal. lia.
  - destruct (String.eqb_spec a n) as [->|_].
    + destruct Ha. eapply list_elem_of_lookup_2. exact Hi.
    + rewrite (IH i (S k) Hi). f_equal. lia.
Qed.

(** X17.  When the joints of the URDF that are not fixed bear pairwise
    distinct names, none of them universe or root_joint, the names of the
    Model that [buildModel] returns are pairwise distinct, with either root,
    and looking up the name stored at an index gives that index back:
    [getJointId(names[i]) = i] and [existJointName(names[i])]. *)
Theorem X17_name_round_trip (root : Link) (filename : string) (root_joint : JointModel)
    (model : Model) :
  parent_joint root = None ->
  NoDup ("universe" :: "root_joint" :: emitted_names root) ->
  buildModel (Some root) filename = Ok model \/
  buildModel_root (Some root) filename root_joint = Ok model ->
  NoDup (names model) /\
  forall i n, names model !! i = Some n ->
              getJointId model n = Ok i /\ existJointName model n = true.
Proof.
  intros Hpj Hnd Hrun.
  assert (Hvisit : forall up l m o e,
             True -> visitLink up l m o = Ok e ->
             names e.1.1 = names m ++ (row_joint <$> emitted_row l)).
  { intros up l m o e _ H. apply (visitLink_rows _ _ _ _ _ H). }
  assert (Hroot : row_joint <$> emitted_row root = []).
  { rewrite (emitted_row_root root Hpj). reflexivity. }
  rewrite emitted_names_rows in Hnd. cbn [flat_map] in Hnd. rewrite Hroot in Hnd.
  simpl in Hnd.
  assert (Hnames : NoDup (names model)).
  { destruct Hrun as [Hrun|Hrun].
    - rewrite (buildModel_column names _ (fun _ => True) Hvisit root filename model
                 Hroot I (Forall_True _) Hrun).
      simpl. apply NoDup_cons in Hnd as [Hu Hnd']. apply NoDup_cons in Hnd' as [_ Hnd'].
      apply NoDup_cons. split; [|exact Hnd']. intros Hin. apply Hu. right. exact Hin.
    - rewrite (buildModel_root_column names _ (fun _ => True) Hvisit root filename
                 root_joint model (Forall_True _) Hrun).
      exact Hnd. }
  split; [exact Hnames|].
  intros i n Hi. unfold getJointId, existJointName.
  rewrite (find_name_NoDup _ i 0 n Hnames Hi). auto.
Qed.


(** ** Placements *)

Lemma placements_unfold (sel : Link -> bool) (ancestors : list Link) (link : Link) :
  placements sel ancestors link =
  (if sel link then placed_at ancestors link else [])
  ++ concat (placements sel (link :: ancestors) <$> child_links link).
Proof.
  destruct link as [name i v pj pl cs]. simpl. f_equal.
  generalize (mkLink name i v pj pl cs :: ancestors) as chain. intros chain.
  induction cs as [|c cs IH]; simpl; [reflexivity|]. rewrite IH. reflexivity.
Qed.

(** What one visit places, and the offset it hands down. *)
Lemma visitLink_placed (up : option LinkRef) (link : Link) (ancestors : list Link)
    (model : Model) (e : Emitted) :
  visitLink up link model (offset_below ancestors) = Ok e ->
  jointPlacements e.1.1 =
    jointPlacements model ++ (if hung_by_moving link then placed_at ancestors link else []) /\
  fix_placement <$> fixedBodies e.1.1 =
    (fix_placement <$> fixedBodies model)
    ++ (if hung_by_fixed link then placed_at ancestors link else []) /\
  e.1.2 = offset_below (link :: ancestors).
Proof.
  intros H. unfold hung_by_moving, hung_by_fixed, placed_at. cbn [offset_below].
  visit_cases H; simpl; rewrite ?app_nil_r, ?fmap_app; repeat split;
    destruct (inertial link); reflexivity.
Qed.

Lemma children_placed {A : Type} (col : Model -> list A) (place : list Link -> Link -> list A)
    (chain : list Link) (cs : list Link) :
  Forall (fun c => forall up model model',
            parseTree_at up c model (offset_below chain) = Ok model' ->
            col model' = col model ++ place chain c) cs ->
  forall (upf : Link -> option LinkRef) (model model' : Model),
    foreach (fun c m => parseTree_at (upf c) c m (offset_below chain)) cs model = Ok model' ->
    col model' = col model ++ concat (place chain <$> cs).
Proof.
  induction 1 as [|c cs Hc _ IH]; intros upf model model'; cbn [foreach].
  - intros [= <-]. simpl. rewrite app_nil_r. reflexivity.
  - intros Hloop. apply bind_Ok_inv in Hloop as (model1 & Hfirst & Hrest).
    rewrite fmap_cons. cbn [concat]. rewrite app_assoc, <- (Hc _ _ _ Hfirst).
    exact (IH _ _ _ Hrest).
Qed.

Lemma parseTree_at_placed (link : Link) :
  forall ancestors up model model',
    parseTree_at up link model (offset_below ancestors) = Ok model' ->
    jointPlacements model' = jointPlacements model ++ placements hung_by_moving ancestors link /\
    fix_placement <$> fixedBodies model' =
      (fix_placement <$> fixedBodies model) ++ placements hung_by_fixed ancestors link.
Proof.
  induction link as [name i v pj pl cs IH] using Link_ind.
  intros ancestors up model model' Hrun. set (link := mkLink name i v pj pl cs) in *.
  rewrite parseTree_at_unfold in Hrun. apply bind_Ok_inv in Hrun as (e & Hv & Hloop).
  destruct (visitLink_placed _ _ _ _ _ Hv) as (Hj & Hf & Hoff).
  rewrite Hoff in Hloop. rewrite !placements_unfold, !app_assoc, <- Hj, <- Hf.
  change (child_links link) with cs in *. split.
  - apply (children_placed jointPlacements (placements hung_by_moving) (link :: ancestors) cs)
      with (2 := Hloop).
    eapply Forall_impl; [exact IH|]. intros c Hc up' m m' Hrun. apply (Hc _ _ _ _ Hrun).
  - apply (children_placed (fun m => fix_placement <$> fixedBodies m)
             (placements hung_by_fixed) (link :: ancestors) cs) with (2 := Hloop).
    eapply Forall_impl; [exact IH|]. intros c Hc up' m m' Hrun. apply (Hc _ _ _ _ Hrun).
Qed.

(** X19.  The placement stored for a joint, and for a fixed body, is the
    origin of the URDF joint of its link, preceded by the origins of the
    fixed joints that lie between the link and its nearest ancestor that no
    fixed joint hangs, from the top down; a joint right under such an
    ancestor is placed at the identity followed by its own origin.  The
    universe and the explicit root joint are placed at the identity. *)
Theorem X19_placements (root : Link) (filename : string) (root_joint : JointModel)
    (model : Model) :
  parent_joint root = None ->
  (buildModel (Some root) filename = Ok model ->
   jointPlacements model =
     SE3_Identity :: concat (placements hung_by_moving [root] <$> child_links root) /\
   fix_placement <$> fixedBodies model =
     concat (placements hung_by_fixed [root] <$> child_links root)) /\
  (buildModel_root (Some root) filename root_joint = Ok model ->
   jointPlacements model =
     SE3_Identity :: SE3_Identity
     :: concat (placements hung_by_moving [root] <$> child_links root) /\
   fix_placement <$> fixedBodies model =
     concat (placements hung_by_fixed [root] <$> child_links root)) /\
  (forall chain l j,
      parent_joint l = Some j ->
      offset_below (l :: chain) =
        if is_FIXED (type j)
        then SE3_mul (offset_below chain)
                     (convertFromUrdf_Pose (parent_to_joint_origin_transform j))
        else SE3_Identity).
Proof.
  intros Hpj.
  assert (Hoff : offset_below [root] = SE3_Identity).
  { simpl. rewrite Hpj. reflexivity. }
  assert (Hall : Forall (fun c => forall up m m',
                     parseTree_at up c m (offset_below [root]) = Ok m' ->
                     jointPlacements m' = jointPlacements m ++ placements hung_by_moving [root] c /\
                     fix_placement <$> fixedBodies m' =
                       (fix_placement <$> fixedBodies m) ++ placements hung_by_fixed [root] c)
                   (child_links root)).
  { apply Forall_forall. intros c _ up m m'. apply parseTree_at_placed. }
  split; [|split].
  - intros Hrun. simpl in Hrun. unfold parseTree in Hrun.
    destruct (parseTree_at_placed root [] _ _ _ Hrun) as [Hj Hf].
    rewrite Hj, Hf, !placements_unfold. unfold hung_by_moving, hung_by_fixed.
    rewrite Hpj. split; reflexivity.
  - intros Hrun. simpl in Hrun. unfold parseTree_root, parseTree in Hrun.
    rewrite <- Hoff in Hrun. split.
    + rewrite (children_placed jointPlacements (placements hung_by_moving) [root]
                 (child_links root)) with (2 := Hrun).
      * simpl. rewrite Hpj. reflexivity.
      * eapply Forall_impl; [exact Hall|]. intros c Hc up m m' H. apply (Hc _ _ _ H).
    + rewrite (children_placed (fun m => fix_placement <$> fixedBodies m)
                 (placements hung_by_fixed) [root] (child_links root)) with (2 := Hrun).
      * reflexivity.
      * eapply Forall_impl; [exact Hall|]. intros c Hc up m m' H. apply (Hc _ _ _ H).
  - intros chain l j Hl. simpl. rewrite Hl. reflexivity.
Qed.


(** ** The explicit root joint shifts the tree by one index *)

Lemma shifted_addBody (model model_r : Model) (p : nat) (j : JointModel) (M : SE3)
    (Y : Inertia) (a b c d : VectorXd) (jn bn : string) (v : bool) :
  shifted_by_root model model_r ->
  shifted_by_root (addBody model p j M Y a b c d jn bn v)
                  (addBody model_r (S p) j M Y a b c d jn bn v).
Proof.
  intros ((t & Ht & Htr) & Hn & Hf). unfold shifted_by_root, njoints in *. simpl.
  split; [|split; [rewrite !length_app; simpl; lia | exact Hf]].
  exists (t ++ [p]). rewrite Ht, Htr, fmap_app. split; reflexivity.
Qed.

Lemma shifted_fixed (model model_r : Model) (p : nat) (M : SE3) (Y : option Inertia)
    (bn : string) (v : bool) :
  shifted_by_root model model_r ->
  shifted_by_root
    (addFixedBody match Y with Some Y' => mergeFixedBody model p M Y' | None => model end
                  p M bn v)
    (addFixedBody match Y with Some Y' => mergeFixedBody model_r (S p) M Y' | None => model_r end
                  (S p) M bn v).
Proof.
  intros (Hp & Hn & Hf). unfold shifted_by_root, njoints in *.
  destruct Y; simpl; rewrite !fmap_app, Hf; auto.
Qed.

Lemma visit_carry_shift (p : nat) (link : Link) (model model_r : Model) (off : SE3)
    (model1 : Model) (next : SE3) (p1 : nat) :
  shifted_by_root model model_r ->
  visitLink_carry false p link model off = Ok (model1, next, p1) ->
  exists model_r1,
    visitLink_carry false (S p) link model_r off = Ok (model_r1, next, S p1) /\
    shifted_by_root model1 model_r1.
Proof.
  intros Hs. unfold visitLink_carry.
  destruct (parent_joint link) as [joint|]; [|discriminate].
  destruct (_ && _); [discriminate|].
  intros H. apply bind_Ok_inv in H as (e & Hemit & H). injection H as <- <- <-.
  revert Hemit. unfold emitJoint.
  destruct (type joint) eqn:Hty; try discriminate;
    try (destruct (extractCartesianAxis (axis joint)); try discriminate);
    intros [= <-]; simpl;
    try (eexists; split;
         [destruct Hs as (_ & -> & _); reflexivity | apply shifted_addBody; exact Hs]).
  all: eexists; split; [reflexivity|].
  all: destruct (inertial link) as [Yu|].
  all: try exact (shifted_fixed model model_r p _ (Some (convertFromUrdf_Inertial Yu)) _ _ Hs).
  all: exact (shifted_fixed model model_r p _ None _ _ Hs).
Qed.

Lemma children_shift (cs : list Link) :
  Forall shift_at cs ->
  forall (p : nat) (next : SE3) (model model_r model' : Model),
    shifted_by_root model model_r ->
    foreach (fun c m => parseTree_carry false p c m next) cs model = Ok model' ->
    exists model_r',
      foreach (fun c m => parseTree_carry false (S p) c m next) cs model_r = Ok model_r' /\
      shifted_by_root model' model_r'.
Proof.
  induction 1 as [|c cs Hc _ IH]; intros p next model model_r model' Hs; cbn [foreach].
  - intros [= <-]. eauto.
  - intros Hrun. apply bind_Ok_inv in Hrun as (model1 & Hfirst & Hrest).
    destruct (Hc p model model_r next model1 Hs Hfirst) as (model_r1 & -> & Hs1).
    exact (IH p next model1 model_r1 model' Hs1 Hrest).
Qed.

Lemma parseTree_carry_shift (link : Link) : shift_at link.
Proof.
  induction link as [name i v pj pl cs IH] using Link_ind.
  intros p model model_r off model' Hs Hrun.
  rewrite parseTree_carry_unfold in Hrun |- *.
  apply bind_Ok_inv in Hrun as ([[model1 next] p1] & Hvisit & Hloop).
  destruct (visit_carry_shift _ _ _ _ _ _ _ _ Hs Hvisit) as (model_r1 & -> & Hs1).
  exact (children_shift cs IH p1 next model1 model_r1 model' Hs1 Hloop).
Qed.

(** X20.  On a URDF tree whose joints that are not fixed bear pairwise
    distinct names, none of them universe or root_joint, the Model built
    with an explicit root joint is the Model built with the fixed root, one
    index further: the root joint comes in at index 1 under the universe,
    the parent of every other joint, and the parent recorded with every
    fixed body, is the one of the fixed-root Model plus one. *)
Theorem X20_root_joint_shift (root : Link) (filename : string) (root_joint : JointModel)
    (model model_r : Model) :
  urdf_tree root ->
  NoDup ("universe" :: "root_joint" :: emitted_names root) ->
  buildModel (Some root) filename = Ok model ->
  buildModel_root (Some root) filename root_joint = Ok model_r ->
  parents model_r = 0 :: 0 :: (S <$> tail (parents model)) /\
  fix_parent <$> fixedBodies model_r = S <$> (fix_parent <$> fixedBodies model) /\
  njoints model_r = S (njoints model).
Proof.
  intros Htree Hnd Hrun Hrun_r. simpl in Hrun, Hrun_r.
  rewrite (parseTree_root_link_agree root Model_init SE3_Identity 0 Htree) in Hrun.
  - rewrite (parseTree_root_agree root Model_init SE3_Identity root_joint Htree) in Hrun_r;
      [|apply Model_init_invariant | exact Hnd].
    rewrite parseTree_carry_unfold in Hrun. unfold visitLink_carry in Hrun.
    rewrite (proj1 Htree) in Hrun. simpl in Hrun.
    unfold parseTree_root_carry in Hrun_r.
    assert (Hs : shifted_by_root Model_init
                   (addBody_nolimits Model_init 0 root_joint SE3_Identity
                      match inertial root with
                      | Some Yu => convertFromUrdf_Inertial Yu
                      | None => Inertia_Identity
                      end "root_joint" (link_name root) true)).
    { split; [exists []; split; reflexivity | split; reflexivity]. }
    destruct (children_shift (child_links root)
                ltac:(apply Forall_forall; intros c _; apply parseTree_carry_shift)
                0 SE3_Identity _ _ model Hs Hrun) as (model_r' & Hrun' & Hs').
    change (njoints Model_init) with 1 in Hrun_r. rewrite Hrun' in Hrun_r.
    injection Hrun_r as <-.
    destruct Hs' as ((t & Ht & Htr) & Hn & Hf). rewrite Ht, Htr. auto.
  - apply Model_init_invariant.
  - exists (ref_of root). split; [reflexivity|].
    unfold parent_index; simpl. rewrite (proj1 Htree). reflexivity.
  - simpl. apply NoDup_cons in Hnd as [Hu Hnd']. apply NoDup_cons in Hnd' as [_ Hnd'].
    apply NoDup_cons. split; [|exact Hnd']. intros Hin. apply Hu. right. exact Hin.
  - apply NoDup_cons in Hnd as [_ Hnd']. apply NoDup_cons in Hnd' as [Hr _]. exact Hr.
Qed.


(** ** The tree after the traversal *)












(** ** The inertia of every body *)

Lemma welds_unfold (ancestors : list Link) (link : Link) :
  welds ancestors link =
  if hung_by_fixed link
  then own_weld ancestors link ++ welds_below (link :: ancestors) (child_links link)
  else [].
Proof.
  destruct link as [name i v pj pl cs]. unfold welds_below. simpl.
  destruct (hung_by_fixed _); [|reflexivity]. f_equal.
  generalize (mkLink name i v pj pl cs :: ancestors) as chain. intros chain.
  induction cs as [|c cs IH]; simpl; [reflexivity|]. rewrite IH. reflexivity.
Qed.

Lemma joint_inertias_unfold (ancestors : list Link) (link : Link) :
  joint_inertias ancestors link =
  (if hung_by_moving link
   then [foldl merge_welded
               match inertial link with
               | Some Yu => convertFromUrdf_Inertial Yu
               | None => Inertia_Identity
               end
               (welds_below (link :: ancestors) (child_links link))]
   else [])
  ++ concat (joint_inertias (link :: ancestors) <$> child_links link).
Proof.
  destruct link as [name i v pj pl cs]. simpl. f_equal.
  generalize (mkLink name i v pj pl cs :: ancestors) as chain. intros chain.
  induction cs as [|c cs IH]; simpl; [reflexivity|]. rewrite IH. reflexivity.
Qed.

Lemma alter_foldl_foldl {A B : Type} (f : A -> B -> A) (a b : list B) (p : nat) (l : list A) :
  alter (fun y => foldl f y b) p (alter (fun y => foldl f y a) p l)
  = alter (fun y => foldl f y (a ++ b)) p l.
Proof.
  rewrite list_alter_alter_eq. apply list_alter_ext; [|reflexivity].
  intros y _. simpl. rewrite foldl_app. reflexivity.
Qed.

(** One visit of the traversal that carries the parent index: what it does
    to the inertias, and the offset it hands down. *)
Lemma visit_carry_inertias (p : nat) (link : Link) (ancestors : list Link) (model : Model)
    (model1 : Model) (next : SE3) (p' : nat) :
  visitLink_carry false p link model (offset_below ancestors) = Ok (model1, next, p') ->
  length (inertias model) = njoints model -> p < njoints model ->
  length (inertias model1) = njoints model1 /\ p' < njoints model1 /\
  next = offset_below (link :: ancestors) /\
  ((hung_by_fixed link = true /\ hung_by_moving link = false /\ p' = p /\
    inertias model1
    = alter (fun Yp => foldl merge_welded Yp (own_weld ancestors link)) p (inertias model)) \/
   (hung_by_fixed link = false /\ hung_by_moving link = true /\ p' = njoints model /\
    inertias model1 =
      inertias model ++ [match inertial link with
                         | Some Yu => convertFromUrdf_Inertial Yu
                         | None => Inertia_Identity
                         end])).
Proof.
  unfold visitLink_carry, hung_by_fixed, hung_by_moving, own_weld. cbn [offset_below].
  destruct (parent_joint link) as [joint|]; [|discriminate].
  destruct (_ && _) eqn:Hin; [discriminate|].
  intros H Hlen Hp. apply bind_Ok_inv in H as (e & Hemit & H). injection H as <- <- <-.
  revert Hemit. unfold emitJoint.
  destruct (type joint) eqn:Hty; try discriminate;
    try (destruct (extractCartesianAxis (axis joint)); try discriminate);
    intros [= <-]; unfold njoints in *; simpl; rewrite ?length_app; simpl.
  all: try (split; [lia|]; split; [lia|]; split; [reflexivity|]; right; repeat split).
  all: split; [destruct (inertial link); simpl; rewrite ?length_alter; exact Hlen|].
  all: split; [destruct (inertial link); simpl; exact Hp|].
  all: split; [reflexivity|].
  all: left; repeat split.
  all: destruct (inertial link) as [Yu|]; simpl; [reflexivity|].
  all: symmetry; apply list_alter_id; reflexivity.
Qed.

Lemma children_inertias_accounted (cs : list Link) :
  Forall inertias_accounted_at cs ->
  forall (chain : list Link) (q : nat) (model model' : Model),
    foreach (fun c m => parseTree_carry false q c m (offset_below chain)) cs model
      = Ok model' ->
    length (inertias model) = njoints model -> q < njoints model ->
    length (inertias model') = njoints model' /\
    inertias model' =
      alter (fun Yp => foldl merge_welded Yp (welds_below chain cs)) q (inertias model)
      ++ concat (joint_inertias chain <$> cs).
Proof.
  unfold welds_below.
  induction 1 as [|c cs Hc _ IH]; intros chain q model model'; cbn [foreach].
  - intros [= <-] Hlen Hq. split; [exact Hlen|].
    simpl. rewrite app_nil_r. symmetry. apply list_alter_id. reflexivity.
  - intros Hrun Hlen Hq. apply bind_Ok_inv in Hrun as (model1 & Hfirst & Hrest).
    destruct (Hc chain q model model1 Hfirst Hlen Hq) as [Hlen1 Hm1].
    assert (Hq1 : q < njoints model1).
    { rewrite <- Hlen1, Hm1, length_app.
      destruct (hung_by_fixed c); rewrite ?length_alter; lia. }
    destruct (IH chain q model1 model' Hrest Hlen1 Hq1) as [Hlen' Hm'].
    split; [exact Hlen'|].
    rewrite Hm', Hm1, !fmap_cons. cbn [concat].
    rewrite alter_app_l, app_assoc.
    + f_equal. f_equal. destruct (hung_by_fixed c) eqn:Hf.
      * apply alter_foldl_foldl.
      * rewrite (welds_unfold chain c), Hf. reflexivity.
    + destruct (hung_by_fixed c); rewrite ?length_alter; lia.
Qed.


Lemma parseTree_carry_inertias (link : Link) : inertias_accounted_at link.
Proof.
  induction link as [name i v pj pl cs IH] using Link_ind.
  intros ancestors p model model' Hrun Hlen Hp. set (link := mkLink name i v pj pl cs) in *.
  rewrite parseTree_carry_unfold in Hrun.
  apply bind_Ok_inv in Hrun as ([[model1 next] p'] & Hvisit & Hloop). simpl in Hloop.
  destruct (visit_carry_inertias _ _ _ _ _ _ _ Hvisit Hlen Hp)
    as (Hlen1 & Hp' & -> & [(Hf & Hm & -> & Hm1) | (Hf & Hm & -> & Hm1)]);
    destruct (children_inertias_accounted cs IH _ _ _ _ Hloop Hlen1 Hp') as [Hlen' Hm'];
    (split; [exact Hlen'|]);
    rewrite Hm', Hm1, joint_inertias_unfold, Hf, Hm.
  - rewrite alter_foldl_foldl, (welds_unfold ancestors link), Hf. reflexivity.
  - replace (njoints model) with (length (inertias model) + 0) by lia.
    rewrite alter_app_r. simpl. rewrite <- app_assoc. reflexivity.
Qed.

(** X22.  On a URDF tree whose joints that are not fixed bear pairwise
    distinct names, none of them universe or root_joint, the inertia stored
    for every joint of the Model that [buildModel] returns is the converted
    inertial block of its link into which [mergeFixedBody] has merged, one
    after the other in the order of the traversal, the inertial blocks of the
    links welded to it by chains of fixed joints, each at the placement of
    its link, and nothing else.  The universe starts from its own inertia
    and receives what is welded to the root link; the explicit root joint
    starts from the inertial block of the root link.  No rounding is
    involved: the equality holds in binary64 as it does over the reals. *)
Theorem X22_body_inertias (root : Link) (filename : string) (root_joint : JointModel)
    (model : Model) :
  urdf_tree root ->
  NoDup ("universe" :: "root_joint" :: emitted_names root) ->
  (buildModel (Some root) filename = Ok model ->
   inertias model =
     foldl merge_welded Inertia_Zero (welds_below [root] (child_links root))
     :: concat (joint_inertias [root] <$> child_links root)) /\
  (buildModel_root (Some root) filename root_joint = Ok model ->
   inertias model =
     Inertia_Zero
     :: foldl merge_welded
              match inertial root with
              | Some Yu => convertFromUrdf_Inertial Yu
              | None => Inertia_Identity
              end
              (welds_below [root] (child_links root))
     :: concat (joint_inertias [root] <$> child_links root)).
Proof.
  intros Htree Hnd.
  assert (Hbodies : Forall inertias_accounted_at (child_links root)).
  { apply Forall_forall. intros c _. apply parseTree_carry_inertias. }
  assert (Hoff : offset_below [root] = SE3_Identity).
  { simpl. rewrite (proj1 Htree). reflexivity. }
  split; intros Hrun; simpl in Hrun.
  - rewrite (parseTree_root_link_agree root Model_init SE3_Identity 0 Htree) in Hrun.
    + rewrite parseTree_carry_unfold in Hrun. unfold visitLink_carry in Hrun.
      rewrite (proj1 Htree) in Hrun. simpl in Hrun. rewrite <- Hoff in Hrun.
      destruct (children_inertias_accounted _ Hbodies _ _ _ _ Hrun) as [_ Hm];
        [reflexivity | unfold njoints; simpl; lia |].
      rewrite Hm. reflexivity.
    + apply Model_init_invariant.
    + exists (ref_of root). split; [reflexivity|].
      unfold parent_index; simpl. rewrite (proj1 Htree). reflexivity.
    + simpl. apply NoDup_cons in Hnd as [Hu Hnd']. apply NoDup_cons in Hnd' as [_ Hnd'].
      apply NoDup_cons. split; [|exact Hnd']. intros Hin. apply Hu. right. exact Hin.
    + apply NoDup_cons in Hnd as [_ Hnd']. apply NoDup_cons in Hnd' as [Hr _]. exact Hr.
  - rewrite (parseTree_root_agree root Model_init SE3_Identity root_joint Htree) in Hrun;
      [|apply Model_init_invariant | exact Hnd].
    unfold parseTree_root_carry in Hrun.
    assert (Hrun' : foreach (fun c m => parseTree_carry false 1 c m (offset_below [root]))
                      (child_links root)
                      (addBody_nolimits Model_init 0 root_joint SE3_Identity
                         match inertial root with
                         | Some Yu => convertFromUrdf_Inertial Yu
                         | None => Inertia_Identity
                         end "root_joint" (link_name root) true) = Ok model).
    { rewrite Hoff. exact Hrun. }
    destruct (children_inertias_accounted _ Hbodies _ _ _ _ Hrun') as [_ Hm];
      [reflexivity | unfold njoints; simpl; lia |].
    rewrite Hm. reflexivity.
Qed.


(** ** The parents, by name *)

Lemma parent_names_unfold (sel : Link -> bool) (top : string) (ancestors : list Link)
    (link : Link) :
  parent_names sel top ancestors link =
  (if sel link then [parent_name top ancestors] else [])
  ++ concat (parent_names sel top (link :: ancestors) <$> child_links link).
Proof.
  destruct link as [name i v pj pl cs]. simpl. f_equal.
  generalize (mkLink name i v pj pl cs :: ancestors) as chain. intros chain.
  induction cs as [|c cs IH]; simpl; [reflexivity|]. rewrite IH. reflexivity.
Qed.

(** A name is found where it stands. *)
Lemma find_name_lookup (n : string) (l : list string) (i k : nat) :
  find_name n l i = Some k -> l !! (k - i) = Some n.
Proof.
  revert i. induction l as [|a l IH]; intros i; simpl; [discriminate|].
  destruct (String.eqb_spec a n) as [->|_].
  - intros [= <-]. rewrite Nat.sub_diag. reflexivity.
  - intros H. pose proof (find_name_range _ _ _ _ H) as Hr.
    apply IH in H. replace (k - i) with (S (k - S i)) by lia. exact H.
Qed.

Lemma getJointId_lookup (model : Model) (n : string) (p : nat) :
  getJointId model n = Ok p -> names model !! p = Some n.
Proof.
  unfold getJointId. destruct (find_name n (names model) 0) as [k|] eqn:E; [|discriminate].
  intros [= <-]. apply find_name_lookup in E. rewrite Nat.sub_0_r in E. exact E.
Qed.

(** The index that the walk up the tree resolves bears the name of the joint
    of the nearest ancestor that no fixed joint hangs. *)
Lemma effective_parent_named (top : string) (model : Model) (ancestors : list Link) (p : nat) :
  top_joint top model -> effective_parent model ancestors = Ok p ->
  names model !! p = Some (parent_name top ancestors).
Proof.
  intros Htop. unfold effective_parent, parent_name.
  destruct (nearest_non_fixed ancestors) as [a|]; [|discriminate].
  destruct (parent_joint a) as [j|]; [apply getJointId_lookup|].
  unfold existJointName, getJointId.
  destruct Htop as [(-> & H0 & Hno) | (-> & rest & Hn)].
  - apply find_name_None with (i := 0) in Hno. rewrite Hno. intros [= <-]. exact H0.
  - rewrite Hn. simpl. intros [= <-]. reflexivity.
Qed.

Lemma top_joint_grows (top : string) (model model' : Model) (added : list string) :
  names model' = names model ++ added ->
  (top = "universe" -> "root_joint" ∉ added) ->
  top_joint top model -> top_joint top model'.
Proof.
  intros Hn Hadd [(Ht & H0 & Hno) | (Ht & rest & Hr)]; [left | right].
  - split; [exact Ht|]. rewrite Hn. split.
    + apply lookup_app_l_Some. exact H0.
    + rewrite elem_of_app. intros [H | H]; [exact (Hno H) | exact (Hadd Ht H)].
  - split; [exact Ht|]. exists (rest ++ added). rewrite Hn, Hr. reflexivity.
Qed.

Lemma named_grows (model model' : Model) (added : list string) (ps : list nat)
    (ns : list string) :
  names model' = names model ++ added -> named model ps ns -> named model' ps ns.
Proof.
  intros Hn Hps. unfold named in *. eapply Forall2_impl; [exact Hps|]. intros p n H.
  rewrite Hn. apply lookup_app_l_Some. exact H.
Qed.

(** One visit of the walk: the parent it records, and its name. *)
Lemma visit_walk_named (top : string) (ancestors : list Link) (link : Link) (model : Model)
    (off : SE3) (model1 : Model) (next : SE3) :
  visitLink_walk ancestors link model off = Ok (model1, next) ->
  top_joint top model ->
  names model1 = names model ++ emitted_name link /\
  exists ps fs,
    parents model1 = parents model ++ ps /\
    fix_parent <$> fixedBodies model1 = (fix_parent <$> fixedBodies model) ++ fs /\
    named model ps (if hung_by_moving link then [parent_name top ancestors] else []) /\
    named model fs (if hung_by_fixed link then [parent_name top ancestors] else []).
Proof.
  intros H Htop. revert H.
  unfold visitLink_walk, emitted_name, hung_by_moving, hung_by_fixed, named.
  destruct (parent_joint link) as [joint|], ancestors as [|a rest]; try discriminate.
  - destruct (_ && _); [discriminate|].
    intros H. apply bind_Ok_inv in H as (p & Hp & H).
    apply (effective_parent_named top _ _ _ Htop) in Hp.
    apply bind_Ok_inv in H as (e & Hemit & H). injection H as <- <-.
    revert Hemit. unfold emitJoint.
    destruct (type joint) eqn:Hty; try discriminate;
      try (destruct (extractCartesianAxis (axis joint)); try discriminate);
      intros [= <-]; simpl.
    all: try (split; [reflexivity|]; exists [p], []; rewrite app_nil_r;
              repeat split; repeat constructor; exact Hp).
    all: split; [rewrite app_nil_r; destruct (inertial link); reflexivity|].
    all: exists [], [p]; rewrite app_nil_r, fmap_app;
      (split; [destruct (inertial link); reflexivity|]);
      (split; [destruct (inertial link); reflexivity|]);
      split; repeat constructor; exact Hp.
  - intros [= <- <-]. split; [rewrite app_nil_r; reflexivity|].
    exists [], []. rewrite !app_nil_r. repeat split; constructor.
Qed.


Lemma children_parents_named (top : string) (cs : list Link) :
  Forall (parents_named_at top) cs ->
  forall (chain : list Link) (next : SE3) (model model' : Model),
    foreach (fun c m => parseTree_walk chain c m next) cs model = Ok model' ->
    top_joint top model ->
    (top = "universe" -> "root_joint" ∉ concat (emitted_names <$> cs)) ->
    top_joint top model' /\
    names model' = names model ++ concat (emitted_names <$> cs) /\
    exists ps fs,
      parents model' = parents model ++ ps /\
      fix_parent <$> fixedBodies model' = (fix_parent <$> fixedBodies model) ++ fs /\
      named model' ps (concat (parent_names hung_by_moving top chain <$> cs)) /\
      named model' fs (concat (parent_names hung_by_fixed top chain <$> cs)).
Proof.
  induction 1 as [|c cs Hc _ IH]; intros chain next model model'; cbn [foreach].
  - intros [= <-] Htop _. split; [exact Htop|]. simpl. rewrite app_nil_r.
    split; [reflexivity|]. exists [], []. rewrite !app_nil_r. repeat split; constructor.
  - intros Hrun Htop Hroot. apply bind_Ok_inv in Hrun as (model1 & Hfirst & Hrest).
    rewrite fmap_cons in Hroot. cbn [concat] in Hroot.
    destruct (Hc chain model next model1 Hfirst Htop) as (Htop1 & Hn1 & ps1 & fs1 & Hp1 & Hf1 & Hps1 & Hfs1).
    { intros Ht Hin. apply (Hroot Ht). rewrite elem_of_app. left. exact Hin. }
    destruct (IH chain next model1 model' Hrest Htop1)
      as (Htop' & Hn' & ps & fs & Hp & Hf & Hps & Hfs).
    { intros Ht Hin. apply (Hroot Ht). rewrite elem_of_app. right. exact Hin. }
    split; [exact Htop'|]. rewrite !fmap_cons. cbn [concat].
    split; [rewrite Hn', Hn1, app_assoc; reflexivity|].
    exists (ps1 ++ ps), (fs1 ++ fs).
    split; [rewrite Hp, Hp1, app_assoc; reflexivity|].
    split; [rewrite Hf, Hf1, app_assoc; reflexivity|].
    split; apply Forall2_app; try assumption; eapply named_grows; eassumption.
Qed.

Lemma parseTree_walk_parents_named (top : string) (link : Link) : parents_named_at top link.
Proof.
  induction link as [name i v pj pl cs IH] using Link_ind.
  intros ancestors model off model' Hrun Htop Hroot.
  set (link := mkLink name i v pj pl cs) in *.
  rewrite parseTree_walk_unfold in Hrun.
  apply bind_Ok_inv in Hrun as ([model1 next] & Hvisit & Hloop). simpl in Hloop.
  rewrite emitted_names_unfold in Hroot |- *.
  destruct (visit_walk_named top _ _ _ _ _ _ Hvisit Htop)
    as (Hn1 & ps1 & fs1 & Hp1 & Hf1 & Hps1 & Hfs1).
  assert (Htop1 : top_joint top model1).
  { apply (top_joint_grows top model model1 _ Hn1); [|exact Htop].
    intros Ht Hin. apply (Hroot Ht). rewrite elem_of_app. left. exact Hin. }
  destruct (children_parents_named top cs IH (link :: ancestors) next model1 model' Hloop Htop1)
    as (Htop' & Hn' & ps & fs & Hp & Hf & Hps & Hfs).
  { intros Ht Hin. apply (Hroot Ht). rewrite elem_of_app. right. exact Hin. }
  split; [exact Htop'|].
  split; [rewrite Hn', Hn1, app_assoc; reflexivity|].
  exists (ps1 ++ ps), (fs1 ++ fs).
  split; [rewrite Hp, Hp1, app_assoc; reflexivity|].
  split; [rewrite Hf, Hf1, app_assoc; reflexivity|].
  rewrite !parent_names_unfold.
  split; apply Forall2_app; try assumption;
    (eapply named_grows; [|eassumption]); rewrite Hn', Hn1, <- app_assoc; reflexivity.
Qed.

(** X23.  On a URDF tree, the parent that the Model records for a joint, and
    for a fixed body, is a joint that bears the name of the URDF joint of the
    nearest ancestor of the link that no fixed joint hangs, whatever the
    number of fixed joints in between; when that ancestor is the root link,
    it is the joint called root_joint with an explicit root joint, and, with
    the fixed root, the universe, provided no joint of the URDF is called
    root_joint. *)
Theorem X23_parents_by_name (root : Link) (filename : string) (root_joint : JointModel)
    (model : Model) :
  urdf_tree root ->
  (buildModel (Some root) filename = Ok model ->
   "root_joint" ∉ emitted_names root ->
   named model (parents model)
     ("universe" :: concat (parent_names hung_by_moving "universe" [root] <$> child_links root)) /\
   named model (fix_parent <$> fixedBodies model)
     (concat (parent_names hung_by_fixed "universe" [root] <$> child_links root))) /\
  (buildModel_root (Some root) filename root_joint = Ok model ->
   named model (parents model)
     ("universe" :: "universe"
      :: concat (parent_names hung_by_moving "root_joint" [root] <$> child_links root)) /\
   named model (fix_parent <$> fixedBodies model)
     (concat (parent_names hung_by_fixed "root_joint" [root] <$> child_links root))).
Proof.
  intros Htree. destruct (parseTree_walks_up root Model_init SE3_Identity root_joint Htree)
    as [Hw Hwr].
  split.
  - intros Hrun Hroot. simpl in Hrun. rewrite Hw, parseTree_walk_unfold in Hrun.
    unfold visitLink_walk in Hrun. rewrite (proj1 Htree) in Hrun. simpl in Hrun.
    rewrite emitted_names_unfold in Hroot. unfold emitted_name in Hroot.
    rewrite (proj1 Htree) in Hroot. simpl in Hroot.
    destruct (children_parents_named "universe" (child_links root)
                ltac:(apply Forall_forall; intros c _; apply parseTree_walk_parents_named)
                [root] SE3_Identity Model_init model Hrun)
      as (_ & Hn & ps & fs & Hp & Hf & Hps & Hfs).
    { left. repeat split. intros H. apply list_elem_of_singleton in H. discriminate H. }
    { intros _. exact Hroot. }
    rewrite Hp, Hf. simpl. split; [|exact Hfs].
    constructor; [rewrite Hn; reflexivity | exact Hps].
  - intros Hrun. simpl in Hrun. rewrite Hwr in Hrun. unfold parseTree_root_walk in Hrun.
    destruct (children_parents_named "root_joint" (child_links root)
                ltac:(apply Forall_forall; intros c _; apply parseTree_walk_parents_named)
                [root] SE3_Identity _ model Hrun)
      as (_ & Hn & ps & fs & Hp & Hf & Hps & Hfs).
    { right. split; [reflexivity|]. exists []. reflexivity. }
    { discriminate. }
    rewrite Hp, Hf. simpl. split; [|exact Hfs].
    constructor; [rewrite Hn; reflexivity|].
    constructor; [rewrite Hn; reflexivity | exact Hps].
Qed.

End CompilationFacts.


(** * The converters and the classifier, in exact arithmetic *)

Section ExactConversions.
#[local] Existing Instance R_Scalar.
Open Scope R_scope.

(** X11.  [convertFromUrdf] copies the mass and the centre of mass of a URDF
    inertial block as they are (the centre of mass is not rotated), and, in
    exact arithmetic, the tensor it returns, [R * I * R.transpose()], is
    symmetric whatever the quaternion of the block, of unit length or not:
    [I] is filled from the six values ixx, ixy, ixz, iyy, iyz, izz. *)
Theorem X11_inertia_symmetric (Y : Inertial) :
  mass (convertFromUrdf_Inertial Y) = inertial_mass Y /\
  lever (convertFromUrdf_Inertial Y)
    = mkVector3d (x (position (origin Y))) (y (position (origin Y))) (z (position (origin Y))) /\
  transpose (inertia (convertFromUrdf_Inertial Y)) = inertia (convertFromUrdf_Inertial Y).
Proof.
  split; [reflexivity|]. split; [reflexivity|].
  unfold convertFromUrdf_Inertial, transpose, mmul, col0, col1, col2, vdot; simpl.
  f_equal. all: f_equal. all: over_reals; ring.
Qed.


(** X12.  In exact arithmetic, [convertFromUrdf] turns a URDF pose whose
    quaternion has unit length into a rigid transform: the rotation matrix
    is orthogonal, and the translation is the position of the pose, copied
    as it is.  The quaternion is not normalised by the converter. *)
Theorem X12_pose_is_rigid (M : Pose) :
  let q := pose_rotation M in
  qw q * qw q + qx q * qx q + qy q * qy q + qz q * qz q = 1 ->
  let T := convertFromUrdf_Pose M in
  mmul (rotation T) (transpose (rotation T)) = Matrix3d_Identity /\
  mmul (transpose (rotation T)) (rotation T) = Matrix3d_Identity /\
  translation T = mkVector3d (x (position M)) (y (position M)) (z (position M)).
Proof.
  destruct M as [p [a b c w]]. simpl. intros H.
  unfold convertFromUrdf_Pose, Matrix3d_Identity, transpose, mmul, col0, col1, col2, vdot; simpl.
  split; [|split; [|reflexivity]].
  - f_equal. all: f_equal. all: over_reals. all: nsatz.
  - f_equal. all: f_equal. all: over_reals. all: nsatz.
Qed.

(** X13.  In exact arithmetic, a REVOLUTE or CONTINUOUS joint whose axis is
    not zero and is none of (1,0,0), (0,1,0), (0,0,1) goes to [addBody] as
    [JointModelRevoluteUnaligned] of a vector of unit length, the axis
    divided by its norm. *)
Theorem X13_unaligned_axis_unit (model : Model) (up : option LinkRef) (link : Link)
    (joint : Joint) (parent : Index) (placementOffset jointPlacement : SE3) (Y : Inertia)
    (visual : bool) :
  type joint = REVOLUTE \/ type joint = CONTINUOUS ->
  extractCartesianAxis (axis joint) = AXIS_UNALIGNED ->
  axis joint <> mkVector3 0 0 0 ->
  exists u,
    emitJoint model up link joint parent placementOffset jointPlacement Y visual =
      Ok (addBody model parent (JointModelRevoluteUnaligned u) jointPlacement Y
            (limit_vector (joint_limits joint) effort)
            (limit_vector (joint_limits joint) velocity)
            (limit_vector (joint_limits joint) lower)
            (limit_vector (joint_limits joint) upper)
            (joint_name joint) (link_name link) visual,
          SE3_Identity, None) /\
    vdot u u = 1 /\
    u = vdivs (mkVector3d (x (axis joint)) (y (axis joint)) (z (axis joint)))
              (sqrt (x (axis joint) * x (axis joint) + y (axis joint) * y (axis joint)
                     + z (axis joint) * z (axis joint))).
Proof.
  intros Hty Hax Hne. eexists. split; [|split].
  - apply revolute_unaligned_emitted; assumption.
  - apply normalize_unit. intros [= Hx Hy Hz]. apply Hne.
    destruct (axis joint) as [a b c]. simpl in *. congruence.
  - reflexivity.
Qed.

(** X14.  The classifier looks at the axis before it is normalised: in exact
    arithmetic, an axis along x, y or z whose length is positive and other
    than 1 is unaligned, and a revolute joint about it is stored with the
    unit axis (1,0,0), (0,1,0) or (0,0,1) as a [JointModelRevoluteUnaligned],
    not as [JointModelRX], [RY] or [RZ]. *)
Theorem X14_scaled_axis (k : R) :
  0 < k -> k <> 1 ->
  (extractCartesianAxis (mkVector3 k 0 0) = AXIS_UNALIGNED /\
   normalize (mkVector3d k 0 0) = mkVector3d 1 0 0) /\
  (extractCartesianAxis (mkVector3 0 k 0) = AXIS_UNALIGNED /\
   normalize (mkVector3d 0 k 0) = mkVector3d 0 1 0) /\
  (extractCartesianAxis (mkVector3 0 0 k) = AXIS_UNALIGNED /\
   normalize (mkVector3d 0 0 k) = mkVector3d 0 0 1).
Proof.
  intros Hk Hk1.
  assert (Hs : sqrt (k * k) = k) by (apply sqrt_square; lra).
  assert (H0 : forall a : R, 0 / a = 0) by (intros a; unfold Rdiv; apply Rmult_0_l).
  assert (Hkk : k / k = 1) by (field; lra).
  assert (Hk0 : Reqb k 0 = false) by (apply Reqb_false; lra).
  assert (Hk1' : Reqb k 1 = false) by (apply Reqb_false; lra).
  repeat split; unfold extractCartesianAxis, normalize, vdivs, vdot; simpl; over_reals;
    rewrite ?Hk0, ?Hk1', ?(Reqb_true 0), ?(Reqb_false 0 1), ?andb_false_r by lra;
    try reflexivity.
  - replace (k * k + 0 * 0 + 0 * 0) with (k * k) by ring. rewrite Hs, Hkk, !H0. reflexivity.
  - replace (0 * 0 + k * k + 0 * 0) with (k * k) by ring. rewrite Hs, Hkk, !H0. reflexivity.
  - replace (0 * 0 + 0 * 0 + k * k) with (k * k) by ring. rewrite Hs, Hkk, !H0. reflexivity.
Qed.


Lemma X12_witness :
  (let q := pose_rotation shift_x in
   qw q * qw q + qx q * qx q + qy q * qy q + qz q * qz q = 1) /\
  mmul (rotation (convertFromUrdf_Pose shift_x))
       (transpose (rotation (convertFromUrdf_Pose shift_x))) = Matrix3d_Identity /\
  translation (convertFromUrdf_Pose shift_x) = mkVector3d 1 0 0.
Proof.
  assert (H : let q := pose_rotation shift_x in
              qw q * qw q + qx q * qx q + qy q * qy q + qz q * qz q = 1).
  { simpl. over_reals. lra. }
  split; [exact H|].
  destruct (X12_pose_is_rigid shift_x H) as (H1 & _ & H3).
  split; [exact H1 | exact H3].
Defined.

Lemma X13_witness :
  type joint_jr = REVOLUTE /\
  extractCartesianAxis (axis joint_jr) = AXIS_UNALIGNED /\
  axis joint_jr <> mkVector3 0 0 0 /\
  exists u,
    emitJoint Model_init None swivel joint_jr O SE3_Identity SE3_Identity
              Inertia_Identity false
    = Ok (addBody Model_init O (JointModelRevoluteUnaligned u) SE3_Identity Inertia_Identity
            [] [] [] [] "jr" "swivel" false, SE3_Identity, None) /\
    vdot u u = 1.
Proof.
  assert (Hax : extractCartesianAxis (axis joint_jr) = AXIS_UNALIGNED).
  { unfold extractCartesianAxis; simpl.
    rewrite (Reqb_true 1), !(Reqb_false 1 0) by lra. reflexivity. }
  assert (Hne : axis joint_jr <> mkVector3 0 0 0).
  { intros [= H _]. revert H. over_reals. lra. }
  split; [reflexivity|]. split; [exact Hax|]. split; [exact Hne|].
  destruct (X13_unaligned_axis_unit Model_init None swivel joint_jr O SE3_Identity
              SE3_Identity Inertia_Identity false (or_introl eq_refl) Hax Hne)
    as (u & Hu & Hunit & _).
  exists u. split; [exact Hu | exact Hunit].
Defined.

Lemma X14_witness :
  extractCartesianAxis (mkVector3 2 0 0) = AXIS_UNALIGNED /\
  normalize (mkVector3d 2 0 0) = mkVector3d 1 0 0.
Proof.
  apply (X14_scaled_axis 2); lra.
Defined.

End ExactConversions.



(** * The mass of every body, in exact arithmetic *)

Section ExactBodies.
#[local] Existing Instance R_Scalar.
Open Scope R_scope.

Lemma rigid_mass_unfold (link : Link) :
  rigid_mass link = inertial_mass_of link + welded_mass (child_links link).
Proof.
  destruct link as [name i v pj pl cs]. unfold welded_mass. simpl. f_equal.
  induction cs as [|c cs IH]; simpl; [reflexivity|]. rewrite IH. reflexivity.
Qed.

Lemma joint_masses_unfold (link : Link) :
  joint_masses link =
  (if hung_by_moving link then [rigid_mass link] else [])
  ++ concat (joint_masses <$> child_links link).
Proof.
  destruct link as [name i v pj pl cs]. simpl. f_equal.
  induction cs as [|c cs IH]; simpl; [reflexivity|]. rewrite IH. reflexivity.
Qed.

Lemma welded_mass_cons (c : Link) (cs : list Link) :
  welded_mass (c :: cs) = (if hung_by_fixed c then rigid_mass c else 0) + welded_mass cs.
Proof. reflexivity. Qed.

Lemma alter_plus_plus (a b : R) (p : nat) (l : list R) :
  alter (fun m => m + b) p (alter (fun m => m + a) p l) = alter (fun m => m + (a + b)) p l.
Proof.
  rewrite list_alter_alter_eq. apply list_alter_ext; [|reflexivity].
  intros m _. simpl. lra.
Qed.

Lemma alter_plus_0 (p : nat) (l : list R) : alter (fun m => m + 0) p l = l.
Proof. apply list_alter_id. intros m. lra. Qed.

Lemma masses_mergeFixedBody (model : Model) (p : nat) (placement : SE3) (Y : Inertia) :
  mass <$> inertias (mergeFixedBody model p placement Y)
  = alter (fun m => m + mass Y) p (mass <$> inertias model).
Proof.
  simpl. apply list_fmap_alter. apply Forall_forall. intros Yp _. reflexivity.
Qed.

(** One visit of the traversal that carries the parent index. *)
Lemma visit_carry_masses (p : nat) (link : Link) (model : Model) (off : SE3)
    (model1 : Model) (next : SE3) (p' : nat) :
  visitLink_carry false p link model off = Ok (model1, next, p') ->
  length (inertias model) = njoints model -> (p < njoints model)%nat ->
  length (inertias model1) = njoints model1 /\ (p' < njoints model1)%nat /\
  ((hung_by_fixed link = true /\ hung_by_moving link = false /\ p' = p /\
    mass <$> inertias model1
    = alter (fun m => m + inertial_mass_of link) p (mass <$> inertias model)) \/
   (hung_by_fixed link = false /\ hung_by_moving link = true /\ p' = njoints model /\
    mass <$> inertias model1 = (mass <$> inertias model) ++ [inertial_mass_of link])).
Proof.
  unfold visitLink_carry, hung_by_fixed, hung_by_moving, inertial_mass_of.
  destruct (parent_joint link) as [joint|]; [|discriminate].
  destruct (_ && _) eqn:Hin; [discriminate|].
  intros H Hlen Hp. apply bind_Ok_inv in H as (e & Hemit & H). injection H as <- <- <-.
  revert Hemit. unfold emitJoint.
  destruct (type joint) eqn:Hty; try discriminate;
    try (destruct (extractCartesianAxis (axis joint)); try discriminate);
    intros [= <-]; unfold njoints in *; simpl; rewrite ?length_app, ?fmap_app; simpl.
  all: try (split; [lia|]; split; [lia|]; right; repeat split;
            destruct (inertial link); [reflexivity | discriminate Hin]).
  all: split; [destruct (inertial link); simpl; rewrite ?length_alter; exact Hlen|].
  all: split; [destruct (inertial link); simpl; exact Hp|].
  all: left; repeat split.
  all: destruct (inertial link) as [Yu|];
    [apply masses_mergeFixedBody | simpl; symmetry; apply alter_plus_0].
Qed.

Lemma children_bodies_accounted (cs : list Link) :
  Forall bodies_accounted_at cs ->
  forall (q : nat) (next : SE3) (model model' : Model),
    foreach (fun c m => parseTree_carry false q c m next) cs model = Ok model' ->
    length (inertias model) = njoints model -> (q < njoints model)%nat ->
    length (inertias model') = njoints model' /\
    mass <$> inertias model' =
      alter (fun m => m + welded_mass cs) q (mass <$> inertias model)
      ++ concat (joint_masses <$> cs).
Proof.
  induction 1 as [|c cs Hc _ IH]; intros q next model model'; cbn [foreach].
  - intros [= <-] Hlen Hq. split; [exact Hlen|].
    simpl. rewrite app_nil_r. symmetry. apply alter_plus_0.
  - intros Hrun Hlen Hq. apply bind_Ok_inv in Hrun as (model1 & Hfirst & Hrest).
    destruct (Hc q model next model1 Hfirst Hlen Hq) as [Hlen1 Hm1].
    assert (Hq1 : (q < njoints model1)%nat).
    { rewrite <- Hlen1, <- (length_fmap mass), Hm1, length_app.
      destruct (hung_by_fixed c); rewrite ?length_alter, length_fmap; lia. }
    destruct (IH q next model1 model' Hrest Hlen1 Hq1) as [Hlen' Hm'].
    split; [exact Hlen'|].
    rewrite Hm', Hm1, fmap_cons, welded_mass_cons. cbn [concat].
    rewrite alter_app_l, app_assoc.
    + f_equal. f_equal. destruct (hung_by_fixed c).
      * apply alter_plus_plus.
      * apply list_alter_ext; [|reflexivity]. intros m _. lra.
    + destruct (hung_by_fixed c); rewrite ?length_alter, length_fmap; lia.
Qed.

Lemma parseTree_carry_bodies (link : Link) : bodies_accounted_at link.
Proof.
  induction link as [name i v pj pl cs IH] using Link_ind.
  intros p model off model' Hrun Hlen Hp. set (link := mkLink name i v pj pl cs) in *.
  rewrite parseTree_carry_unfold in Hrun.
  apply bind_Ok_inv in Hrun as ([[model1 next] p'] & Hvisit & Hloop). simpl in Hloop.
  destruct (visit_carry_masses _ _ _ _ _ _ _ Hvisit Hlen Hp)
    as (Hlen1 & Hp' & [(Hf & Hm & -> & Hm1) | (Hf & Hm & -> & Hm1)]);
    destruct (children_bodies_accounted cs IH _ _ _ _ Hloop Hlen1 Hp') as [Hlen' Hm'];
    (split; [exact Hlen'|]);
    rewrite Hm', Hm1, joint_masses_unfold, Hf, Hm, rigid_mass_unfold.
  - rewrite alter_plus_plus. reflexivity.
  - replace (njoints model) with (length (mass <$> inertias model) + 0)%nat
      by (rewrite length_fmap; lia).
    rewrite alter_app_r. simpl. rewrite <- app_assoc. reflexivity.
Qed.


(** X18.  In exact arithmetic, on a URDF tree whose joints that are not
    fixed bear pairwise distinct names, none of them universe or root_joint,
    the body of every joint of the Model that [buildModel] returns has the
    mass of its link plus the masses of the links welded to it by chains of
    fixed joints, and of no other link: [mergeFixedBody] reaches the joint of
    the nearest ancestor that is not welded.  The universe carries what is
    welded to the root link (with the fixed root; the inertial block of the
    root link itself is left out), the explicit root joint carries the root
    link and what is welded to it. *)
Theorem X18_body_masses (root : Link) (filename : string) (root_joint : JointModel)
    (model : Model) :
  urdf_tree root ->
  NoDup ("universe" :: "root_joint" :: emitted_names root) ->
  (buildModel (Some root) filename = Ok model ->
   mass <$> inertias model =
     welded_mass (child_links root) :: concat (joint_masses <$> child_links root)) /\
  (buildModel_root (Some root) filename root_joint = Ok model ->
   mass <$> inertias model =
     0 :: rigid_mass root :: concat (joint_masses <$> child_links root)).
Proof.
  intros Htree Hnd.
  assert (Hbodies : Forall bodies_accounted_at (child_links root)).
  { apply Forall_forall. intros c _. apply parseTree_carry_bodies. }
  split; intros Hrun; simpl in Hrun.
  - rewrite (parseTree_root_link_agree root Model_init SE3_Identity 0%nat Htree) in Hrun.
    + rewrite parseTree_carry_unfold in Hrun. unfold visitLink_carry in Hrun.
      rewrite (proj1 Htree) in Hrun. simpl in Hrun.
      destruct (children_bodies_accounted _ Hbodies _ _ _ _ Hrun) as [_ Hm];
        [reflexivity | unfold njoints; simpl; lia |].
      rewrite Hm. simpl. f_equal. over_reals. lra.
    + apply Model_init_invariant.
    + exists (ref_of root). split; [reflexivity|].
      unfold parent_index; simpl. rewrite (proj1 Htree). reflexivity.
    + simpl. apply NoDup_cons in Hnd as [Hu Hnd']. apply NoDup_cons in Hnd' as [_ Hnd'].
      apply NoDup_cons. split; [|exact Hnd']. intros Hin. apply Hu. right. exact Hin.
    + apply NoDup_cons in Hnd as [_ Hnd']. apply NoDup_cons in Hnd' as [Hr _]. exact Hr.
  - rewrite (parseTree_root_agree root Model_init SE3_Identity root_joint Htree) in Hrun;
      [|apply Model_init_invariant | exact Hnd].
    unfold parseTree_root_carry in Hrun.
    destruct (children_bodies_accounted _ Hbodies _ _ _ _ Hrun) as [_ Hm];
      [reflexivity | unfold njoints; simpl; lia |].
    rewrite Hm, rigid_mass_unfold. unfold inertial_mass_of.
    destruct (inertial root); simpl; reflexivity.
Qed.


Lemma X18_witness :
  urdf_tree welded /\
  NoDup ("universe" :: "root_joint" :: emitted_names welded) /\
  exists model,
    buildModel (Some welded) "welded.urdf" = Ok model /\
    mass <$> inertias model =
      welded_mass (child_links welded) :: concat (joint_masses <$> child_links welded).
Proof.
  assert (Htree : urdf_tree welded).
  { split; [reflexivity|]. simpl. auto. }
  assert (Hnd : NoDup ("universe" :: "root_joint" :: emitted_names welded)).
  { change (NoDup ["universe"; "root_joint"]).
    repeat (apply NoDup_cons; split;
            [intros H; repeat (apply elem_of_cons in H as [H|H]; [discriminate|]);
             apply elem_of_nil in H; exact H|]).
    apply NoDup_nil. exact I. }
  split; [exact Htree|]. split; [exact Hnd|].
  eexists. split; [reflexivity|].
  exact (proj1 (X18_body_masses welded "welded.urdf" JointModelFreeFlyer _ Htree Hnd) eq_refl).
Defined.

End ExactBodies.

(** * The Jacobian proxies without update *)

Section ProxyFacts.
Context {Sc : Scalar}.
Variable Data : Type.
Variable computeJointJacobians : Model -> Data -> VectorXd -> result Data.
Variable getJointJacobian :
  Model -> Data -> JointIndex -> ReferenceFrame -> Matrix6x -> result (Data * Matrix6x).
Variable getJointJacobianTimeVariation :
  Model -> Data -> JointIndex -> ReferenceFrame -> Matrix6x -> result (Data * Matrix6x).

(** X15.  [jointJacobian] called with [update_kinematics = false] does not
    run [computeJointJacobians] and does not read [q]: it returns what
    [getJointJacobian] returns on the same model and data, whatever [q] and
    whatever [computeJointJacobians] would have done, a failure included.
    The matrix the three proxies hand to the algorithm they call has six
    rows of [model.nv] zeros. *)
Theorem X15_jacobian_without_update (model : Model) (data : Data) (q q' : VectorXd)
    (jointId : JointIndex) (rf : ReferenceFrame)
    (other : Model -> Data -> VectorXd -> result Data) :
  jacobian_proxy Data computeJointJacobians getJointJacobian model data q jointId rf false =
    get_jacobian_proxy Data getJointJacobian model data jointId rf /\
  jacobian_proxy Data computeJointJacobians getJointJacobian model data q jointId rf false =
    jacobian_proxy Data other getJointJacobian model data q' jointId rf false /\
  get_jacobian_proxy Data getJointJacobian model data jointId rf =
    getJointJacobian model data jointId rf (Matrix6x_Zero (nv model)) /\
  get_jacobian_time_variation_proxy Data getJointJacobianTimeVariation model data jointId rf =
    getJointJacobianTimeVariation model data jointId rf (Matrix6x_Zero (nv model)) /\
  length (Matrix6x_Zero (nv model)) = 6 /\
  Forall (fun row => row = replicate (nv model) d0) (Matrix6x_Zero (nv model)).
Proof.
  unfold jacobian_proxy, get_jacobian_proxy, get_jacobian_time_variation_proxy, Matrix6x_Zero.
  repeat split; try reflexivity.
  repeat constructor.
Qed.

End ProxyFacts.


(** * The classifier in binary64 *)

Lemma float_eqb_one (f : float) : PrimFloat.eqb f 1 = true <-> f = 1%float.
Proof.
  split; [|intros ->; reflexivity].
  rewrite FloatAxioms.eqb_spec. intros H. apply Prim2SF_inj.
  change (Prim2SF 1) with (S754_finite false 4503599627370496 (-52)) in *.
  destruct (Prim2SF f) as [s|s| |s m e]; try discriminate H.
  - destruct s; discriminate H.
  - unfold SFeqb, SFcompare in H. destruct s; [discriminate H|].
    destruct (Z.compare e (-52)) eqn:E; try discriminate H.
    apply Z.compare_eq in E. subst e.
    destruct (Pos.compare_cont Eq m 4503599627370496) eqn:Em; try discriminate H.
    apply Pos.compare_eq in Em. subst m. reflexivity.
Qed.

Lemma float_eqb_zero (f : float) : PrimFloat.eqb f 0 = true <-> is_zero f.
Proof.
  split; [|intros [-> | ->]; reflexivity].
  rewrite FloatAxioms.eqb_spec. intros H.
  change (Prim2SF 0) with (S754_zero false) in *.
  destruct (Prim2SF f) as [s|s| |s m e] eqn:E; try discriminate H.
  - destruct s; [right | left]; apply Prim2SF_inj; rewrite E; reflexivity.
  - destruct s; discriminate H.
  - destruct s; discriminate H.
Qed.

Lemma float_axis_equals (v : @Vector3 float_Scalar) :
  (@axis_equals float_Scalar v 1%float 0%float 0%float = true <->
   x v = 1%float /\ is_zero (y v) /\ is_zero (z v)) /\
  (@axis_equals float_Scalar v 0%float 1%float 0%float = true <->
   is_zero (x v) /\ y v = 1%float /\ is_zero (z v)) /\
  (@axis_equals float_Scalar v 0%float 0%float 1%float = true <->
   is_zero (x v) /\ is_zero (y v) /\ z v = 1%float).
Proof.
  unfold axis_equals; simpl.
  rewrite !andb_true_iff, !float_eqb_one, !float_eqb_zero. tauto.
Qed.

(** X16.  In binary64, [extractCartesianAxis] answers X exactly for the
    axes whose first component is 1 and whose two others are zeros of
    either sign, and likewise for Y and Z: [==] does not tell +0 from -0, so
    (1, -0, 0) is along x.  Any other axis is unaligned, among them every
    axis with a NaN component. *)
Theorem X16_classifier_binary64 (v : @Vector3 float_Scalar) :
  (@extractCartesianAxis float_Scalar v = AXIS_X <->
   x v = 1%float /\ is_zero (y v) /\ is_zero (z v)) /\
  (@extractCartesianAxis float_Scalar v = AXIS_Y <->
   is_zero (x v) /\ y v = 1%float /\ is_zero (z v)) /\
  (@extractCartesianAxis float_Scalar v = AXIS_Z <->
   is_zero (x v) /\ is_zero (y v) /\ z v = 1%float) /\
  (x v = nan \/ y v = nan \/ z v = nan ->
   @extractCartesianAxis float_Scalar v = AXIS_UNALIGNED).
Proof.
  destruct (float_axis_equals v) as (HX & HY & HZ).
  destruct (@extractCartesianAxis_spec float_Scalar v) as (SX & SY & SZ & SU).
  assert (Hx : @axis_equals float_Scalar v 1%float 0%float 0%float = true ->
               @extractCartesianAxis float_Scalar v = AXIS_X).
  { intros H. unfold extractCartesianAxis. unfold axis_equals in H. simpl in *.
    rewrite H. reflexivity. }
  assert (Hy : @axis_equals float_Scalar v 0%float 1%float 0%float = true ->
               @extractCartesianAxis float_Scalar v = AXIS_Y).
  { intros H. unfold extractCartesianAxis. unfold axis_equals in H. simpl in *.
    rewrite H. apply HY in H as ([-> | ->] & _ & _); reflexivity. }
  assert (Hz : @axis_equals float_Scalar v 0%float 0%float 1%float = true ->
               @extractCartesianAxis float_Scalar v = AXIS_Z).
  { intros H. unfold extractCartesianAxis. unfold axis_equals in H. simpl in *.
    rewrite H. apply HZ in H as ([-> | ->] & [-> | ->] & _); reflexivity. }
  split; [|split; [|split]].
  - rewrite <- HX. split; [exact SX | exact Hx].
  - rewrite <- HY. split; [exact SY | exact Hy].
  - rewrite <- HZ. split; [exact SZ | exact Hz].
  - intros Hnan. apply SU.
    assert (Hn1 : nan <> 1%float).
    { intros H. apply (f_equal Prim2SF) in H. discriminate H. }
    assert (Hn0 : ~ is_zero nan).
    { intros [H | H]; apply (f_equal Prim2SF) in H; discriminate H. }
    repeat split; apply not_true_iff_false; intros H;
      [apply HX in H | apply HY in H | apply HZ in H];
      destruct H as (H1 & H2 & H3);
      destruct Hnan as [Hn | [Hn | Hn]]; rewrite Hn in *; auto.
Qed.

(** * The statements on the sample trees, in binary64 *)

(** The chain of two fixed joints and a revolute one compiles to a single
    joint under the universe, placed at the accumulated offset (2, 0, 0),
    with the two collapsed links recorded as fixed bodies of the universe. *)
Example chain_compiled :
  exists model,
    buildModel (Some chain) "chain.urdf" = Ok model /\
    joints model = [JointModelUniverse; JointModelRZ] /\
    names model = ["universe"; "j1"] /\
    parents model = [0; 0] /\
    translation <$> jointPlacements model !! 1 = Some (mkVector3d 2 0 0)%float /\
    (fun b => (fix_parent b, fix_name b)) <$> fixedBodies model = [(0, "mid"); (0, "mid2")] /\
    (nq model, nv model) = (1, 1).
Proof. eexists. split; [reflexivity|]. repeat split. Qed.

Lemma NoDup_chain_names : NoDup ("universe" :: "root_joint" :: emitted_names chain).
Proof.
  change (NoDup ["universe"; "root_joint"; "j1"]).
  repeat (apply NoDup_cons; split;
          [intros H; repeat (apply elem_of_cons in H as [H|H]; [discriminate|]);
           apply elem_of_nil in H; exact H|]).
  apply NoDup_nil. exact I.
Qed.

Lemma urdf_tree_chain : urdf_tree chain.
Proof. split; [reflexivity|]. simpl. auto 10. Qed.

Lemma C1_witness :
  exists model,
    buildModel (Some chain) "chain.urdf" = Ok model /\
    forall i p, 1 <= i -> parents model !! i = Some p -> p < i.
Proof.
  eexists. split; [reflexivity|].
  apply (C1_parents_before_children (Some chain) "chain.urdf" JointModelFreeFlyer).
  left. reflexivity.
Defined.

Lemma X24_witness :
  urdf_tree chain /\
  NoDup ("universe" :: "root_joint" :: emitted_names chain) /\
  buildModel (Some chain) "chain.urdf" = parseTree_carry true 0 chain Model_init SE3_Identity /\
  buildModel_root (Some chain) "chain.urdf" JointModelFreeFlyer =
    parseTree_root_carry chain Model_init SE3_Identity JointModelFreeFlyer.
Proof.
  split; [exact urdf_tree_chain|]. split; [exact NoDup_chain_names|].
  exact (proj2 (X24_parent_resolution chain "chain.urdf" JointModelFreeFlyer urdf_tree_chain)
           NoDup_chain_names).
Defined.

(** C2, at the input where the code departs from it: a URDF that calls one
    of its joints root_joint, compiled with the fixed root.  The links a and
    b both hang under the root link, whose parent joint is null, and no
    explicit root joint exists: C2 puts both joints under index 0.  The code
    puts the joint of a under 0 and, [existJointName] now finding the name
    root_joint, the joint j2 of b under index 1, the joint of its sibling a.
    The traversal that carries the index of the nearest ancestor, which is
    what C2 words, puts both under 0. *)
Lemma C2_failing_input :
  urdf_tree arms /\
  (exists model,
      buildModel (Some arms) "arms.urdf" = Ok model /\
      names model = ["universe"; "root_joint"; "j2"] /\ parents model = [0; 0; 1]) /\
  (exists model,
      parseTree_carry true 0 arms Model_init SE3_Identity = Ok model /\
      names model = ["universe"; "root_joint"; "j2"] /\ parents model = [0; 0; 0]).
Proof.
  split; [split; [reflexivity | simpl; auto]|].
  split; eexists; (split; [reflexivity|]); split; reflexivity.
Qed.


(** C5 fails as stated: the link bare is hung by a revolute joint and has no
    inertial block, yet the compilation fails with the missing-joint error
    of the link stray, which the traversal meets first; and, the assertions
    being armed, with the assertion on the floating joint of floater. *)
Lemma C5_counterexample :
  lacks_inertia bare /\
  bare ∈ descendants stray_first /\
  buildModel (Some stray_first) "stray.urdf" = Throw (missing_joint "stray") /\
  (forall name, buildModel (Some stray_first) "stray.urdf" <> Throw (missing_inertia name)) /\
  bare ∈ descendants floating_first /\
  buildModel (Some floating_first) "floating.urdf" =
    Throw (assertion_failure "Only revolute, prismatic and fixed joints are accepted.").
Proof.
  split; [split; [reflexivity | eexists; split; [reflexivity | discriminate]]|].
  split; [right; left|]. split; [reflexivity|].
  split.
  { intros name H. apply (missing_joint_not_missing_inertia "stray" name).
    assert (H' : @Throw (@Model float_Scalar) (missing_joint "stray")
                 = Throw (missing_inertia name)) by exact H.
    congruence. }
  split; [right; left | reflexivity].
Qed.

Lemma C5_witness :
  urdf_tree bare_tree /\
  lacks_inertia bare /\
  buildModel (Some bare_tree) "bare.urdf" = Throw (missing_inertia "bare") /\
  buildModel_root (Some bare_tree) "bare.urdf" JointModelFreeFlyer
    = Throw (missing_inertia "bare") /\
  exists l, l ∈ bare_tree :: descendants bare_tree /\ link_name l = "bare" /\ lacks_inertia l.
Proof.
  assert (Htree : urdf_tree bare_tree) by (split; [reflexivity | simpl; auto]).
  assert (Hbare : lacks_inertia bare).
  { split; [reflexivity|]. exists joint_j1. split; [reflexivity | discriminate]. }
  pose proof (C5_missing_inertia (Some bare_tree) "bare.urdf" JointModelFreeFlyer)
    as (Hif & _ & _ & _ & Hfirst & _).
  destruct (proj1 (Hfirst bare_tree eq_refl Htree) "bare") as [[_ Hrun] [_ Hrun_root]].
  assert (Hsplit : exists before l after,
             descendants bare_tree = before ++ l :: after /\
             Forall (fun l' => visit_error l' = None) before /\
             lacks_inertia l /\ link_name l = "bare").
  { exists [], bare, []. split; [reflexivity|]. split; [constructor|].
    split; [exact Hbare | reflexivity]. }
  split; [exact Htree|]. split; [exact Hbare|].
  split; [exact (Hrun Hsplit)|]. split; [exact (Hrun_root Hsplit)|].
  destruct (Hif "bare" (Hrun Hsplit)) as (root & l & Hroot & Hl).
  injection Hroot as <-. exists l. exact Hl.
Defined.



Lemma C7_witness :
  let joint_js := @mkJoint float_Scalar "js" REVOLUTE (mkVector3 0 3 4)%float origin_pose None in
  type joint_jr = REVOLUTE /\
  extractCartesianAxis (axis joint_jr) = AXIS_UNALIGNED /\
  extractCartesianAxis (axis joint_js) = AXIS_UNALIGNED /\
  (exists model,
      emitJoint Model_init None swivel joint_jr 0 SE3_Identity SE3_Identity
                Inertia_Identity false = Ok (model, SE3_Identity, None) /\
      joints model =
        [JointModelUniverse;
         JointModelRevoluteUnaligned
           (mkVector3d 0x1.6a09e667f3bccp-1%float 0x1.6a09e667f3bccp-1%float 0%float)]) /\
  (exists model,
      emitJoint Model_init None swivel joint_js 0 SE3_Identity SE3_Identity
                Inertia_Identity false = Ok (model, SE3_Identity, None) /\
      joints model =
        [JointModelUniverse;
         JointModelRevoluteUnaligned
           (mkVector3d 0%float 0x1.3333333333333p-1%float 0x1.999999999999ap-1%float)]) /\
  (let v := @mkVector3d R_Scalar 0 3 4 in
   @vdot R_Scalar (@normalize R_Scalar v) (@normalize R_Scalar v) = 1 /\
   vx v = sqrt (@vdot R_Scalar v v) * vx (@normalize R_Scalar v) /\
   vy v = sqrt (@vdot R_Scalar v v) * vy (@normalize R_Scalar v) /\
   vz v = sqrt (@vdot R_Scalar v v) * vz (@normalize R_Scalar v))%R.
Proof.
  intros joint_js.
  split; [reflexivity|]. split; [reflexivity|]. split; [reflexivity|].
  split; [|split].
  - eexists. split.
    + exact (proj1 (proj2 C7_axis_classifier) float_Scalar Model_init None swivel joint_jr 0
               SE3_Identity SE3_Identity Inertia_Identity false (or_introl eq_refl) eq_refl).
    + reflexivity.
  - eexists. split.
    + exact (proj1 (proj2 C7_axis_classifier) float_Scalar Model_init None swivel joint_js 0
               SE3_Identity SE3_Identity Inertia_Identity false (or_introl eq_refl) eq_refl).
    + reflexivity.
  - intros v.
    assert (Hne : v <> @Vector3d_Zero R_Scalar).
    { intros H. apply (f_equal vy) in H. simpl in H. revert H. cbv [d0 R_Scalar]. lra. }
    destruct (proj2 (proj2 (proj2 (proj2 C7_axis_classifier))) v Hne)
      as (Hu & _ & Hx & Hy & Hz).
    split; [exact Hu|]. split; [exact Hx|]. split; [exact Hy | exact Hz].
Defined.

Lemma C8_witness :
  type joint_j1 = REVOLUTE /\
  exists e,
    emitJoint Model_init None chain_l1 joint_j1 0 SE3_Identity SE3_Identity
              Inertia_Identity false = Ok e /\
    limits e.1.1 = limits Model_init ++ [stored_limits joint_j1] /\
    stored_limits joint_j1 = mkLimits [d2] [d3] [d0] [d1].
Proof.
  split; [reflexivity|]. eexists. split; [reflexivity|]. split.
  - exact (proj1 (proj2 (C8_limits Model_init None chain_l1 joint_j1 0 SE3_Identity
                           SE3_Identity Inertia_Identity false _ (or_introl eq_refl) eq_refl))).
  - reflexivity.
Defined.

Lemma C10_witness :
  inertial chain = None /\
  parseTree_root chain Model_init SE3_Identity JointModelFreeFlyer =
    foreach (fun child m => parseTree child m SE3_Identity) (child_links chain)
            (addBody_nolimits Model_init 0 JointModelFreeFlyer SE3_Identity Inertia_Identity
                              "root_joint" "base" true) /\
  exists model,
    buildModel_root (Some chain) "chain.urdf" JointModelFreeFlyer = Ok model /\
    names model = ["universe"; "root_joint"; "j1"] /\ parents model = [0; 0; 1].
Proof.
  split; [reflexivity|]. split.
  - exact (proj1 (C10_root_without_inertial chain Model_init SE3_Identity JointModelFreeFlyer
                    eq_refl)).
  - eexists. split; [reflexivity|]. split; reflexivity.
Defined.

(** * The further properties on the sample trees, in binary64 *)

Lemma urdf_tree_stray_first : urdf_tree stray_first.
Proof. split; [reflexivity|]. simpl. auto. Qed.

Lemma urdf_tree_arms : urdf_tree arms.
Proof. split; [reflexivity|]. simpl. auto. Qed.

Lemma X1_witness :
  urdf_tree chain /\
  Forall (fun l => visit_error l = None) (descendants chain) /\
  exists model, buildModel (Some chain) "chain.urdf" = Ok model.
Proof.
  split; [exact urdf_tree_chain|].
  assert (H : Forall (fun l => visit_error l = None) (descendants chain))
    by (repeat constructor).
  split; [exact H|].
  exact (proj2 (proj1 (X1_accepted_trees chain "chain.urdf" JointModelFreeFlyer
                         urdf_tree_chain)) H).
Defined.

Lemma X2_witness :
  urdf_tree stray_first /\
  descendants stray_first = [] ++ stray :: [bare] /\
  visit_error stray = Some (missing_joint "stray") /\
  buildModel (Some stray_first) "stray.urdf" = Throw (missing_joint "stray") /\
  buildModel_root (Some stray_first) "stray.urdf" JointModelFreeFlyer =
    Throw (missing_joint "stray").
Proof.
  split; [exact urdf_tree_stray_first|]. split; [reflexivity|]. split; [reflexivity|].
  destruct (X2_first_failure stray_first "stray.urdf" JointModelFreeFlyer
              (missing_joint "stray") urdf_tree_stray_first) as (H1 & H2 & _).
  assert (H : exists before l after,
             descendants stray_first = before ++ l :: after /\
             Forall (fun l => visit_error l = None) before /\
             visit_error l = Some (missing_joint "stray")).
  { exists [], stray, [bare]. repeat split. constructor. }
  split; [exact (proj2 H1 H) | exact (proj2 H2 H)].
Defined.

Lemma X3_witness :
  buildModel None "robot.urdf" = Throw (invalid_file "robot.urdf") /\
  buildModel (Some chain) "robot.urdf" <> Throw (invalid_file "robot.urdf").
Proof.
  destruct (X3_invalid_file (Some chain) "robot.urdf" "robot.urdf" JointModelFreeFlyer)
    as [H _].
  split.
  - exact (proj2 (proj1 (X3_invalid_file None "robot.urdf" "robot.urdf" JointModelFreeFlyer))
             (conj eq_refl eq_refl)).
  - intros Hrun. apply (proj1 H) in Hrun as [Hnone _]. discriminate Hnone.
Defined.

Lemma X4_witness :
  parent_joint chain = None /\
  exists model,
    buildModel (Some chain) "chain.urdf" = Ok model /\
    names model = ["universe"; "j1"] /\
    bodyNames model = ["universe"; "l1"] /\
    hasVisual model = [false; false] /\
    limits model = [mkLimits [] [] [] []; mkLimits [d2] [d3] [d0] [d1]] /\
    njoints model = 2.
Proof.
  split; [reflexivity|]. eexists. split; [reflexivity|].
  exact (proj1 (X4_model_rows chain "chain.urdf" JointModelFreeFlyer _ eq_refl) eq_refl).
Defined.

Lemma X5_witness :
  parent_joint chain = None /\
  exists model,
    buildModel (Some chain) "chain.urdf" = Ok model /\
    (fun b => (fix_name b, fix_hasVisual b)) <$> fixedBodies model
      = [("mid", true); ("mid2", true)] /\
    Forall (fun b => fix_parent b < njoints model) (fixedBodies model).
Proof.
  split; [reflexivity|]. eexists. split; [reflexivity|].
  exact (X5_fixed_bodies chain "chain.urdf" JointModelFreeFlyer _ eq_refl
           (or_introl eq_refl)).
Defined.

Lemma X6_witness :
  urdf_tree chain /\
  exists model,
    buildModel (Some chain) "chain.urdf" = Ok model /\
    njoints model + length (fixedBodies model) = 1 + length (descendants chain).
Proof.
  split; [exact urdf_tree_chain|]. eexists. split; [reflexivity|].
  exact (proj1 (X6_one_entry_per_link chain "chain.urdf" JointModelFreeFlyer _
                  urdf_tree_chain) eq_refl).
Defined.

Lemma X7_witness :
  exists model,
    parseTree chain Model_init SE3_Identity = Ok model /\
    grown_from Model_init model /\
    names model !! 0 = Some "universe".
Proof.
  eexists. split; [reflexivity|].
  match goal with
  | |- grown_from _ ?m /\ _ =>
      destruct (X7_append_only chain Model_init SE3_Identity m eq_refl)
        as (Hg & _ & _ & _ & Hn & _)
  end.
  split; [exact Hg | exact (Hn 0 "universe" eq_refl)].
Defined.

(** The URDF of [arms] calls one of its own joints root_joint; the explicit
    root joint is found all the same. *)
Lemma X8_witness :
  exists model,
    buildModel_root (Some arms) "arms.urdf" JointModelFreeFlyer = Ok model /\
    joints model !! 1 = Some JointModelFreeFlyer /\
    parents model !! 1 = Some 0 /\
    names model !! 1 = Some "root_joint" /\
    bodyNames model !! 1 = Some "base" /\
    hasVisual model !! 1 = Some true.
Proof.
  eexists. split; [reflexivity|].
  match goal with
  | |- joints ?m !! 1 = _ /\ _ =>
      destruct (X8_root_joint_entry arms "arms.urdf" JointModelFreeFlyer m eq_refl)
        as (_ & _ & Hj & Hp & _ & Hn & Hb & Hv & _)
  end.
  split; [exact Hj|]. split; [exact Hp|]. split; [exact Hn|]. split; [exact Hb | exact Hv].
Defined.

Lemma X9_witness :
  parent_joint arms = None /\
  Forall (fun l => hung_by_fixed l = false) (descendants arms) /\
  exists model,
    buildModel (Some arms) "arms.urdf" = Ok model /\
    inertias model =
      [Inertia_Zero; convertFromUrdf_Inertial (inertial_of_mass d1);
       convertFromUrdf_Inertial (inertial_of_mass d1)].
Proof.
  split; [reflexivity|].
  assert (H : Forall (fun l => hung_by_fixed l = false) (descendants arms))
    by (repeat constructor).
  split; [exact H|]. eexists. split; [reflexivity|].
  exact (proj1 (X9_inertias_without_fixed arms "arms.urdf" JointModelFreeFlyer _ eq_refl H)
           eq_refl).
Defined.

Lemma X10_witness :
  buildModel (Some heavy_sliding) "sliding.urdf" = Throw unaligned_prismatic /\
  exists root l,
    Some heavy_sliding = Some root /\ l ∈ root :: descendants root /\
    (visit_error l = Some unaligned_prismatic \/
     (unaligned_prismatic = assertion_failure "link->getParent()!=NULL" /\
      is_Some (parent_joint l)) \/
     (exists n, unaligned_prismatic = unknown_joint_name n)).
Proof.
  split; [reflexivity|].
  destruct (proj1 (X10_failures (Sc := float_Scalar) (Some heavy_sliding) "sliding.urdf"
                     JointModelFreeFlyer unaligned_prismatic) eq_refl) as [[H _] | H].
  - discriminate H.
  - exact H.
Defined.

Lemma X16_witness :
  let v := @mkVector3 float_Scalar 1%float (-0)%float 0%float in
  let w := @mkVector3 float_Scalar 0%float nan 1%float in
  @extractCartesianAxis float_Scalar v = AXIS_X /\
  @extractCartesianAxis float_Scalar w = AXIS_UNALIGNED.
Proof.
  intros v w. split.
  - apply (proj1 (X16_classifier_binary64 v)).
    split; [reflexivity|]. split; [right | left]; reflexivity.
  - apply (proj2 (proj2 (proj2 (X16_classifier_binary64 w)))).
    right. left. reflexivity.
Defined.

Lemma X17_witness :
  parent_joint chain = None /\
  NoDup ("universe" :: "root_joint" :: emitted_names chain) /\
  exists model,
    buildModel_root (Some chain) "chain.urdf" JointModelFreeFlyer = Ok model /\
    names model = ["universe"; "root_joint"; "j1"] /\
    getJointId model "j1" = Ok 2.
Proof.
  split; [reflexivity|]. split; [exact NoDup_chain_names|].
  eexists. split; [reflexivity|]. split; [reflexivity|].
  match goal with
  | |- getJointId ?m _ = _ =>
      exact (proj1 (proj2 (X17_name_round_trip chain "chain.urdf" JointModelFreeFlyer m
                             eq_refl NoDup_chain_names (or_intror eq_refl))
                      2 "j1" eq_refl))
  end.
Defined.

Lemma X19_witness :
  parent_joint chain = None /\
  exists model,
    buildModel (Some chain) "chain.urdf" = Ok model /\
    jointPlacements model =
      SE3_Identity :: concat (placements hung_by_moving [chain] <$> child_links chain) /\
    translation <$> jointPlacements model = [mkVector3d 0 0 0; mkVector3d 2 0 0]%float /\
    translation <$> (fix_placement <$> fixedBodies model)
      = [mkVector3d 1 0 0; mkVector3d 2 0 0]%float.
Proof.
  split; [reflexivity|]. eexists. split; [reflexivity|].
  split; [|split; reflexivity].
  exact (proj1 (proj1 (X19_placements chain "chain.urdf" JointModelFreeFlyer _ eq_refl)
                  eq_refl)).
Defined.

Lemma X20_witness :
  urdf_tree chain /\
  NoDup ("universe" :: "root_joint" :: emitted_names chain) /\
  exists model model_r,
    buildModel (Some chain) "chain.urdf" = Ok model /\
    buildModel_root (Some chain) "chain.urdf" JointModelFreeFlyer = Ok model_r /\
    parents model = [0; 0] /\
    parents model_r = 0 :: 0 :: (S <$> tail (parents model)) /\
    fix_parent <$> fixedBodies model_r = S <$> (fix_parent <$> fixedBodies model).
Proof.
  split; [exact urdf_tree_chain|]. split; [exact NoDup_chain_names|].
  eexists. eexists. split; [reflexivity|]. split; [reflexivity|]. split; [reflexivity|].
  match goal with
  | |- parents ?mr = 0 :: 0 :: (S <$> tail (parents ?m)) /\ _ =>
      destruct (X20_root_joint_shift chain "chain.urdf" JointModelFreeFlyer m mr
                  urdf_tree_chain NoDup_chain_names eq_refl eq_refl) as (Hp & Hf & _)
  end.
  split; [exact Hp | exact Hf].
Defined.


Lemma X22_witness :
  urdf_tree chain /\
  NoDup ("universe" :: "root_joint" :: emitted_names chain) /\
  exists model,
    buildModel (Some chain) "chain.urdf" = Ok model /\
    inertias model =
      foldl merge_welded Inertia_Zero (welds_below [chain] (child_links chain))
      :: concat (joint_inertias [chain] <$> child_links chain) /\
    (fun Y => (mass Y, lever Y)) <$> inertias model
      = [(2, mkVector3d 2 0 0); (1, mkVector3d 0 0 0)]%float.
Proof.
  split; [exact urdf_tree_chain|]. split; [exact NoDup_chain_names|].
  eexists. split; [reflexivity|]. split; [|reflexivity].
  exact (proj1 (X22_body_inertias chain "chain.urdf" JointModelFreeFlyer _
                  urdf_tree_chain NoDup_chain_names) eq_refl).
Defined.

Lemma X23_witness :
  urdf_tree chain /\
  ("root_joint" ∉ emitted_names chain) /\
  exists model,
    buildModel (Some chain) "chain.urdf" = Ok model /\
    named model (parents model)
      ("universe"
       :: concat (parent_names hung_by_moving "universe" [chain] <$> child_links chain)) /\
    named model (fix_parent <$> fixedBodies model)
      (concat (parent_names hung_by_fixed "universe" [chain] <$> child_links chain)).
Proof.
  assert (Hroot : "root_joint" ∉ emitted_names chain).
  { intros Hin. apply list_elem_of_In in Hin. simpl in Hin.
    destruct Hin as [H | []]. discriminate H. }
  split; [exact urdf_tree_chain|]. split; [exact Hroot|].
  eexists. split; [reflexivity|].
  exact (proj1 (X23_parents_by_name chain "chain.urdf" JointModelFreeFlyer _ urdf_tree_chain)
           eq_refl Hroot).
Defined.
